(** * HoeffdingPruningTree: pruning a Hoeffding tree by feature importance

    A shallow embedding of the pruning engine of the repository:
    - [pruner/selective_pruner.py] and [pruner/complete_pruner.py],
    - the controller [tree/hoeffding_pruning_tree.py],
    - the seeded reservoirs [reproducible_ipfi/reservoir.py] and the
      imputer that samples from them, [reproducible_ipfi/marginal_imputer.py],
    - the salary drift of the data streams, [data/utils.py].

    Conventions of the embedding.
    - Python objects that are mutated in place (tree nodes) live in an
      object store ([heap]); a reference is a location in it.
    - A Python call that may raise returns a [result]; the exception is the
      payload of [Raise].
    - Recursive Python functions carry the interpreter's recursion budget
      ([sys.getrecursionlimit()]) as a [fuel] argument and raise
      [RecursionError] when it is used up.
    - The numbers that the selective pruner adds, divides and compares
      (the promises of the leaves) are an interface with the laws of
      Python's comparison, since floating-point arithmetic rounds; so are
      the numpy functions of Algorithm L. The importance values, the
      threshold and the probabilities of the reservoirs, which the code
      only compares, are rationals ([Q]).
    - The libraries the repository builds on (river, ixai, numpy) are
      interfaces, given as type classes. *)

From Stdlib Require Import QArith Qround.
From stdpp Require Import base tactics option list gmap strings pretty.

Set Default Proof Using "Type".
Set Warnings "-register-all".

(* ===================================================================== *)
(** * Part I: definitions                                                 *)
(* ===================================================================== *)

(** ** Python runtime: exceptions and results *)

Inductive exn :=
| ValueError (msg : string)
| ZeroDivisionError
| IndexError
| AttributeError
| TypeError
| RecursionError
| DanglingReference (* a location outside the store; no Python counterpart *)
| KeyError (key : string).

Inductive result (A : Type) :=
| Ok (a : A)
| Raise (e : exn).
Arguments Ok {A} a.
Arguments Raise {A} e.

#[global] Instance result_ret : MRet result := λ A a, Ok a.
#[global] Instance result_bind : MBind result := λ A B f m,
  match m with Ok a => f a | Raise e => Raise e end.
#[global] Instance result_fmap : FMap result := λ A B f m,
  match m with Ok a => Ok (f a) | Raise e => Raise e end.

Definition is_Ok {A} (r : result A) : Prop := ∃ a, r = Ok a.

(** [[f(a) for a in l]] for an [f] that may raise. *)
Fixpoint mapM_result {A B} (f : A → result B) (l : list A) : result (list B) :=
  match l with
  | [] => Ok []
  | a :: l => b ← f a; bs ← mapM_result f l; Ok (b :: bs)
  end.

(** [[f(a) for a in l]] for an [f] that may raise and mutates a state. *)
Fixpoint mapM_state {A B St} (f : A → St → result (B * St)) (l : list A) (s : St)
  : result (list B * St) :=
  match l with
  | [] => Ok ([], s)
  | a :: l =>
      '(b, s) ← f a s;
      '(bs, s) ← mapM_state f l s;
      Ok (b :: bs, s)
  end.

(** [for i in range(i, i + n): s = body(i, s)]. *)
Fixpoint for_range {St} (body : nat → St → result St) (i n : nat) (s : St) : result St :=
  match n with
  | 0 => Ok s
  | S n => s ← body i s; for_range body (S i) n s
  end.

(** ** Python numbers *)

(** [a < b] on rationals. *)
Definition Qlt_bool (a b : Q) : bool := negb (Qle_bool b a).

(** The promise of a leaf is a Python number, an int or a float. The
    selective pruner adds promises, divides the sum by a count and compares
    the quotients. Floating-point arithmetic rounds, so these operations
    are an interface, not the arithmetic of the rationals: [num_zero] is
    the int 0 that [sum] starts from, [num_add a b] is [a + b],
    [num_div_len a n] is [a / n] for a positive int [n], [num_lt a b] is
    [a < b] and [num_eqb a b] is [a == b]. The laws are those of Python's
    comparison of numbers other than NaN: [<] is asymmetric; when [a < c],
    any [b] has [a < b] or [b < c]; and [a == b] holds exactly when neither
    number is below the other. *)
Class PyNumbers := {
  number : Type;
  num_zero : number;
  num_add : number → number → number;
  num_div_len : number → nat → number;
  num_lt : number → number → bool;
  num_eqb : number → number → bool;
  num_lt_asym a b : num_lt a b = true → num_lt b a = false;
  num_lt_cotrans a b c : num_lt a c = true → num_lt a b = true ∨ num_lt b c = true;
  num_eqb_lt a b : num_eqb a b = true ↔ num_lt a b = false ∧ num_lt b a = false;
}.

Section numbers.
Context `{PyNumbers}.

(** [sum(l)]: the items are added to 0 from left to right. *)
Definition py_sum (l : list number) : number := fold_left num_add l num_zero.

(** [max(l)]: the first maximal item; [ValueError] on an empty list. *)
Definition py_max (l : list number) : result number :=
  match l with
  | [] => Raise (ValueError "max() arg is an empty sequence")
  | x :: l => Ok (fold_left (λ m y, if num_lt m y then y else m) l x)
  end.

(** [l.index(v)]: the first position holding a value equal ([==]) to [v]. *)
Fixpoint py_index (v : number) (l : list number) : result nat :=
  match l with
  | [] => Raise (ValueError "x is not in list")
  | x :: l => if num_eqb x v then Ok 0 else S <$> py_index v l
  end.

End numbers.

(** [l[i]] and [l[i] = v] for a non-negative index. *)
Definition py_getitem {A} (l : list A) (i : nat) : result A :=
  match l !! i with Some a => Ok a | None => Raise IndexError end.

Definition py_setitem {A} (l : list A) (i : nat) (v : A) : result (list A) :=
  if decide (i < length l) then Ok (<[i:=v]> l) else Raise IndexError.

(** ** river: tree nodes *)

(** What the embedding needs from river's node classes: the type of the
    sufficient statistics a node holds, the statistics of a leaf created
    without any, the numbers that promises are, and
    [HTLeaf.calculate_promise], which reads the leaf's statistics only. *)
Class RiverNodes := {
  Stats : Type;
  empty_stats : Stats;
  promise_numbers :: PyNumbers;
  calculate_promise : Stats → number;
}.

Definition loc := nat.

Section nodes.
Context `{RiverNodes}.

(** [HTLeaf]: statistics, depth, and whether the leaf is active
    ([is_active()]). [DTBranch]: the statistics held before the split, the
    split feature, depth, and the list of children. *)
Inductive node :=
| HTLeaf (stats : Stats) (depth : nat) (active : bool)
| DTBranch (stats : Stats) (feature : string) (depth : nat) (children : list loc).

(** The object store: the tree nodes by location. *)
Local Abbreviation heap := (list node).

Definition node_depth (n : node) : nat :=
  match n with HTLeaf _ d _ => d | DTBranch _ _ d _ => d end.

Definition deref (h : heap) (l : loc) : result node :=
  match h !! l with Some n => Ok n | None => Raise DanglingReference end.

(** [isinstance(node, HTLeaf)] and [isinstance(node, DTBranch)]. *)
Definition is_HTLeaf (h : heap) (l : loc) : result bool :=
  n ← deref h l; Ok (match n with HTLeaf _ _ _ => true | DTBranch _ _ _ _ => false end).

Definition is_DTBranch (h : heap) (l : loc) : result bool :=
  n ← deref h l; Ok (match n with HTLeaf _ _ _ => false | DTBranch _ _ _ _ => true end).

(** [node.children], [node.feature], [node.stats]; a leaf has neither
    children nor a feature. *)
Definition get_children (h : heap) (l : loc) : result (list loc) :=
  n ← deref h l;
  match n with DTBranch _ _ _ ch => Ok ch | HTLeaf _ _ _ => Raise AttributeError end.

Definition get_feature (h : heap) (l : loc) : result string :=
  n ← deref h l;
  match n with DTBranch _ f _ _ => Ok f | HTLeaf _ _ _ => Raise AttributeError end.

Definition get_stats (h : heap) (l : loc) : result Stats :=
  n ← deref h l;
  Ok (match n with DTBranch s _ _ _ => s | HTLeaf s _ _ => s end).

(** [leaf.calculate_promise()] and [leaf.is_active()]. *)
Definition leaf_promise (h : heap) (l : loc) : result number :=
  n ← deref h l;
  match n with HTLeaf s _ _ => Ok (calculate_promise s) | DTBranch _ _ _ _ => Raise AttributeError end.

Definition is_active (h : heap) (l : loc) : result bool :=
  n ← deref h l;
  match n with HTLeaf _ _ a => Ok a | DTBranch _ _ _ _ => Raise AttributeError end.

(** [node.children = children]. *)
Definition assign_children (h : heap) (l : loc) (children : list loc) : result heap :=
  n ← deref h l;
  match n with
  | DTBranch s f d _ => Ok (<[l := DTBranch s f d children]> h)
  | HTLeaf s d a => Raise AttributeError
  end.

(** [parent.children[index] = child]. *)
Definition setitem_children (h : heap) (parent : loc) (index : nat) (child : loc)
  : result heap :=
  n ← deref h parent;
  match n with
  | DTBranch s f d ch => ch ← py_setitem ch index child; Ok (<[parent := DTBranch s f d ch]> h)
  | HTLeaf _ _ _ => Raise AttributeError
  end.

(** [node.iter_leaves()] of river: a leaf yields itself, a branch yields
    the leaves of its children in order. *)
Fixpoint iter_leaves (fuel : nat) (h : heap) (l : loc) : result (list loc) :=
  match fuel with
  | 0 => Raise RecursionError
  | S fuel =>
      n ← deref h l;
      match n with
      | HTLeaf _ _ _ => Ok [l]
      | DTBranch _ _ _ ch => ls ← mapM_result (iter_leaves fuel h) ch; Ok (concat ls)
      end
  end.

(** ** The tree object *)

(** The fields of river's [HoeffdingTreeClassifier] that the pruning engine
    reads or writes: the node store, [_root] ([None] before the first
    observation) and the two leaf counters; [internals] stands for the rest
    of river's state. *)
Record HoeffdingTreeClassifier {Internals : Type} := {
  nodes : heap;
  _root : option loc;
  _n_active_leaves : nat;
  _n_inactive_leaves : nat;
  internals : Internals;
}.

End nodes.
Arguments node : clear implicits.
Arguments node {_}.
Abbreviation heap := (list node).
Arguments HoeffdingTreeClassifier : clear implicits.
Arguments HoeffdingTreeClassifier {_} _.

(** ** The libraries around the controller *)

(** What the controller needs from river and ixai.
    - [Internals], [Value], [Label]: river's remaining classifier state, the
      values of an observation's features, and the labels.
    - [super_learn_one x y w]: river's [HoeffdingTreeClassifier.learn_one]
      with [sample_weight=w]; it works on the fields of the base class.
    - [IPFI]: the explainer object (ixai's incremental PFI with the seeded
      reservoir and imputer of [reproducible_ipfi]); [explain_one] evaluates
      the model through [predict_one], hence reads the current tree, and
      returns the importance values next to the updated explainer;
      [importance_values] is its property of that name, a dict in insertion
      order.
    - [FeatureImportancePlotter]: ixai's plotter. *)
Class Libraries `{RiverNodes} := {
  Internals : Type;
  Value : Type;
  Label : Type;
  super_learn_one :
    list (string * Value) → Label → Q →
    HoeffdingTreeClassifier Internals → HoeffdingTreeClassifier Internals;
  IPFI : Type;
  IPFI_new : list string → option Z → IPFI;
  explain_one :
    IPFI → HoeffdingTreeClassifier Internals → list (string * Value) → Label →
    list (string * Q) * IPFI;
  importance_values : IPFI → list (string * Q);
  FeatureImportancePlotter : Type;
  FeatureImportancePlotter_new : list string → FeatureImportancePlotter;
  plotter_update : FeatureImportancePlotter → list (string * Q) → FeatureImportancePlotter;
}.

(** The pruner object held in [self.pruner]; its [tree] field is the tree
    that holds it. *)
Inductive pruner_object := Selective | Complete.

(** [HoeffdingPruningTree]: the base-class part and the fields that
    [__init__] adds. [prune_tree_calls] is a ghost field: it counts the calls
    of [self.pruner.prune_tree()] made by [learn_one]. *)
Record HoeffdingPruningTree `{Libraries} := {
  base : HoeffdingTreeClassifier Internals;
  incremental_pfi : option IPFI;
  pfi_plotter : option FeatureImportancePlotter;
  importance_threshold : Q;
  feature_names : option (list string);
  important_features : option (list string);
  last_important_features : option (gset string);
  pruner : pruner_object;
  seed : option Z;
  prune_tree_calls : nat;
}.

Section tree.
Context `{Libraries}.

Definition with_base (b : HoeffdingTreeClassifier Internals) (self : HoeffdingPruningTree)
  : HoeffdingPruningTree :=
  {| base := b;
     incremental_pfi := incremental_pfi self;
     pfi_plotter := pfi_plotter self;
     importance_threshold := importance_threshold self;
     feature_names := feature_names self;
     important_features := important_features self;
     last_important_features := last_important_features self;
     pruner := pruner self;
     seed := seed self;
     prune_tree_calls := prune_tree_calls self |}.

(** [self'] differs from [self] in the fields of the base class only. *)
Definition same_fields (self self' : HoeffdingPruningTree) : Prop :=
  self' = with_base (base self') self.

(** The node store of the tree, and its replacement after a mutation. *)
Definition store (self : HoeffdingPruningTree) : heap := nodes (base self).

Definition with_store (h : heap) (self : HoeffdingPruningTree) : HoeffdingPruningTree :=
  with_base {| nodes := h;
               _root := _root (base self);
               _n_active_leaves := _n_active_leaves (base self);
               _n_inactive_leaves := _n_inactive_leaves (base self);
               internals := internals (base self) |} self.

(** The property [root]. *)
Definition root (self : HoeffdingPruningTree) : option loc := _root (base self).

Definition set_new_root (node : loc) (self : HoeffdingPruningTree) : HoeffdingPruningTree :=
  with_base {| nodes := nodes (base self);
               _root := Some node;
               _n_active_leaves := _n_active_leaves (base self);
               _n_inactive_leaves := _n_inactive_leaves (base self);
               internals := internals (base self) |} self.

(** river's [_new_leaf(initial_stats, parent)]: a new active leaf holding
    [initial_stats] (empty statistics for [None]) at depth [parent.depth + 1]
    (depth 0 without a parent). The new object gets the next free
    location. *)
Definition _new_leaf (initial_stats : option Stats) (parent : option loc)
    (self : HoeffdingPruningTree) : result (loc * HoeffdingPruningTree) :=
  let stats := default empty_stats initial_stats in
  depth ← match parent with
          | None => Ok 0
          | Some p => n ← deref (store self) p; Ok (node_depth n + 1)
          end;
  Ok (length (store self), with_store (store self ++ [HTLeaf stats depth true]) self).

Definition create_new_leaf (initial_stats : option Stats) (parent : option loc)
    (self : HoeffdingPruningTree) : result (loc * HoeffdingPruningTree) :=
  _new_leaf initial_stats parent self.

(** [feature not in self.tree.important_features]; [TypeError] while the
    attribute is still [None]. *)
Definition not_in_important_features (feature : string) (self : HoeffdingPruningTree)
  : result bool :=
  match important_features self with
  | None => Raise TypeError
  | Some fs => Ok (negb (bool_decide (feature ∈ fs)))
  end.

End tree.

(** ** pruner/selective_pruner.py *)

Module SelectivePruner.
Section selective.
Context `{Libraries}.

(** [_calculate_avg_promise(node)]. *)
Definition _calculate_avg_promise (fuel : nat) (node : loc) (tree : HoeffdingPruningTree)
  : result number :=
  leaves ← iter_leaves fuel (store tree) node;
  leaves ← mapM_result (λ leaf, b ← is_HTLeaf (store tree) leaf; Ok (leaf, b)) leaves;
  let leaves := (filter (λ lb, snd lb = true) leaves).*1 in
  promises ← mapM_result (leaf_promise (store tree)) leaves;
  let total_promise := py_sum promises in
  if decide (length leaves = 0) then Raise ZeroDivisionError
  else Ok (num_div_len total_promise (length leaves)).

(** [_choose_child(children)]. *)
Definition _choose_child (fuel : nat) (children : list loc) (tree : HoeffdingPruningTree)
  : result loc :=
  promises ← mapM_result (λ child,
      leaf ← is_HTLeaf (store tree) child;
      if negb leaf then _calculate_avg_promise fuel child tree
      else leaf_promise (store tree) child) children;
  m ← py_max promises;
  max_avg_promise_index ← py_index m promises;
  py_getitem children max_avg_promise_index.

(** [prune_subtree(node)]: returns the node to use in the place of [node]. *)
Fixpoint prune_subtree (fuel : nat) (node : loc) (tree : HoeffdingPruningTree)
  : result (loc * HoeffdingPruningTree) :=
  match fuel with
  | 0 => Raise RecursionError
  | S fuel =>
      children ← get_children (store tree) node;
      '(pruned_children, tree) ← mapM_state (λ child tree,
          leaf ← is_HTLeaf (store tree) child;
          if negb leaf then prune_subtree fuel child tree else Ok (child, tree))
        children tree;
      feature ← get_feature (store tree) node;
      unimportant ← not_in_important_features feature tree;
      if (unimportant : bool) then
        child ← _choose_child fuel pruned_children tree; Ok (child, tree)
      else
        h ← assign_children (store tree) node pruned_children;
        Ok (node, with_store h tree)
  end.

(** [prune_tree()]. *)
Definition prune_tree (fuel : nat) (tree : HoeffdingPruningTree) : result HoeffdingPruningTree :=
  match root tree with
  | None => Ok tree
  | Some r =>
      branch ← is_DTBranch (store tree) r;
      if (branch : bool) then
        '(new_root, tree) ← prune_subtree fuel r tree;
        Ok (set_new_root new_root tree)
      else Ok tree
  end.

End selective.
End SelectivePruner.

(** ** pruner/complete_pruner.py *)

Module CompletePruner.
Section complete.
Context `{Libraries}.

(** [prune_subtree(node, parent, index)]. The loop
    [for i, child in enumerate(node.children)] reads item [i] of the list
    object at step [i]; the calls in its body assign to items of that very
    list and leave its length as it is. *)
Fixpoint prune_subtree (fuel : nat) (node : loc) (parent : option loc) (index : nat)
    (tree : HoeffdingPruningTree) : result HoeffdingPruningTree :=
  match fuel with
  | 0 => Raise RecursionError
  | S fuel =>
      branch ← is_DTBranch (store tree) node;
      if (branch : bool) then
        feature ← get_feature (store tree) node;
        unimportant ← not_in_important_features feature tree;
        if (unimportant : bool) then
          stats ← get_stats (store tree) node;
          '(new_leaf, tree) ← create_new_leaf (Some stats) parent tree;
          match parent with
          | None => Ok (set_new_root new_leaf tree)
          | Some parent =>
              h ← setitem_children (store tree) parent index new_leaf;
              Ok (with_store h tree)
          end
        else
          children ← get_children (store tree) node;
          for_range (λ i tree,
              children ← get_children (store tree) node;
              child ← py_getitem children i;
              prune_subtree fuel child (Some node) i tree)
            0 (length children) tree
      else Ok tree
  end.

(** [prune_tree()]. *)
Definition prune_tree (fuel : nat) (tree : HoeffdingPruningTree) : result HoeffdingPruningTree :=
  match root tree with
  | None => Ok tree
  | Some r =>
      branch ← is_DTBranch (store tree) r;
      if (branch : bool) then prune_subtree fuel r None 0 tree else Ok tree
  end.

End complete.
End CompletePruner.

(** ** tree/hoeffding_pruning_tree.py *)

Section controller.
Context `{Libraries}.

(** [sum(1 for leaf in leaves if test(leaf))]. *)
Definition count_leaves (test : loc → result bool) (leaves : list loc) : result nat :=
  flags ← mapM_result test leaves;
  Ok (length (filter (λ b, b = true) flags)).

(** [_update_leaf_counts()]. *)
Definition _update_leaf_counts (fuel : nat) (self : HoeffdingPruningTree)
  : result HoeffdingPruningTree :=
  match _root (base self) with
  | None => Raise AttributeError
  | Some r =>
      leaves ← iter_leaves fuel (store self) r;
      n_active ← count_leaves (is_active (store self)) leaves;
      n_inactive ← count_leaves (λ leaf, negb <$> is_active (store self) leaf) leaves;
      Ok (with_base {| nodes := nodes (base self);
                       _root := _root (base self);
                       _n_active_leaves := n_active;
                       _n_inactive_leaves := n_inactive;
                       internals := internals (base self) |} self)
  end.

(** [_set_pruner(pruner)]. *)
Definition _set_pruner (pruner : string) : result pruner_object :=
  if decide (pruner = "selective") then Ok Selective
  else if decide (pruner = "complete") then Ok Complete
  else Raise (ValueError ("Invalid pruner type: " +:+ pruner
                          +:+ ". Valid options are 'selective' or 'complete'.")).

(** [__init__]: [super_init] is the object as river's
    [HoeffdingTreeClassifier.__init__] leaves it. *)
Definition __init__ (super_init : HoeffdingTreeClassifier Internals)
    (importance_threshold : Q) (pruner : string) (seed : option Z)
  : result HoeffdingPruningTree :=
  p ← _set_pruner pruner;
  Ok {| base := super_init;
        incremental_pfi := None;
        pfi_plotter := None;
        importance_threshold := importance_threshold;
        feature_names := None;
        important_features := None;
        last_important_features := None;
        pruner := p;
        seed := seed;
        prune_tree_calls := 0 |}.

(** [self.pruner.prune_tree()]. *)
Definition pruner_prune_tree (fuel : nat) (self : HoeffdingPruningTree)
  : result HoeffdingPruningTree :=
  match pruner self with
  | Selective => SelectivePruner.prune_tree fuel self
  | Complete => CompletePruner.prune_tree fuel self
  end.

(** [_create_ipfi()]. *)
Definition _create_ipfi (self : HoeffdingPruningTree) : result HoeffdingPruningTree :=
  match feature_names self with
  | None => Raise TypeError
  | Some names =>
      Ok {| base := base self;
            incremental_pfi := Some (IPFI_new names (seed self));
            pfi_plotter := Some (FeatureImportancePlotter_new names);
            importance_threshold := importance_threshold self;
            feature_names := feature_names self;
            important_features := important_features self;
            last_important_features := last_important_features self;
            pruner := pruner self;
            seed := seed self;
            prune_tree_calls := prune_tree_calls self |}
  end.

(** [value >= self.importance_threshold]. *)
Definition meets_threshold (self : HoeffdingPruningTree) (value : Q) : bool :=
  Qle_bool (importance_threshold self) value.

(** [_update_ipfi(x, y)]. *)
Definition _update_ipfi (x : list (string * Value)) (y : Label) (self : HoeffdingPruningTree)
  : result HoeffdingPruningTree :=
  match incremental_pfi self, pfi_plotter self with
  | Some ipfi, Some plotter =>
      let '(inc_fi_pfi, ipfi) := explain_one ipfi (base self) x y in
      let plotter := plotter_update plotter inc_fi_pfi in
      let values := importance_values ipfi in
      Ok {| base := base self;
            incremental_pfi := Some ipfi;
            pfi_plotter := Some plotter;
            importance_threshold := importance_threshold self;
            feature_names := feature_names self;
            important_features :=
              if existsb (λ kv, meets_threshold self kv.2) values
              then Some (filter (λ kv, meets_threshold self kv.2 = true) values).*1
              else feature_names self;
            last_important_features := last_important_features self;
            pruner := pruner self;
            seed := seed self;
            prune_tree_calls := prune_tree_calls self |}
  | _, _ => Raise AttributeError
  end.

(** [set(self.important_features)]. *)
Definition important_set (self : HoeffdingPruningTree) : result (gset string) :=
  match important_features self with
  | None => Raise TypeError
  | Some fs => Ok (list_to_set fs)
  end.

(** Assignments to single attributes of [self]. *)
Definition set_feature_names (v : option (list string)) (self : HoeffdingPruningTree)
  : HoeffdingPruningTree :=
  {| base := base self;
     incremental_pfi := incremental_pfi self;
     pfi_plotter := pfi_plotter self;
     importance_threshold := importance_threshold self;
     feature_names := v;
     important_features := important_features self;
     last_important_features := last_important_features self;
     pruner := pruner self;
     seed := seed self;
     prune_tree_calls := prune_tree_calls self |}.

Definition set_important_features (v : option (list string)) (self : HoeffdingPruningTree)
  : HoeffdingPruningTree :=
  {| base := base self;
     incremental_pfi := incremental_pfi self;
     pfi_plotter := pfi_plotter self;
     importance_threshold := importance_threshold self;
     feature_names := feature_names self;
     important_features := v;
     last_important_features := last_important_features self;
     pruner := pruner self;
     seed := seed self;
     prune_tree_calls := prune_tree_calls self |}.

Definition set_last_important_features (v : option (gset string)) (self : HoeffdingPruningTree)
  : HoeffdingPruningTree :=
  {| base := base self;
     incremental_pfi := incremental_pfi self;
     pfi_plotter := pfi_plotter self;
     importance_threshold := importance_threshold self;
     feature_names := feature_names self;
     important_features := important_features self;
     last_important_features := v;
     pruner := pruner self;
     seed := seed self;
     prune_tree_calls := prune_tree_calls self |}.

(** The ghost step that goes with a call of [self.pruner.prune_tree()]. *)
Definition count_prune_tree_call (self : HoeffdingPruningTree) : HoeffdingPruningTree :=
  {| base := base self;
     incremental_pfi := incremental_pfi self;
     pfi_plotter := pfi_plotter self;
     importance_threshold := importance_threshold self;
     feature_names := feature_names self;
     important_features := important_features self;
     last_important_features := last_important_features self;
     pruner := pruner self;
     seed := seed self;
     prune_tree_calls := S (prune_tree_calls self) |}.

(** [learn_one(x, y, sample_weight)]. *)
Definition learn_one (fuel : nat) (x : list (string * Value)) (y : Label) (sample_weight : Q)
    (self : HoeffdingPruningTree) : result HoeffdingPruningTree :=
  self ← (if decide (incremental_pfi self = None :> option IPFI) then
            let self := set_feature_names (Some x.*1) self in
            let self := set_important_features (feature_names self) self in
            let self := set_last_important_features
                          (list_to_set <$> feature_names self) self in
            _create_ipfi self
          else Ok self);
  self ← _update_ipfi x y self;
  s ← important_set self;
  self ← (if decide (last_important_features self ≠ Some s) then
            self ← pruner_prune_tree fuel (count_prune_tree_call self);
            _update_leaf_counts fuel self
          else Ok self);
  s ← important_set self;
  let self := set_last_important_features (Some s) self in
  Ok (with_base (super_learn_one x y 1%Q (base self)) self).

End controller.

(** ** numpy *)

(** [np.random.RandomState]. A generator made from a seed is a function of
    the seed; one made with [seed=None] is made from entropy that the
    operating system supplies. [rng_random] is [.random()], a float in
    [[0, 1)]; [rng_randint high] is [.randint(high)], an integer in
    [[0, high)], which raises for [high <= 0]. *)
Class NumpyRandom := {
  RandomState : Type;
  Entropy : Type;
  RandomState_seeded : Z → RandomState;
  RandomState_unseeded : Entropy → RandomState;
  rng_random : RandomState → Q * RandomState;
  rng_randint : Z → RandomState → result (Z * RandomState);
}.

(** [np.random.RandomState(seed)]. *)
Definition RandomState_new `{NumpyRandom} (seed : option Z) (entropy : Entropy) : RandomState :=
  match seed with
  | Some s => RandomState_seeded s
  | None => RandomState_unseeded entropy
  end.

(** What numpy documents of [randint(high)]. *)
Definition randint_in_range `{NumpyRandom} : Prop :=
  ∀ (high : Z) (g : RandomState), (0 < high)%Z →
    ∃ i g', rng_randint high g = Ok (i, g') ∧ (0 ≤ i < high)%Z.



(** The arithmetic on [np.float64] that Algorithm L uses. [of_float] and
    [of_int] are the conversions that Python applies to a float and to an
    int operand. *)
Class NumpyFloat := {
  float64 : Type;
  of_float : Q → float64;
  of_int : Z → float64;
  np_log : float64 → float64;
  np_exp : float64 → float64;
  np_floor : float64 → float64;
  f_add : float64 → float64 → float64;
  f_sub : float64 → float64 → float64;
  f_mul : float64 → float64 → float64;
  f_div : float64 → float64 → float64;
  f_eqb : float64 → float64 → bool;
}.

(** [l[i] = v] for an integer index; a negative index counts from the end. *)
Definition py_setitem_int {A} (l : list A) (i : Z) (v : A) : result (list A) :=
  let n := Z.of_nat (length l) in
  if decide (0 ≤ i < n)%Z then Ok (<[Z.to_nat i := v]> l)
  else if decide (- n ≤ i < 0)%Z then Ok (<[Z.to_nat (n + i) := v]> l)
  else Raise IndexError.

(** An include/evict decision of a reservoir: the item was appended, it
    replaced the item of a slot, or it was dropped. *)
Inductive decision :=
| Appended
| Replaced (slot : Z)
| Dropped.

(** ** reproducible_ipfi/reservoir.py *)

Module GeometricReservoirStorage.
Section geometric.
Context `{NumpyRandom} {A B : Type}.

(** The fields of ixai's [ReservoirStorage] ([size], [store_targets] and the
    two lists, empty at construction) and those the class adds. [decisions]
    is a ghost field: the log of the decisions of [update]. *)
Record t := {
  size : Z;
  store_targets : bool;
  _storage_x : list A;
  _storage_y : list (option B);
  constant_probability : Q;
  rng : RandomState;
  decisions : list decision;
}.

(** [__init__(size, constant_probability, store_targets, seed)]. *)
Definition __init__ (size : Z) (constant_probability : option Q) (store_targets : bool)
    (seed : option Z) (entropy : Entropy) : result t :=
  p ← match constant_probability with
      | Some p => Ok p
      | None => if decide (size = 0%Z) then Raise ZeroDivisionError
                else Ok (1 / inject_Z size)%Q
      end;
  Ok {| size := size;
        store_targets := store_targets;
        _storage_x := [];
        _storage_y := [];
        constant_probability := p;
        rng := RandomState_new seed entropy;
        decisions := [] |}.

(** [update(x, y)]. *)
Definition update (x : A) (y : option B) (self : t) : result t :=
  if decide (Z.of_nat (length (_storage_x self)) < size self)%Z then
    Ok {| size := size self;
          store_targets := store_targets self;
          _storage_x := _storage_x self ++ [x];
          _storage_y := if store_targets self then _storage_y self ++ [y]
                        else _storage_y self;
          constant_probability := constant_probability self;
          rng := rng self;
          decisions := decisions self ++ [Appended] |}
  else
    let '(random_float, g) := rng_random (rng self) in
    if Qle_bool random_float (constant_probability self) then
      '(rand_idx, g) ← rng_randint (size self) g;
      storage_x ← py_setitem_int (_storage_x self) rand_idx x;
      storage_y ← (if store_targets self then py_setitem_int (_storage_y self) rand_idx y
                   else Ok (_storage_y self));
      Ok {| size := size self;
            store_targets := store_targets self;
            _storage_x := storage_x;
            _storage_y := storage_y;
            constant_probability := constant_probability self;
            rng := g;
            decisions := decisions self ++ [Replaced rand_idx] |}
    else
      Ok {| size := size self;
            store_targets := store_targets self;
            _storage_x := _storage_x self;
            _storage_y := _storage_y self;
            constant_probability := constant_probability self;
            rng := g;
            decisions := decisions self ++ [Dropped] |}.

(** A sequence of [update] calls. *)
Fixpoint updates (items : list (A * option B)) (self : t) : result t :=
  match items with
  | [] => Ok self
  | (x, y) :: items => self ← update x y self; updates items self
  end.

(** The states that [__init__] and [update] produce: at most [size] items,
    and as many targets as items when targets are stored. *)
Definition well_formed (self : t) : Prop :=
  (Z.of_nat (length (_storage_x self)) ≤ size self)%Z ∧
  (store_targets self = true → length (_storage_y self) = length (_storage_x self)).

(** Two reservoirs with the same parameters, the same stored items and
    targets and the same log of decisions, whose generators give the same
    draws. *)
Definition alike (R : RandomState → RandomState → Prop) (a b : t) : Prop :=
  size a = size b ∧
  store_targets a = store_targets b ∧
  _storage_x a = _storage_x b ∧
  _storage_y a = _storage_y b ∧
  constant_probability a = constant_probability b ∧
  decisions a = decisions b ∧
  R (rng a) (rng b).

End geometric.
Arguments t {_} _ _.
End GeometricReservoirStorage.

Module UniformReservoirStorage.
Section uniform.
Context `{NumpyRandom} `{NumpyFloat} {A B : Type}.

Record t := {
  size : Z;
  store_targets : bool;
  _storage_x : list A;
  _storage_y : list (option B);
  rng : RandomState;
  stored_samples : Z;
  _algo_wt : float64;
  _algo_l_counter : float64;
  decisions : list decision;
}.

(** [np.exp(np.log(self.rng.random()) / self.size)], with the generator
    after the draw. *)
Definition draw_weight (size : Z) (g : RandomState) : float64 * RandomState :=
  let '(r, g) := rng_random g in
  (np_exp (f_div (np_log (of_float r)) (of_int size)), g).

(** [np.floor(np.log(self.rng.random()) / np.log(1 - self._algo_wt)) + 1],
    with the generator after the draw. *)
Definition draw_skip (algo_wt : float64) (g : RandomState) : float64 * RandomState :=
  let '(r, g) := rng_random g in
  (f_add (np_floor (f_div (np_log (of_float r)) (np_log (f_sub (of_int 1) algo_wt))))
         (of_int 1), g).

(** [__init__(size, store_targets, seed)]. *)
Definition __init__ (size : Z) (store_targets : bool) (seed : option Z) (entropy : Entropy)
  : t :=
  let g := RandomState_new seed entropy in
  let '(algo_wt, g) := draw_weight size g in
  let '(skip, g) := draw_skip algo_wt g in
  {| size := size;
     store_targets := store_targets;
     _storage_x := [];
     _storage_y := [];
     rng := g;
     stored_samples := 0;
     _algo_wt := algo_wt;
     _algo_l_counter := f_add (of_int size) skip;
     decisions := [] |}.

(** [update(x, y)]. *)
Definition update (x : A) (y : option B) (self : t) : result t :=
  let stored_samples := (stored_samples self + 1)%Z in
  if decide (stored_samples ≤ size self)%Z then
    Ok {| size := size self;
          store_targets := store_targets self;
          _storage_x := _storage_x self ++ [x];
          _storage_y := if store_targets self then _storage_y self ++ [y]
                        else _storage_y self;
          rng := rng self;
          stored_samples := stored_samples;
          _algo_wt := _algo_wt self;
          _algo_l_counter := _algo_l_counter self;
          decisions := decisions self ++ [Appended] |}
  else if f_eqb (_algo_l_counter self) (of_int stored_samples) then
    let '(skip, g) := draw_skip (_algo_wt self) (rng self) in
    let algo_l_counter := f_add (_algo_l_counter self) skip in
    '(rand_idx, g) ← rng_randint (size self) g;
    storage_x ← py_setitem_int (_storage_x self) rand_idx x;
    storage_y ← (if store_targets self then py_setitem_int (_storage_y self) rand_idx y
                 else Ok (_storage_y self));
    let '(w, g) := draw_weight (size self) g in
    Ok {| size := size self;
          store_targets := store_targets self;
          _storage_x := storage_x;
          _storage_y := storage_y;
          rng := g;
          stored_samples := stored_samples;
          _algo_wt := f_mul (_algo_wt self) w;
          _algo_l_counter := algo_l_counter;
          decisions := decisions self ++ [Replaced rand_idx] |}
  else
    Ok {| size := size self;
          store_targets := store_targets self;
          _storage_x := _storage_x self;
          _storage_y := _storage_y self;
          rng := rng self;
          stored_samples := stored_samples;
          _algo_wt := _algo_wt self;
          _algo_l_counter := _algo_l_counter self;
          decisions := decisions self ++ [Dropped] |}.

(** A sequence of [update] calls. *)
Fixpoint updates (items : list (A * option B)) (self : t) : result t :=
  match items with
  | [] => Ok self
  | (x, y) :: items => self ← update x y self; updates items self
  end.

(** The states that [__init__] and [update] produce: the number of items
    is the smaller of [size] and the number of samples seen, and there are
    as many targets as items when targets are stored. *)
Definition well_formed (self : t) : Prop :=
  (0 ≤ stored_samples self)%Z ∧
  Z.of_nat (length (_storage_x self)) = Z.min (size self) (stored_samples self) ∧
  (store_targets self = true → length (_storage_y self) = length (_storage_x self)).

(** Two reservoirs with the same parameters, the same stored items and
    targets, the same count, weight and counter and the same log of
    decisions, whose generators give the same draws. *)
Definition alike (R : RandomState → RandomState → Prop) (a b : t) : Prop :=
  size a = size b ∧
  store_targets a = store_targets b ∧
  _storage_x a = _storage_x b ∧
  _storage_y a = _storage_y b ∧
  stored_samples a = stored_samples b ∧
  _algo_wt a = _algo_wt b ∧
  _algo_l_counter a = _algo_l_counter b ∧
  decisions a = decisions b ∧
  R (rng a) (rng b).

End uniform.
Arguments t {_ _} _ _.
End UniformReservoirStorage.

(** ** Trees in the store *)

(** The object graph of a river tree is a tree: no node has two parents. A
    located tree records the shape of such a graph together with the
    location of every node. *)
Section located_trees.
Context `{RiverNodes}.

Inductive ltree :=
| LLeaf (l : loc) (stats : Stats) (depth : nat) (active : bool)
| LBranch (l : loc) (stats : Stats) (feature : string) (depth : nat) (children : list ltree).

Definition lloc (t : ltree) : loc :=
  match t with LLeaf l _ _ _ => l | LBranch l _ _ _ _ => l end.

(** The object at the root of a located tree. *)
Definition shallow (t : ltree) : node :=
  match t with
  | LLeaf _ s d a => HTLeaf s d a
  | LBranch _ s f d ch => DTBranch s f d (lloc <$> ch)
  end.

(** All objects of a located tree, the root first. *)
Fixpoint cells (t : ltree) : list (loc * node) :=
  (lloc t, shallow t) ::
  match t with
  | LLeaf _ _ _ _ => []
  | LBranch _ _ _ _ ch => concat (map cells ch)
  end.

Definition locs (t : ltree) : list loc := (cells t).*1.

(** The store holds the tree [t]: every object of [t] is at its location. *)
Definition embeds (h : heap) (t : ltree) : Prop :=
  Forall (λ c, h !! c.1 = Some c.2) (cells t).

(** A located tree is well formed when no location occurs twice. *)
Definition separated (t : ltree) : Prop := NoDup (locs t).

Fixpoint height (t : ltree) : nat :=
  match t with
  | LLeaf _ _ _ _ => 1
  | LBranch _ _ _ _ ch => S (max_list (map height ch))
  end.

Definition is_LBranch (t : ltree) : bool :=
  match t with LLeaf _ _ _ _ => false | LBranch _ _ _ _ _ => true end.

(** The leaves of a tree in enumeration order, and the split features and
    the numbers of children of its branches. *)
Fixpoint leaves (t : ltree) : list ltree :=
  match t with
  | LLeaf _ _ _ _ => [t]
  | LBranch _ _ _ _ ch => concat (map leaves ch)
  end.

Fixpoint branch_features (t : ltree) : list string :=
  match t with
  | LLeaf _ _ _ _ => []
  | LBranch _ _ f _ ch => f :: concat (map branch_features ch)
  end.

Fixpoint branch_arities (t : ltree) : list nat :=
  match t with
  | LLeaf _ _ _ _ => []
  | LBranch _ _ _ _ ch => length ch :: concat (map branch_arities ch)
  end.

(** Every branch has at least one child. *)
Definition branching (t : ltree) : Prop := Forall (λ n, 0 < n) (branch_arities t).

(** Every branch splits on a feature of [important]. *)
Definition all_important (important : list string) (t : ltree) : Prop :=
  Forall (λ f, f ∈ important) (branch_features t).

(** *** The selective pruner in the words of the specification *)

Definition promise (leaf : ltree) : number :=
  match leaf with
  | LLeaf _ s _ _ => calculate_promise s
  | LBranch _ _ _ _ _ => num_zero
  end.

(** Average promise: of a leaf, its own promise; of a branch, the
    unweighted mean of the promise over the leaves of its subtree: their
    sum, in the order of enumeration, divided by their number, in Python's
    arithmetic. *)
Definition average_promise (t : ltree) : number :=
  match t with
  | LLeaf _ s _ _ => calculate_promise s
  | LBranch _ _ _ _ _ =>
      num_div_len (py_sum (promise <$> leaves t)) (length (leaves t))
  end.

(** [c] is the child of highest average promise, the first one on a tie:
    no child has an average promise above that of [c], and every child
    before [c] has one below it. *)
Definition first_best (children : list ltree) (c : ltree) : Prop :=
  ∃ i, children !! i = Some c ∧
       (∀ j c', children !! j = Some c' →
                num_lt (average_promise c) (average_promise c') = false) ∧
       (∀ j c', j < i → children !! j = Some c' →
                num_lt (average_promise c') (average_promise c) = true).

(** Postorder pruning: the children first; then a branch on an unimportant
    feature gives way to the best of its pruned children, and a branch on
    an important feature stays, with the pruned children as its children. *)
Inductive selective_pruned (important : list string) : ltree → ltree → Prop :=
| selective_leaf l s d a :
    selective_pruned important (LLeaf l s d a) (LLeaf l s d a)
| selective_keep l s f d ch ch' :
    f ∈ important →
    Forall2 (selective_pruned important) ch ch' →
    selective_pruned important (LBranch l s f d ch) (LBranch l s f d ch')
| selective_replace l s f d ch ch' c :
    f ∉ important →
    Forall2 (selective_pruned important) ch ch' →
    first_best ch' c →
    selective_pruned important (LBranch l s f d ch) c.

(** *** The complete pruner in the words of the specification *)

(** Preorder pruning: a branch on an unimportant feature becomes a new leaf
    that holds the statistics of the branch; a branch on an important
    feature stays and its children are pruned. *)
Inductive complete_pruned (important : list string) : ltree → ltree → Prop :=
| complete_leaf l s d a :
    complete_pruned important (LLeaf l s d a) (LLeaf l s d a)
| complete_keep l s f d ch ch' :
    f ∈ important →
    Forall2 (complete_pruned important) ch ch' →
    complete_pruned important (LBranch l s f d ch) (LBranch l s f d ch')
| complete_replace l s f d ch l' d' :
    f ∉ important →
    complete_pruned important (LBranch l s f d ch) (LLeaf l' s d' true).

(** *** What a pruner may do to the store *)

(** The selective pruner, run on the tree [t] held by [h], leaves a store
    [h'] that holds the result [t']: it allocates nothing, [t'] is made of
    objects of [t], and the objects outside [t] are untouched. *)
Definition selective_post (h : heap) (t : ltree) (h' : heap) (t' : ltree) : Prop :=
  embeds h' t' ∧ separated t' ∧ branching t' ∧ height t' ≤ height t ∧
  locs t' ⊆ locs t ∧ length h' = length h ∧
  (∀ l, l ∉ locs t → h' !! l = h !! l).

(** The complete pruner, run on the tree [t] held by [h], leaves a store
    [h'] that holds the result [t']: [h'] extends [h], [t'] is made of
    objects of [t] and of new objects, and the old objects outside [t],
    apart from the parent, are untouched. *)
Definition complete_post (h : heap) (parent : loc) (t : ltree) (h' : heap) (t' : ltree)
  : Prop :=
  embeds h' t' ∧ separated t' ∧ height t' ≤ height t ∧
  length h ≤ length h' ∧
  (∀ l, l ∈ locs t' → l ∈ locs t ∨ length h ≤ l) ∧
  (∀ l, l < length h → l ∉ locs t → l ≠ parent → h' !! l = h !! l).

End located_trees.
Arguments ltree : clear implicits.
Arguments ltree {_}.

Section tree_shape.
Context `{Libraries}.

(** The tree object holds the located tree [t]: its root is the root of
    [t], and its store holds [t] with no location twice. *)
Definition holds_tree (tree : HoeffdingPruningTree) (t : ltree) : Prop :=
  root tree = Some (lloc t) ∧ embeds (store tree) t ∧ separated t.

(** The tree object is ready for an observation: it holds a located tree
    that fits the recursion budget and whose branches have children when
    the pruner is the selective one, and it either has not seen an
    observation yet or has its explainer, its plotter and its feature
    names. *)
Definition ready (fuel : nat) (self : HoeffdingPruningTree) (t : ltree) : Prop :=
  holds_tree self t ∧
  height t ≤ fuel ∧
  (pruner self = Selective → branching t) ∧
  (incremental_pfi self = None ∨
   ∃ ipfi plotter names,
     incremental_pfi self = Some ipfi ∧
     pfi_plotter self = Some plotter ∧
     feature_names self = Some names).

End tree_shape.

(** ** Stand-ins for the libraries, for examples *)

Module Examples.

(** The rationals with their exact arithmetic as Python numbers. *)
Definition numbers_Q : PyNumbers.
Proof.
  refine {| number := Q;
            num_zero := 0%Q;
            num_add := Qplus;
            num_div_len := λ a n, (a / inject_Z (Z.of_nat n))%Q;
            num_lt := Qlt_bool;
            num_eqb := Qeq_bool |}.
  - abstract (
      intros a b; unfold Qlt_bool; rewrite negb_true_iff, negb_false_iff;
      intros Hba; apply Qle_bool_iff; apply Qlt_le_weak, Qnot_le_lt;
      intros Hle%Qle_bool_iff; congruence).
  - abstract (
      intros a b c; unfold Qlt_bool; rewrite !negb_true_iff; intros Hca;
      destruct (Qle_bool b a) eqn:Hba; [|by left]; right;
      destruct (Qle_bool c b) eqn:Hcb; [|done];
      apply Qle_bool_iff in Hba, Hcb;
      assert (Hle : Qle_bool c a = true)
        by (apply Qle_bool_iff; by apply Qle_trans with b);
      congruence).
  - abstract (
      intros a b; unfold Qlt_bool;
      rewrite !negb_false_iff, Qeq_bool_iff, !Qle_bool_iff;
      split; [intros Heq; rewrite Heq; split; apply Qle_refl
             |intros [Hba Hab]; by apply Qle_antisym]).
Defined.

(** Statistics are a single number, and the promise of a leaf is that
    number. *)
Definition nodes_Q : RiverNodes :=
  {| Stats := Q; empty_stats := 0%Q; promise_numbers := numbers_Q;
     calculate_promise := λ s, s |}.
#[local] Existing Instance nodes_Q.

(** river's update adds the sample weight to a total; the explainer takes
    the values of an observation for the importance of its features. *)
Definition libraries_Q : @Libraries nodes_Q :=
  {| Internals := Q;
     Value := Q;
     Label := bool;
     super_learn_one := λ _ _ w b,
       {| nodes := nodes b; _root := _root b;
          _n_active_leaves := _n_active_leaves b;
          _n_inactive_leaves := _n_inactive_leaves b;
          internals := (internals b + w)%Q |};
     IPFI := list (string * Q);
     IPFI_new := λ names _, (λ n, (n, 0%Q)) <$> names;
     explain_one := λ _ _ x _, (x, x);
     importance_values := λ i, i;
     FeatureImportancePlotter := list (list (string * Q));
     FeatureImportancePlotter_new := λ _, [];
     plotter_update := λ p v, p ++ [v] |}.
#[local] Existing Instance libraries_Q.

(** A linear congruential generator modulo 16. *)
Definition lcg_next (s : Z) : Z := ((5 * s + 3) mod 16)%Z.

Definition lcg : NumpyRandom :=
  {| RandomState := Z;
     Entropy := Z;
     RandomState_seeded := λ s, (s mod 16)%Z;
     RandomState_unseeded := λ e, (e mod 16)%Z;
     rng_random := λ s, (inject_Z (lcg_next s) / 16, lcg_next s)%Q;
     rng_randint := λ high s,
       if decide (0 < high)%Z then Ok ((lcg_next s mod high)%Z, lcg_next s)
       else Raise (ValueError "high <= 0") |}.
#[local] Existing Instance lcg.

(** Rational arithmetic in the place of [np.float64]; [np_log] and [np_exp]
    are stand-ins. *)
Definition float_Q : NumpyFloat :=
  {| float64 := Q;
     of_float := λ q, q;
     of_int := inject_Z;
     np_log := λ x, (x - 1)%Q;
     np_exp := λ x, (1 / (1 - x))%Q;
     np_floor := λ x, inject_Z (Qfloor x);
     f_add := Qplus;
     f_sub := Qminus;
     f_mul := Qmult;
     f_div := Qdiv;
     f_eqb := Qeq_bool |}.

(** The tree of the specification's scenario: the root [0] splits on "A";
    its left child [1] splits on "B" and has the leaves [2] and [3] with
    promise 0.2 and 0.7; its right child [4] is a leaf. *)
Definition scenario_store : list (@node nodes_Q) :=
  [ DTBranch 10%Q "A" 0 [1; 4];
    DTBranch 5%Q "B" 1 [2; 3];
    HTLeaf (2 # 10) 2 true;
    HTLeaf (7 # 10) 2 false;
    HTLeaf (1 # 10) 1 true ].

(** The store after the complete pruner has replaced the branch on "B". *)
Definition scenario_store_complete : list (@node nodes_Q) :=
  [ DTBranch 10%Q "A" 0 [5; 4];
    DTBranch 5%Q "B" 1 [2; 3];
    HTLeaf (2 # 10) 2 true;
    HTLeaf (7 # 10) 2 false;
    HTLeaf (1 # 10) 1 true;
    HTLeaf 5%Q 1 true ].

Definition scenario_ltree : @ltree nodes_Q :=
  LBranch 0 10%Q "A" 0
    [ LBranch 1 5%Q "B" 1 [LLeaf 2 (2 # 10) 2 true; LLeaf 3 (7 # 10) 2 false];
      LLeaf 4 (1 # 10) 1 true ].

Definition scenario_tree (p : pruner_object) (important : list string)
  : @HoeffdingPruningTree nodes_Q libraries_Q :=
  {| base := {| nodes := scenario_store; _root := Some 0;
                _n_active_leaves := 2; _n_inactive_leaves := 1;
                internals := 0%Q |};
     incremental_pfi := Some [("A", 1%Q); ("B", 1%Q)];
     pfi_plotter := Some [];
     importance_threshold := (5 # 100)%Q;
     feature_names := Some ["A"; "B"];
     important_features := Some important;
     last_important_features := Some (list_to_set ["A"; "B"]);
     pruner := p;
     seed := Some 42%Z;
     prune_tree_calls := 0 |}.

(** A geometric reservoir of capacity 2 with the default probability,
    made with seed 1, after the items 1 and 2; the items are numbers. *)
Definition geometric_full : @GeometricReservoirStorage.t lcg nat nat :=
  {| GeometricReservoirStorage.size := 2;
     GeometricReservoirStorage.store_targets := false;
     GeometricReservoirStorage._storage_x := [1; 2];
     GeometricReservoirStorage._storage_y := [];
     GeometricReservoirStorage.constant_probability := (1 / inject_Z 2)%Q;
     GeometricReservoirStorage.rng := 1%Z;
     GeometricReservoirStorage.decisions := [Appended; Appended] |}.





(** The same reservoir after the third item. *)
Definition geometric_third : @GeometricReservoirStorage.t lcg nat nat :=
  {| GeometricReservoirStorage.size := 2;
     GeometricReservoirStorage.store_targets := false;
     GeometricReservoirStorage._storage_x := [1; 3];
     GeometricReservoirStorage._storage_y := [];
     GeometricReservoirStorage.constant_probability := (1 / inject_Z 2)%Q;
     GeometricReservoirStorage.rng := 11%Z;
     GeometricReservoirStorage.decisions := [Appended; Appended; Replaced 1] |}.

(** Two observations: in the first one both features matter, in the
    second one only "A" does. *)
Definition observation_1 : list (string * Q) := [("A", 1%Q); ("B", 1%Q)].
Definition observation_2 : list (string * Q) := [("A", 1%Q); ("B", 0%Q)].

Definition unwrap {T} (r : result T) (d : T) : T :=
  match r with Ok a => a | Raise _ => d end.

(** The scenario tree with a complete pruner after the first, and after
    the second, observation. *)
Definition observed_once : HoeffdingPruningTree :=
  Eval vm_compute in
    unwrap (learn_one 5 observation_1 true 3%Q (scenario_tree Complete ["A"; "B"]))
           (scenario_tree Complete ["A"; "B"]).

Definition observed_twice : HoeffdingPruningTree :=
  Eval vm_compute in unwrap (learn_one 5 observation_2 true 3%Q observed_once) observed_once.

End Examples.

(** ** What a pruner leaves of a store *)

Section store_relations.
Context `{RiverNodes}.

(** [n'] is the object [n] up to the identity of the children of a branch:
    a leaf is the same leaf; a branch has the same statistics, feature and
    depth and as many children. *)
Definition same_shape (n n' : node) : Prop :=
  match n, n' with
  | HTLeaf s d a, HTLeaf s' d' a' => s = s' ∧ d = d' ∧ a = a'
  | DTBranch s f d ch, DTBranch s' f' d' ch' =>
      s = s' ∧ f = f' ∧ d = d' ∧ length ch = length ch'
  | _, _ => False
  end.

(** Every object of [h] is in [h'], at its location and with its shape. *)
Definition store_kept (h h' : heap) : Prop :=
  length h ≤ length h' ∧
  ∀ l n, h !! l = Some n → ∃ n', h' !! l = Some n' ∧ same_shape n n'.

(** [leaf.is_active()] on a located leaf. *)
Definition leaf_active (leaf : ltree) : bool :=
  match leaf with LLeaf _ _ _ a => a | LBranch _ _ _ _ _ => false end.

End store_relations.

(** ** numpy, continued *)

(** What numpy documents of [randint(high)] for [high <= 0], and of
    [random()]. *)
Definition randint_rejects `{NumpyRandom} : Prop :=
  ∀ (high : Z) (g : RandomState), (high ≤ 0)%Z →
    ∃ msg, rng_randint high g = Raise (ValueError msg).

Definition random_in_unit_interval `{NumpyRandom} : Prop :=
  ∀ g : RandomState, (0 <= (rng_random g).1)%Q ∧ ((rng_random g).1 < 1)%Q.

(** ** What a reservoir holds *)

(** The lists [storage_x] and [storage_y] of a reservoir hold items of
    [seen] only: every stored item is an item of [seen]; with
    [store_targets] there are as many targets as items and every stored
    item is paired with the target it came with; without, no target is
    stored. *)
Definition stored_from {A B} (seen : list (A * option B)) (store_targets : bool)
    (storage_x : list A) (storage_y : list (option B)) : Prop :=
  Forall (λ x, x ∈ seen.*1) storage_x ∧
  if store_targets
  then length storage_y = length storage_x ∧
       Forall (λ xy, xy ∈ seen) (zip storage_x storage_y)
  else storage_y = [].

(** ** Python dicts and lists, continued *)

(** A dict with string keys, in insertion order. *)
Section pydict.
Context {V : Type}.

(** [d.get(k)]. *)
Fixpoint dict_get (d : list (string * V)) (k : string) : option V :=
  match d with
  | [] => None
  | (k', v) :: d => if decide (k' = k) then Some v else dict_get d k
  end.

(** [d[k]]. *)
Definition dict_getitem (d : list (string * V)) (k : string) : result V :=
  match dict_get d k with Some v => Ok v | None => Raise (KeyError k) end.

(** [d[k] = v]: a key that is present keeps its position. *)
Fixpoint dict_setitem (d : list (string * V)) (k : string) (v : V) : list (string * V) :=
  match d with
  | [] => [(k, v)]
  | (k', v') :: d =>
      if decide (k' = k) then (k', v) :: d else (k', v') :: dict_setitem d k v
  end.

(** [{**d1, **d2}]. *)
Definition dict_merge (d1 d2 : list (string * V)) : list (string * V) :=
  fold_left (λ d kv, dict_setitem d kv.1 kv.2) d2 d1.

End pydict.

(** [l[i]] for an integer index; a negative index counts from the end. *)
Definition py_getitem_int {A} (l : list A) (i : Z) : result A :=
  let n := Z.of_nat (length l) in
  if decide (0 ≤ i < n)%Z then py_getitem l (Z.to_nat i)
  else if decide (- n ≤ i < 0)%Z then py_getitem l (Z.to_nat (n + i))
  else Raise IndexError.

(** ** ixai: [BaseStorage.get_data()] *)

(** The storage classes inherit [get_data()], which returns the two lists
    of the storage. *)
Class BaseStorage (S X Y : Type) := get_data : S → list X * list (option Y).

#[global] Instance GeometricReservoirStorage_get_data `{NumpyRandom} {A B : Type}
  : BaseStorage (GeometricReservoirStorage.t A B) A B :=
  λ self, (GeometricReservoirStorage._storage_x self,
           GeometricReservoirStorage._storage_y self).

#[global] Instance UniformReservoirStorage_get_data `{NumpyRandom} `{NumpyFloat} {A B : Type}
  : BaseStorage (UniformReservoirStorage.t A B) A B :=
  λ self, (UniformReservoirStorage._storage_x self,
           UniformReservoirStorage._storage_y self).

(** ** reproducible_ipfi/marginal_imputer.py *)

Module MarginalImputer.
Section imputer.
Context `{NumpyRandom} {V P : Type}.

(** An instance is a dict from feature names to values; the model function
    maps an instance to a prediction. The imputer holds a reference to the
    storage object, which the explainer updates: the functions below take
    the storage object as it is at the time of the call. *)
Record t := {
  model_function : list (string * V) → P;
  sampling_strategy : string;
  rng : RandomState;
}.

(** [__init__(model_function, sampling_strategy, storage_object, seed)]. *)
Definition __init__ (model_function : list (string * V) → P) (sampling_strategy : string)
    (seed : option Z) (entropy : Entropy) : t :=
  {| model_function := model_function;
     sampling_strategy := sampling_strategy;
     rng := RandomState_new seed entropy |}.

Definition with_rng (g : RandomState) (self : t) : t :=
  {| model_function := model_function self;
     sampling_strategy := sampling_strategy self;
     rng := g |}.

(** [{feature_name: sampled_instance[feature_name] for feature_name in
    feature_subset}], the dict built so far in [sampled_features]. *)
Fixpoint comprehension (sampled_instance : list (string * V)) (feature_subset : list string)
    (sampled_features : list (string * V)) : result (list (string * V)) :=
  match feature_subset with
  | [] => Ok sampled_features
  | feature_name :: feature_subset =>
      v ← dict_getitem sampled_instance feature_name;
      comprehension sampled_instance feature_subset
        (dict_setitem sampled_features feature_name v)
  end.

(** [_sample_marginals(features, feature_subset)]. *)
Definition _sample_marginals (features : list (list (string * V)))
    (feature_subset : list string) (self : t) : result (list (string * V) * t) :=
  '(rand_idx, g) ← rng_randint (Z.of_nat (length features)) (rng self);
  sampled_instance ← py_getitem_int features rand_idx;
  sampled_features ← comprehension sampled_instance feature_subset [];
  Ok (sampled_features, with_rng g self).

(** The loop of [_sample_product_marginals]. *)
Fixpoint product_loop (features : list (list (string * V))) (feature_subset : list string)
    (sampled_features : list (string * V)) (g : RandomState)
  : result (list (string * V) * RandomState) :=
  match feature_subset with
  | [] => Ok (sampled_features, g)
  | feature_name :: feature_subset =>
      '(rand_idx, g) ← rng_randint (Z.of_nat (length features)) g;
      sampled_instance ← py_getitem_int features rand_idx;
      v ← dict_getitem sampled_instance feature_name;
      product_loop features feature_subset (dict_setitem sampled_features feature_name v) g
  end.

(** [_sample_product_marginals(features, feature_subset)]. *)
Definition _sample_product_marginals (features : list (list (string * V)))
    (feature_subset : list string) (self : t) : result (list (string * V) * t) :=
  '(sampled_features, g) ← product_loop features feature_subset [] (rng self);
  Ok (sampled_features, with_rng g self).

(** [_sample(storage_object, feature_subset)]. *)
Definition _sample {S Y} `{BaseStorage S (list (string * V)) Y} (storage_object : S)
    (feature_subset : list string) (self : t) : result (list (string * V) * t) :=
  let '(features, _) := get_data storage_object in
  if decide (sampling_strategy self = "joint")
  then _sample_marginals features feature_subset self
  else _sample_product_marginals features feature_subset self.

(** [impute(feature_subset, x_i, n_samples)]; [storage_object] is the
    object that [self.storage_object] refers to. *)
Definition impute {S Y} `{BaseStorage S (list (string * V)) Y} (storage_object : S)
    (feature_subset : list string) (x_i : list (string * V)) (n_samples : Z) (self : t)
  : result (list P * t) :=
  for_range (λ _ '(predictions, self),
      '(sampled_values, self) ← _sample storage_object feature_subset self;
      let prediction := model_function self (dict_merge x_i sampled_values) in
      Ok (predictions ++ [prediction], self))
    0 (Z.to_nat n_samples) ([], self).

End imputer.
Arguments t {_} _ _.
End MarginalImputer.

(** *** What imputing means *)

(** The instance [d] is the instance [x] with the features of
    [feature_subset] taken from the stored instances [features]: outside
    [feature_subset] it is [x]; on [feature_subset] it has the values of
    one stored instance (joint sampling), or for each feature the value of
    some stored instance (sampling feature by feature). *)
Definition imputed {V} (features : list (list (string * V))) (joint : bool)
    (feature_subset : list string) (x d : list (string * V)) : Prop :=
  (∀ k, k ∉ feature_subset → dict_get d k = dict_get x k) ∧
  if joint
  then ∃ instance, instance ∈ features ∧
         ∀ k, k ∈ feature_subset →
              is_Some (dict_get instance k) ∧ dict_get d k = dict_get instance k
  else ∀ k, k ∈ feature_subset →
         ∃ instance, instance ∈ features ∧
           is_Some (dict_get instance k) ∧ dict_get d k = dict_get instance k.

(** ** data/utils.py *)

(** [int(q)] for a float: truncation towards zero. *)
Definition py_int (q : Q) : Z := (Qnum q ÷ Z.pos (Qden q))%Z.

(** [min(a, b)]: the first minimal argument. *)
Definition py_min (a b : Q) : Q := if Qlt_bool b a then b else a.

(** [salary_drift(num_instances, instance_idx, rng)]: the salary, with the
    generator after the draw. The salary is the value of the expression of
    the source in the rationals; Python rounds each operation to a float, so
    what is proved of it below are bounds and orderings that rounding
    keeps. *)
Definition salary_drift `{NumpyRandom} (num_instances instance_idx : Z) (rng : RandomState)
  : result (Q * RandomState) :=
  if decide (num_instances < 40000)%Z then
    Raise (ValueError ("Got " +:+ pretty num_instances
                       +:+ " num_instances for salary_drift, but at least 40000 are needed."))
  else if decide (py_int (inject_Z num_instances / 4) ≤ instance_idx)%Z then
    let inflation_value :=
      py_min (inject_Z (40000 * instance_idx) / inject_Z num_instances - 10000) 20000 in
    let '(r, g) := rng_random rng in
    Ok (inflation_value + 20000 + 130000 * r, g)%Q
  else
    let '(r, g) := rng_random rng in
    Ok (20000 + 130000 * r, g)%Q.

(** ** Further examples *)

Module Scenarios.
#[local] Existing Instance Examples.nodes_Q.
#[local] Existing Instance Examples.libraries_Q.
#[local] Existing Instance Examples.lcg.

(** The scenario tree before its first observation: no explainer, no
    feature names, no important features. *)
Definition fresh_tree (p : pruner_object) : @HoeffdingPruningTree Examples.nodes_Q Examples.libraries_Q :=
  {| base := {| nodes := Examples.scenario_store; _root := Some 0;
                _n_active_leaves := 2; _n_inactive_leaves := 1;
                internals := 0%Q |};
     incremental_pfi := None;
     pfi_plotter := None;
     importance_threshold := (5 # 100)%Q;
     feature_names := None;
     important_features := None;
     last_important_features := None;
     pruner := p;
     seed := Some 42%Z;
     prune_tree_calls := 0 |}.

(** A tree object as [__init__] leaves it: river has not made a root
    yet. *)
Definition rootless_tree (p : pruner_object) : @HoeffdingPruningTree Examples.nodes_Q Examples.libraries_Q :=
  {| base := {| nodes := []; _root := None;
                _n_active_leaves := 0; _n_inactive_leaves := 0;
                internals := 0%Q |};
     incremental_pfi := None;
     pfi_plotter := None;
     importance_threshold := (5 # 100)%Q;
     feature_names := None;
     important_features := None;
     last_important_features := None;
     pruner := p;
     seed := Some 42%Z;
     prune_tree_calls := 0 |}.

(** A uniform reservoir of capacity 2, made with seed 1, after the items
    1 and 2. *)
Definition uniform_full : @UniformReservoirStorage.t Examples.lcg Examples.float_Q nat nat :=
  Eval vm_compute in
    Examples.unwrap
      (UniformReservoirStorage.updates [(1, None); (2, None)]
         (@UniformReservoirStorage.__init__ Examples.lcg Examples.float_Q nat nat
            2 false (Some 1%Z) 0%Z))
      (@UniformReservoirStorage.__init__ Examples.lcg Examples.float_Q nat nat
         2 false (Some 1%Z) 0%Z).

(** Two geometric reservoirs of capacity 2 at capacity: one with a
    negative constant probability, one with a constant probability above
    1. *)
Definition geometric_never : @GeometricReservoirStorage.t Examples.lcg nat nat :=
  {| GeometricReservoirStorage.size := 2;
     GeometricReservoirStorage.store_targets := false;
     GeometricReservoirStorage._storage_x := [1; 2];
     GeometricReservoirStorage._storage_y := [];
     GeometricReservoirStorage.constant_probability := (-1)%Q;
     GeometricReservoirStorage.rng := 1%Z;
     GeometricReservoirStorage.decisions := [Appended; Appended] |}.

Definition geometric_always : @GeometricReservoirStorage.t Examples.lcg nat nat :=
  {| GeometricReservoirStorage.size := 2;
     GeometricReservoirStorage.store_targets := false;
     GeometricReservoirStorage._storage_x := [1; 2];
     GeometricReservoirStorage._storage_y := [];
     GeometricReservoirStorage.constant_probability := 2%Q;
     GeometricReservoirStorage.rng := 1%Z;
     GeometricReservoirStorage.decisions := [Appended; Appended] |}.

(** Three stored instances with the features "age" and "salary". *)
Definition stored_instances : list (list (string * Z)) :=
  [ [("age", 30%Z); ("salary", 100%Z)];
    [("age", 40%Z); ("salary", 200%Z)];
    [("age", 50%Z); ("salary", 300%Z)] ].

(** A geometric reservoir that holds the three instances. *)
Definition instance_reservoir : @GeometricReservoirStorage.t Examples.lcg (list (string * Z)) bool :=
  {| GeometricReservoirStorage.size := 3;
     GeometricReservoirStorage.store_targets := false;
     GeometricReservoirStorage._storage_x := stored_instances;
     GeometricReservoirStorage._storage_y := [];
     GeometricReservoirStorage.constant_probability := (1 / inject_Z 3)%Q;
     GeometricReservoirStorage.rng := 1%Z;
     GeometricReservoirStorage.decisions := [Appended; Appended; Appended] |}.

(** A geometric reservoir that has not seen an item. *)
Definition empty_reservoir : @GeometricReservoirStorage.t Examples.lcg (list (string * Z)) bool :=
  {| GeometricReservoirStorage.size := 3;
     GeometricReservoirStorage.store_targets := false;
     GeometricReservoirStorage._storage_x := [];
     GeometricReservoirStorage._storage_y := [];
     GeometricReservoirStorage.constant_probability := (1 / inject_Z 3)%Q;
     GeometricReservoirStorage.rng := 1%Z;
     GeometricReservoirStorage.decisions := [] |}.

(** An imputer for a model that predicts the salary of the instance. *)
Definition salary_imputer (strategy : string) : @MarginalImputer.t Examples.lcg Z (option Z) :=
  MarginalImputer.__init__ (λ x, dict_get x "salary") strategy (Some 7%Z) 0%Z.

(** The instance to explain. *)
Definition explained_instance : list (string * Z) :=
  [("age", 25%Z); ("salary", 50%Z); ("loan", 1%Z)].

(** One joint draw of the features "salary" and "age", and two
    imputations of these features, drawn feature by feature. *)
Definition joint_sample : list (string * Z) * @MarginalImputer.t Examples.lcg Z (option Z) :=
  Eval vm_compute in
    Examples.unwrap
      (MarginalImputer._sample instance_reservoir ["salary"; "age"] (salary_imputer "joint"))
      ([], salary_imputer "joint").

Definition product_imputation : list (option Z) * @MarginalImputer.t Examples.lcg Z (option Z) :=
  Eval vm_compute in
    Examples.unwrap
      (MarginalImputer.impute instance_reservoir ["salary"; "age"] explained_instance 2
         (salary_imputer "product"))
      ([], salary_imputer "product").

End Scenarios.

(* ===================================================================== *)
(** * Part II: lemmas and theorems                                        *)
(* ===================================================================== *)

(** ** Results and loops *)

Lemma mapM_result_fmap {A B C} (f : B → result C) (g : A → B) (k : A → C) (l : list A) :
  Forall (λ a, f (g a) = Ok (k a)) l →
  mapM_result f (g <$> l) = Ok (k <$> l).
Proof.
  induction 1 as [|a l Ha _ IH]; [done|].
  cbn. rewrite Ha. cbn. fold (fmap g l). rewrite IH. done.
Qed.


Lemma for_range_fixed {St} (body : nat → St → result St) (s : St) (n i : nat) :
  (∀ j, i ≤ j < i + n → body j s = Ok s) →
  for_range body i n s = Ok s.
Proof.
  revert i. induction n as [|n IH]; intros i Hbody; [done|].
  cbn. rewrite Hbody by lia. cbn. apply IH. intros j Hj. apply Hbody. lia.
Qed.

Lemma filter_all {A} (P : A → Prop) `{∀ x, Decision (P x)} (l : list A) :
  Forall P l → filter P l = l.
Proof.
  induction 1 as [|a l Ha _ IH]; [done|].
  rewrite filter_cons_True by done. by rewrite IH.
Qed.


Lemma elem_of_concat {A} (x : A) (ls : list (list A)) :
  x ∈ concat ls ↔ ∃ l, x ∈ l ∧ l ∈ ls.
Proof.
  induction ls as [|l ls IH]; cbn.
  - split; [by intros ?%elem_of_nil|by intros (? & _ & ?%elem_of_nil)].
  - rewrite elem_of_app, IH. split.
    + intros [Hx|(l' & Hx & Hl')]; [exists l|exists l']; split; try done; [left|by right].
    + intros (l' & Hx & [->|Hl']%elem_of_cons); [by left|right; eauto].
Qed.

(** ** Located trees *)

Section ltree_facts.
Context `{RiverNodes}.

Lemma ltree_ind' (P : ltree → Prop) :
  (∀ l s d a, P (LLeaf l s d a)) →
  (∀ l s f d ch, Forall P ch → P (LBranch l s f d ch)) →
  ∀ t, P t.
Proof.
  intros Hleaf Hbranch. fix IH 1. intros [l s d a|l s f d ch]; [apply Hleaf|].
  apply Hbranch. induction ch as [|c ch IHch]; constructor; [apply IH|apply IHch].
Qed.

Lemma locs_LBranch l s f d ch :
  locs (LBranch l s f d ch) = l :: concat (locs <$> ch).
Proof.
  unfold locs. cbn. f_equal.
  induction ch as [|c ch IH]; [done|].
  cbn. rewrite fmap_app. by rewrite IH.
Qed.

Lemma lloc_locs t : lloc t ∈ locs t.
Proof. destruct t; unfold locs; cbn; left. Qed.

Lemma embeds_LLeaf h l s d a :
  embeds h (LLeaf l s d a) ↔ h !! l = Some (HTLeaf s d a).
Proof.
  unfold embeds. cbn. rewrite Forall_singleton. done.
Qed.

Lemma embeds_LBranch h l s f d ch :
  embeds h (LBranch l s f d ch) ↔
  h !! l = Some (DTBranch s f d (lloc <$> ch)) ∧ Forall (embeds h) ch.
Proof.
  unfold embeds. cbn. rewrite Forall_cons. cbn.
  rewrite Forall_concat, Forall_fmap. done.
Qed.

Lemma embeds_root h t : embeds h t → h !! lloc t = Some (shallow t).
Proof.
  destruct t; [rewrite embeds_LLeaf|rewrite embeds_LBranch]; cbn; tauto.
Qed.

Lemma embeds_lookup h t l :
  embeds h t → l ∈ locs t → is_Some (h !! l).
Proof.
  unfold embeds, locs. rewrite Forall_forall. intros Hall Hl.
  apply list_elem_of_fmap in Hl as [[l' n] [-> Hc]].
  apply Hall in Hc. cbn in *. eauto.
Qed.

Lemma embeds_lt h t l : embeds h t → l ∈ locs t → l < length h.
Proof.
  intros He Hl. destruct (embeds_lookup h t l He Hl) as [n Hn].
  by apply lookup_lt_Some in Hn.
Qed.

(** Frame rule: a store that agrees with [h] on the locations of [t] holds
    [t] when [h] does. *)
Lemma embeds_frame h h' t :
  embeds h t → (∀ l, l ∈ locs t → h' !! l = h !! l) → embeds h' t.
Proof.
  unfold embeds, locs. rewrite !Forall_forall. intros Hall Hsame [l n] Hc.
  cbn. rewrite Hsame; [by apply (Hall (l, n))|].
  apply list_elem_of_fmap. by exists (l, n).
Qed.

Lemma elem_of_concat_locs (ch : list ltree) c l :
  c ∈ ch → l ∈ locs c → l ∈ concat (locs <$> ch).
Proof.
  intros Hc Hl. apply elem_of_concat. exists (locs c). split; [done|].
  apply list_elem_of_fmap. eauto.
Qed.

Lemma elem_of_concat_locs_inv (ch : list ltree) l :
  l ∈ concat (locs <$> ch) → ∃ c, c ∈ ch ∧ l ∈ locs c.
Proof.
  intros Hl. apply elem_of_concat in Hl as [ls [Hl Hls]].
  apply list_elem_of_fmap in Hls as [c [-> Hc]]. eauto.
Qed.

Lemma height_pos t : 0 < height t.
Proof. destruct t; cbn; lia. Qed.

Lemma height_child l s f d ch c :
  c ∈ ch → height c < height (LBranch l s f d ch).
Proof.
  intros Hc. cbn. apply Nat.lt_succ_r, max_list_elem_of_le.
  apply list_elem_of_fmap. eauto.
Qed.

Lemma max_list_le (ns : list nat) (m : nat) :
  Forall (λ n, n ≤ m) ns → max_list ns ≤ m.
Proof. induction 1; cbn; lia. Qed.

(** *** Enumerating leaves *)

Lemma leaves_are_leaves t leaf : leaf ∈ leaves t → is_LBranch leaf = false.
Proof.
  revert leaf. induction t as [l s d a|l s f d ch IH] using ltree_ind'; intros leaf; cbn.
  - by intros ->%list_elem_of_singleton.
  - intros Hleaf. apply elem_of_concat in Hleaf as [ls [Hleaf Hls]].
    apply list_elem_of_fmap in Hls as [c [-> Hc]].
    rewrite Forall_forall in IH. by apply (IH c).
Qed.

Lemma leaves_embedded h t leaf :
  embeds h t → leaf ∈ leaves t → h !! lloc leaf = Some (shallow leaf).
Proof.
  revert leaf. induction t as [l s d a|l s f d ch IH] using ltree_ind'; intros leaf; cbn.
  - intros He ->%list_elem_of_singleton. by apply embeds_root.
  - rewrite embeds_LBranch. intros [_ Hch] Hleaf.
    apply elem_of_concat in Hleaf as [ls [Hleaf Hls]].
    apply list_elem_of_fmap in Hls as [c [-> Hc]].
    rewrite Forall_forall in IH, Hch. by apply (IH c); [|apply Hch|].
Qed.

Lemma leaves_nonempty t : branching t → leaves t ≠ [].
Proof.
  induction t as [l s d a|l s f d ch IH] using ltree_ind'; [done|].
  unfold branching. cbn. rewrite Forall_cons, Forall_concat, Forall_fmap.
  intros [Hlen Hch]. destruct ch as [|c ch]; [cbn in Hlen; lia|].
  apply Forall_cons in IH as [IHc _]. apply Forall_cons in Hch as [Hc _].
  cbn. intros [Hnil _]%app_eq_nil. by apply IHc.
Qed.

Lemma iter_leaves_embeds fuel h t :
  embeds h t → height t ≤ fuel →
  iter_leaves fuel h (lloc t) = Ok (lloc <$> leaves t).
Proof.
  revert fuel. induction t as [l s d a|l s f d ch IH] using ltree_ind'; intros fuel He Hfuel.
  - destruct fuel as [|fuel]; [cbn in Hfuel; lia|].
    apply embeds_LLeaf in He. cbn. unfold deref. by rewrite He.
  - destruct fuel as [|fuel]; [cbn in Hfuel; lia|].
    apply embeds_LBranch in He as [Hl Hch]. cbn. unfold deref. rewrite Hl. cbn.
    rewrite (mapM_result_fmap _ lloc (λ c, lloc <$> leaves c)).
    + cbn. f_equal. clear. induction ch as [|c ch IHch]; [done|].
      cbn. rewrite fmap_app. by rewrite <- IHch.
    + rewrite Forall_forall in IH, Hch. apply Forall_forall. intros c Hc.
      apply IH; [done|by apply Hch|].
      pose proof (height_child l s f d ch c Hc). lia.
Qed.

End ltree_facts.

(** ** [max] and [index] *)

Lemma Qlt_bool_true (a b : Q) : Qlt_bool a b = true ↔ (a < b)%Q.
Proof.
  unfold Qlt_bool. rewrite negb_true_iff. split.
  - intros Hle. apply Qnot_le_lt. intros Hle'%Qle_bool_iff. congruence.
  - intros Hlt. destruct (Qle_bool b a) eqn:Hle; [|done].
    apply Qle_bool_iff in Hle. by apply Qlt_not_le in Hlt.
Qed.

Lemma Qlt_bool_false (a b : Q) : Qlt_bool a b = false ↔ (b <= a)%Q.
Proof.
  unfold Qlt_bool. rewrite negb_false_iff. apply Qle_bool_iff.
Qed.

Section max_index.
Context `{PyNumbers}.

Lemma num_lt_irrefl (a : number) : num_lt a a = false.
Proof.
  destruct (num_lt a a) eqn:Ha; [|done]. pose proof (num_lt_asym a a Ha). congruence.
Qed.

Lemma num_eqb_refl (a : number) : num_eqb a a = true.
Proof. apply num_eqb_lt. split; apply num_lt_irrefl. Qed.

(** [b] is not above [a], and [c] is not above [b]: [c] is not above [a]. *)
Lemma num_not_lt_trans (a b c : number) :
  num_lt a b = false → num_lt b c = false → num_lt a c = false.
Proof.
  intros Hab Hbc. destruct (num_lt a c) eqn:Hac; [|done].
  destruct (num_lt_cotrans a b c Hac); congruence.
Qed.

Lemma fold_max_spec (l : list number) (x : number) :
  let m := fold_left (λ m y, if num_lt m y then y else m) l x in
  m ∈ x :: l ∧ ∀ q, q ∈ x :: l → num_lt m q = false.
Proof.
  revert x. induction l as [|y l IH]; intros x; cbn.
  - split; [left|]. intros q ->%list_elem_of_singleton. apply num_lt_irrefl.
  - destruct (num_lt x y) eqn:Hxy.
    + destruct (IH y) as [Hin Hmax]. split; [by right|].
      intros q [->|Hq]%elem_of_cons; [|by apply Hmax].
      apply num_not_lt_trans with y; [apply Hmax; left|by apply num_lt_asym].
    + destruct (IH x) as [Hin Hmax]. split.
      * apply elem_of_cons in Hin as [->|Hin]; [left|right; by right].
      * intros q [->|[->|Hq]%elem_of_cons]%elem_of_cons.
        -- apply Hmax. left.
        -- apply num_not_lt_trans with x; [apply Hmax; left|done].
        -- apply Hmax. by right.
Qed.

Lemma py_index_spec (v : number) (l : list number) :
  (∃ q, q ∈ l ∧ num_eqb q v = true) →
  ∃ i p, py_index v l = Ok i ∧ l !! i = Some p ∧ num_eqb p v = true ∧
         ∀ j q, j < i → l !! j = Some q → num_eqb q v = false.
Proof.
  induction l as [|x l IH]; intros (q & Hq & Hqv); [by apply elem_of_nil in Hq|].
  cbn. destruct (num_eqb x v) eqn:Hx.
  - exists 0, x. split_and!; [done|done|done|]. intros j ? Hj. lia.
  - apply elem_of_cons in Hq as [->|Hq]; [congruence|].
    destruct IH as (i & p & Hi & Hp & Hpv & Hfirst); [eauto|].
    exists (S i), p. rewrite Hi. split_and!; [done|done|done|].
    intros [|j] q' Hj; cbn.
    + by intros [= <-].
    + apply Hfirst. lia.
Qed.

(** [l.index(max(l))] on a non-empty list: the first position of a maximal
    item. *)
Lemma py_max_index (l : list number) :
  l ≠ [] →
  ∃ m i p, py_max l = Ok m ∧ py_index m l = Ok i ∧ l !! i = Some p ∧
           (∀ j q, l !! j = Some q → num_lt p q = false) ∧
           (∀ j q, j < i → l !! j = Some q → num_lt q p = true).
Proof.
  destruct l as [|x l]; [done|]. intros _.
  destruct (fold_max_spec l x) as [Hin Hmax].
  set (m := fold_left _ l x) in *.
  destruct (py_index_spec m (x :: l)) as (i & p & Hi & Hp & Hpm & Hfirst).
  { exists m. split; [done|apply num_eqb_refl]. }
  apply num_eqb_lt in Hpm as [Hpm Hmp].
  exists m, i, p. split_and!; [done|done|done| |].
  - intros j q Hq. apply num_not_lt_trans with m; [done|].
    apply Hmax. by apply list_elem_of_lookup_2 in Hq.
  - intros j q Hj Hq.
    assert (Hmq : num_lt m q = false) by (apply Hmax; by apply list_elem_of_lookup_2 in Hq).
    pose proof (Hfirst j q Hj Hq) as Hne.
    destruct (num_lt q p) eqn:Hqp; [done|].
    assert (Hqm : num_lt q m = false) by by apply num_not_lt_trans with p.
    assert (num_eqb q m = true) by by apply num_eqb_lt.
    congruence.
Qed.

End max_index.

(** ** The tree object *)

Section tree_facts.
Context `{Libraries}.

Lemma store_with_store h tree : store (with_store h tree) = h.
Proof. done. Qed.

Lemma with_store_with_store h h' tree :
  with_store h (with_store h' tree) = with_store h tree.
Proof. done. Qed.

Lemma with_store_id tree : with_store (store tree) tree = tree.
Proof. by destruct tree as [[]]. Qed.

Lemma important_features_with_store h tree :
  important_features (with_store h tree) = important_features tree.
Proof. done. Qed.

Lemma root_with_store h tree : root (with_store h tree) = root tree.
Proof. done. Qed.

Lemma not_in_important_features_Some important f tree :
  important_features tree = Some important →
  not_in_important_features f tree = Ok (negb (bool_decide (f ∈ important))).
Proof. unfold not_in_important_features. by intros ->. Qed.

End tree_facts.

Lemma bind_Ok {A B} (a : A) (f : A → result B) : (Ok a ≫= f) = f a.
Proof. done. Qed.

(** ** The selective pruner *)

Section selective_facts.
Context `{Libraries}.
Implicit Types (t c : ltree) (tree : HoeffdingPruningTree) (h : heap).

Lemma is_HTLeaf_embeds h t :
  embeds h t → is_HTLeaf h (lloc t) = Ok (negb (is_LBranch t)).
Proof.
  intros He%embeds_root. unfold is_HTLeaf, deref. rewrite He. by destruct t.
Qed.

Lemma is_DTBranch_embeds h t :
  embeds h t → is_DTBranch h (lloc t) = Ok (is_LBranch t).
Proof.
  intros He%embeds_root. unfold is_DTBranch, deref. rewrite He. by destruct t.
Qed.

Lemma _calculate_avg_promise_embeds fuel tree t :
  embeds (store tree) t → is_LBranch t = true → branching t → height t ≤ fuel →
  SelectivePruner._calculate_avg_promise fuel (lloc t) tree = Ok (average_promise t).
Proof.
  intros He Hb Hbr Hfuel. unfold SelectivePruner._calculate_avg_promise.
  rewrite (iter_leaves_embeds _ _ _ He Hfuel), bind_Ok.
  rewrite (mapM_result_fmap _ lloc (λ leaf, (lloc leaf, true))), bind_Ok.
  2:{ apply Forall_forall. intros leaf Hleaf.
      unfold is_HTLeaf, deref. rewrite (leaves_embedded _ _ _ He Hleaf).
      pose proof (leaves_are_leaves _ _ Hleaf). by destruct leaf. }
  rewrite filter_all by (by apply Forall_fmap, Forall_true).
  rewrite <- list_fmap_compose.
  rewrite (mapM_result_fmap _ _ promise), bind_Ok.
  2:{ apply Forall_forall. intros leaf Hleaf. cbn.
      unfold leaf_promise, deref. rewrite (leaves_embedded _ _ _ He Hleaf).
      pose proof (leaves_are_leaves _ _ Hleaf). by destruct leaf. }
  rewrite length_fmap. case_decide as Hlen.
  { apply length_zero_iff_nil in Hlen. by apply leaves_nonempty in Hlen. }
  by destruct t.
Qed.

(** The promise that [_choose_child] computes for a child. *)
Lemma child_promise_embeds fuel tree c :
  embeds (store tree) c → branching c → height c ≤ fuel →
  (leaf ← is_HTLeaf (store tree) (lloc c);
   if negb leaf then SelectivePruner._calculate_avg_promise fuel (lloc c) tree
   else leaf_promise (store tree) (lloc c)) = Ok (average_promise c).
Proof.
  intros He Hbr Hfuel. rewrite (is_HTLeaf_embeds _ _ He), bind_Ok.
  destruct c as [l s d a|l s f d ch]; cbn [negb is_LBranch].
  - apply embeds_LLeaf in He. unfold leaf_promise, deref. cbn. by rewrite He.
  - by apply _calculate_avg_promise_embeds.
Qed.

Lemma _choose_child_spec fuel tree (children : list ltree) :
  children ≠ [] →
  Forall (embeds (store tree)) children →
  Forall branching children →
  Forall (λ c, height c ≤ fuel) children →
  ∃ c, SelectivePruner._choose_child fuel (lloc <$> children) tree = Ok (lloc c) ∧
       first_best children c.
Proof.
  intros Hne He Hbr Hfuel. unfold SelectivePruner._choose_child.
  rewrite (mapM_result_fmap _ lloc average_promise), bind_Ok.
  2:{ rewrite Forall_forall in He, Hbr, Hfuel. apply Forall_forall. intros c Hc.
      apply child_promise_embeds; auto. }
  destruct (py_max_index (average_promise <$> children)) as (m & i & p & Hm & Hi & Hp & Hmax & Hfirst).
  { by destruct children. }
  rewrite Hm, bind_Ok, Hi, bind_Ok. apply list_lookup_fmap_Some in Hp as (c & -> & Hc).
  exists c. unfold py_getitem. rewrite list_lookup_fmap, Hc. split; [done|].
  exists i. split_and!; [done| |].
  - intros j c' Hc'. apply (Hmax j). by rewrite list_lookup_fmap, Hc'.
  - intros j c' Hj Hc'. apply (Hfirst j); [done|]. by rewrite list_lookup_fmap, Hc'.
Qed.

End selective_facts.

Section located_lists.
Context `{RiverNodes}.

Lemma separated_LBranch l s f d (ch : list ltree) :
  separated (LBranch l s f d ch) ↔
  (l ∉ concat (locs <$> ch)) ∧ NoDup (concat (locs <$> ch)).
Proof. unfold separated. rewrite locs_LBranch. apply NoDup_cons. Qed.

Lemma branching_LBranch l s f d (ch : list ltree) :
  branching (LBranch l s f d ch) ↔ 0 < length ch ∧ Forall branching ch.
Proof.
  unfold branching. cbn. rewrite Forall_cons, Forall_concat, Forall_fmap. done.
Qed.

Lemma all_important_LBranch important l s f d (ch : list ltree) :
  all_important important (LBranch l s f d ch) ↔
  f ∈ important ∧ Forall (all_important important) ch.
Proof.
  unfold all_important. cbn. rewrite Forall_cons, Forall_concat, Forall_fmap. done.
Qed.

Lemma NoDup_concat_cons (c : ltree) (ch : list ltree) :
  NoDup (concat (locs <$> (c :: ch))) ↔
  separated c ∧ (∀ l, l ∈ locs c → l ∉ concat (locs <$> ch)) ∧
  NoDup (concat (locs <$> ch)).
Proof. cbn. apply NoDup_app. Qed.

Lemma separated_child (ch : list ltree) c :
  NoDup (concat (locs <$> ch)) → c ∈ ch → separated c.
Proof.
  induction ch as [|c' ch IH]; [by intros _ ?%elem_of_nil|].
  intros (Hc' & _ & Hch)%NoDup_concat_cons [->|Hc]%elem_of_cons; auto.
Qed.

Lemma concat_locs_subseteq (ch ch' : list ltree) l :
  Forall2 (λ c c', locs c' ⊆ locs c) ch ch' →
  l ∈ concat (locs <$> ch') → l ∈ concat (locs <$> ch).
Proof.
  induction 1 as [|c c' ch ch' Hc _ IH]; [done|].
  cbn. rewrite !elem_of_app. intros [Hl|Hl]; [left; by apply Hc|right; by apply IH].
Qed.

Lemma NoDup_concat_subseteq (ch ch' : list ltree) :
  NoDup (concat (locs <$> ch)) →
  Forall2 (λ c c', locs c' ⊆ locs c) ch ch' →
  Forall separated ch' →
  NoDup (concat (locs <$> ch')).
Proof.
  intros Hnd Hsub. revert Hnd.
  induction Hsub as [|c c' ch ch' Hc Hch IH]; [done|].
  intros (_ & Hdisj & Hnd)%NoDup_concat_cons [Hsep Hseps]%Forall_cons.
  apply NoDup_concat_cons. split_and!; [done| |by apply IH].
  intros l Hl Hl'. apply (Hdisj l); [by apply Hc|].
  by apply (concat_locs_subseteq ch ch').
Qed.

Lemma max_list_height_le (ch ch' : list ltree) :
  Forall2 (λ c c', height c' ≤ height c) ch ch' →
  max_list (map height ch') ≤ max_list (map height ch).
Proof. induction 1; cbn; lia. Qed.

End located_lists.

Section selective_correct.
Context `{Libraries}.
Implicit Types (t c : ltree) (tree : HoeffdingPruningTree) (h : heap).

(** What [prune_subtree] does with one child. *)
Local Abbreviation child_step fuel child tree :=
  (leaf ← is_HTLeaf (store tree) child;
   if negb leaf then SelectivePruner.prune_subtree fuel child tree else Ok (child, tree)).

Lemma selective_prune_subtree_S fuel node tree :
  SelectivePruner.prune_subtree (S fuel) node tree =
  (children ← get_children (store tree) node;
   '(pruned_children, tree) ←
     mapM_state (λ child tree, child_step fuel child tree) children tree;
   feature ← get_feature (store tree) node;
   unimportant ← not_in_important_features feature tree;
   if (unimportant : bool) then
     child ← SelectivePruner._choose_child fuel pruned_children tree; Ok (child, tree)
   else
     h ← assign_children (store tree) node pruned_children;
     Ok (node, with_store h tree)).
Proof. done. Qed.

Lemma mapM_state_cons {A B St} (f : A → St → result (B * St)) a l s :
  mapM_state f (a :: l) s =
  ('(b, s) ← f a s; '(bs, s) ← mapM_state f l s; Ok (b :: bs, s)).
Proof. done. Qed.

(** The result of one child step, for a child that is the root of [c]. *)
#[warnings="-inconsistent-scopes"]
Local Abbreviation selective_step_ok important fuel c :=
  (∀ tree,
    embeds (store tree) c → separated c → branching c → height c ≤ fuel →
    important_features tree = Some (important : list string) →
    ∃ c' h', child_step fuel (lloc c) tree = Ok (lloc c', with_store h' tree) ∧
             selective_pruned important c c' ∧
             selective_post (store tree) c h' c').

Lemma selective_children important fuel (ch : list ltree) :
  Forall (λ c, selective_step_ok important fuel c) ch →
  ∀ tree,
    Forall (embeds (store tree)) ch →
    NoDup (concat (locs <$> ch)) →
    Forall branching ch →
    Forall (λ c, height c ≤ fuel) ch →
    important_features tree = Some important →
    ∃ ch' h',
      mapM_state (λ child tree, child_step fuel child tree) (lloc <$> ch) tree
        = Ok (lloc <$> ch', with_store h' tree) ∧
      Forall2 (selective_pruned important) ch ch' ∧
      Forall (embeds h') ch' ∧
      Forall separated ch' ∧
      Forall branching ch' ∧
      Forall2 (λ c c', height c' ≤ height c) ch ch' ∧
      Forall2 (λ c c', locs c' ⊆ locs c) ch ch' ∧
      length h' = length (store tree) ∧
      (∀ l, l ∉ concat (locs <$> ch) → h' !! l = store tree !! l).
Proof.
  induction 1 as [|c ch Hc _ IH]; intros tree He Hnd Hbr Hfuel Himp.
  { exists [], (store tree). rewrite with_store_id. by split_and!. }
  apply Forall_cons in He as [Hec Hech]. apply Forall_cons in Hbr as [Hbc Hbch].
  apply Forall_cons in Hfuel as [Hfc Hfch].
  apply NoDup_concat_cons in Hnd as (Hsc & Hdisj & Hndch).
  destruct (Hc tree) as (c' & h1 & Hstep & Hpc & Hpost); [done..|].
  destruct Hpost as (He1 & Hs1 & Hb1 & Hh1 & Hsub1 & Hlen1 & Hframe1).
  destruct (IH (with_store h1 tree)) as
    (ch' & h2 & Hrest & Hpch & He2 & Hs2 & Hb2 & Hh2 & Hsub2 & Hlen2 & Hframe2);
    [|done..|].
  { rewrite store_with_store. rewrite Forall_forall in Hech. apply Forall_forall.
    intros c2 Hc2. apply (embeds_frame (store tree)); [by apply Hech|].
    intros l Hl. apply Hframe1. intros Hlc. apply (Hdisj l Hlc).
    by apply (elem_of_concat_locs ch c2). }
  rewrite store_with_store in Hlen2, Hframe2.
  exists (c' :: ch'), h2. rewrite fmap_cons, mapM_state_cons, Hstep, bind_Ok.
  cbn beta iota. rewrite Hrest, bind_Ok. cbn beta iota.
  split_and!; try by constructor.
  - constructor; [|done]. apply (embeds_frame h1); [done|].
    intros l Hl. apply Hframe2. intros Hl2. apply (Hdisj l); [by apply Hsub1|done].
  - congruence.
  - intros l Hl. cbn in Hl. rewrite elem_of_app in Hl.
    rewrite Hframe2 by tauto. apply Hframe1. tauto.
Qed.

Lemma selective_step important t : ∀ fuel, selective_step_ok important fuel t.
Proof.
  induction t as [l s d a|l s f d ch IH] using ltree_ind';
    intros fuel tree He Hsep Hbr Hfuel Himp.
  { exists (LLeaf l s d a), (store tree). rewrite with_store_id.
    rewrite (is_HTLeaf_embeds _ _ He), bind_Ok. cbn [is_LBranch negb].
    unfold selective_post. split_and!; try done; constructor. }
  rewrite (is_HTLeaf_embeds _ _ He), bind_Ok. cbn [is_LBranch negb].
  destruct fuel as [|fuel]; [cbn in Hfuel; lia|].
  pose proof He as [Hl Hech]%embeds_LBranch.
  apply separated_LBranch in Hsep as [Hlch Hnd].
  pose proof Hbr as [Hlen Hbch]%branching_LBranch.
  assert (Hfch : Forall (λ c, height c ≤ fuel) ch).
  { apply Forall_forall. intros c Hc.
    pose proof (height_child l s f d ch c Hc). lia. }
  destruct (selective_children important fuel ch) with (tree := tree)
    as (ch' & h' & Hloop & Hpch & He' & Hs' & Hb' & Hh' & Hsub' & Hlen' & Hframe');
    [|done..|].
  { eapply Forall_impl; [exact IH|]. intros c Hc. apply Hc. }
  assert (Hl' : h' !! l = Some (DTBranch s f d (lloc <$> ch))).
  { by rewrite Hframe'. }
  assert (Hndch' : NoDup (concat (locs <$> ch'))).
  { by apply (NoDup_concat_subseteq ch). }
  assert (Hlch' : l ∉ concat (locs <$> ch')).
  { intros Hin. by apply Hlch, (concat_locs_subseteq ch ch'). }
  rewrite selective_prune_subtree_S. cbn [lloc].
  unfold get_children at 1. unfold deref. rewrite Hl, !bind_Ok.
  rewrite Hloop, bind_Ok. cbn beta iota.
  unfold get_feature, deref. rewrite store_with_store, Hl', !bind_Ok.
  rewrite (not_in_important_features_Some important) by done. rewrite bind_Ok.
  case_bool_decide as Hf; cbn [negb].
  - (* the branch stays *)
    unfold assign_children, deref. rewrite ?store_with_store, Hl', !bind_Ok.
    set (h3 := <[l := DTBranch s f d (lloc <$> ch')]> h').
    exists (LBranch l s f d ch'), h3. unfold selective_post. split_and!.
    + done.
    + by constructor.
    + apply embeds_LBranch. split.
      * unfold h3. apply list_lookup_insert_eq. by apply lookup_lt_Some in Hl'.
      * rewrite Forall_forall in He'. apply Forall_forall. intros c Hc.
        apply (embeds_frame h'); [by apply He'|]. intros l' Hl'c.
        unfold h3. apply list_lookup_insert_ne. intros ->.
        by apply Hlch', (elem_of_concat_locs ch' c).
    + by apply separated_LBranch.
    + apply branching_LBranch. split; [|done].
      by rewrite <- (Forall2_length _ _ _ Hpch).
    + cbn. apply le_n_S. by apply max_list_height_le.
    + rewrite !locs_LBranch. intros l' [->|Hin]%elem_of_cons; [left|right].
      by apply (concat_locs_subseteq ch ch').
    + unfold h3. by rewrite length_insert.
    + intros l' Hl'c. rewrite locs_LBranch in Hl'c.
      apply not_elem_of_cons in Hl'c as [Hne Hnin].
      unfold h3. rewrite list_lookup_insert_ne by done. by apply Hframe'.
  - (* the best pruned child takes the place of the branch *)
    destruct (_choose_child_spec fuel (with_store h' tree) ch') as (c & Hchoose & Hbest).
    + apply Forall2_length in Hpch. destruct ch'; [|done].
      destruct ch; cbn in *; [lia|done].
    + done.
    + done.
    + apply Forall_forall. intros c' Hc'.
      apply list_elem_of_lookup in Hc' as [i Hi].
      destruct (Forall2_lookup_r _ _ _ _ _ Hh' Hi) as (c0 & Hc0 & Hle).
      rewrite Forall_forall in Hfch.
      apply list_elem_of_lookup_2 in Hc0. specialize (Hfch c0 Hc0). lia.
    + rewrite Hchoose, bind_Ok.
      destruct Hbest as (i & Hi & Hbest).
      destruct (Forall2_lookup_r _ _ _ _ _ Hh' Hi) as (c0 & Hc0 & Hle).
      pose proof (Forall2_lookup_lr _ _ _ _ _ _ Hsub' Hc0 Hi) as Hsubc.
      pose proof (list_elem_of_lookup_2 _ _ _ Hi) as Hc.
      pose proof (list_elem_of_lookup_2 _ _ _ Hc0) as Hc0in.
      rewrite Forall_forall in He', Hs', Hb'.
      exists c, h'. unfold selective_post. split_and!; auto.
      * eapply selective_replace; [done..|]. by exists i.
      * pose proof (height_child l s f d ch c0 Hc0in). lia.
      * rewrite locs_LBranch. intros l' Hl'c. right.
        apply (elem_of_concat_locs ch c0); [done|]. by apply Hsubc.
      * intros l' Hl'c. apply Hframe'. rewrite locs_LBranch in Hl'c.
        by apply not_elem_of_cons in Hl'c as [_ ?].
Qed.

End selective_correct.

(** ** The complete pruner *)

Section complete_correct.
Context `{Libraries}.
Implicit Types (t c : ltree) (tree : HoeffdingPruningTree) (h : heap).

(** The body of the loop over the children of [node]. *)
Local Abbreviation loop_body fuel node :=
  (λ i tree,
     children ← get_children (store tree) node;
     child ← py_getitem children i;
     CompletePruner.prune_subtree fuel child (Some node) i tree).

Lemma complete_prune_subtree_S fuel node parent index tree :
  CompletePruner.prune_subtree (S fuel) node parent index tree =
  (branch ← is_DTBranch (store tree) node;
   if (branch : bool) then
     feature ← get_feature (store tree) node;
     unimportant ← not_in_important_features feature tree;
     if (unimportant : bool) then
       stats ← get_stats (store tree) node;
       '(new_leaf, tree) ← create_new_leaf (Some stats) parent tree;
       match parent with
       | None => Ok (set_new_root new_leaf tree)
       | Some parent =>
           h ← setitem_children (store tree) parent index new_leaf;
           Ok (with_store h tree)
       end
     else
       children ← get_children (store tree) node;
       for_range (loop_body fuel node) 0 (length children) tree
   else Ok tree).
Proof. done. Qed.

Lemma for_range_S {St} (body : nat → St → result St) i n s :
  for_range body i (S n) s = (s ← body i s; for_range body (S i) n s).
Proof. done. Qed.

Lemma get_children_branch h l s f d ch :
  h !! l = Some (DTBranch s f d ch) → get_children h l = Ok ch.
Proof. unfold get_children, deref. by intros ->. Qed.

Lemma get_feature_branch h l s f d ch :
  h !! l = Some (DTBranch s f d ch) → get_feature h l = Ok f.
Proof. unfold get_feature, deref. by intros ->. Qed.

Lemma get_stats_branch h l s f d ch :
  h !! l = Some (DTBranch s f d ch) → get_stats h l = Ok s.
Proof. unfold get_stats, deref. by intros ->. Qed.

Lemma py_getitem_middle {A} (l1 l2 : list A) x :
  py_getitem (l1 ++ x :: l2) (length l1) = Ok x.
Proof. unfold py_getitem. by rewrite list_lookup_middle. Qed.

Lemma create_new_leaf_child tree s p n :
  store tree !! p = Some n →
  create_new_leaf (Some s) (Some p) tree =
  Ok (length (store tree),
      with_store (store tree ++ [HTLeaf s (node_depth n + 1) true]) tree).
Proof. unfold create_new_leaf, _new_leaf, deref. by intros ->. Qed.

Lemma create_new_leaf_root tree s :
  create_new_leaf (Some s) None tree =
  Ok (length (store tree), with_store (store tree ++ [HTLeaf s 0 true]) tree).
Proof. done. Qed.

Lemma setitem_children_branch h p index child ps pf pd pch :
  h !! p = Some (DTBranch ps pf pd pch) → index < length pch →
  setitem_children h p index child =
  Ok (<[p := DTBranch ps pf pd (<[index := child]> pch)]> h).
Proof.
  intros Hp Hindex. unfold setitem_children, deref, py_setitem. rewrite Hp, bind_Ok.
  by rewrite decide_True.
Qed.

(** *** A pass over a clean tree changes nothing *)

Lemma complete_prune_subtree_clean important t :
  ∀ fuel tree parent index,
    embeds (store tree) t → all_important important t → height t ≤ fuel →
    important_features tree = Some important →
    CompletePruner.prune_subtree fuel (lloc t) parent index tree = Ok tree.
Proof.
  induction t as [l s d a|l s f d ch IH] using ltree_ind';
    intros fuel tree parent index He Himp_t Hfuel Himp;
    (destruct fuel as [|fuel]; [cbn in Hfuel; lia|]);
    rewrite complete_prune_subtree_S, (is_DTBranch_embeds _ _ He), bind_Ok;
    cbn [is_LBranch lloc]; [done|].
  apply embeds_LBranch in He as [Hl Hech].
  apply all_important_LBranch in Himp_t as [Hf Hch].
  rewrite (get_feature_branch _ _ _ _ _ _ Hl), bind_Ok.
  rewrite (not_in_important_features_Some important) by done. rewrite bind_Ok.
  rewrite bool_decide_eq_true_2 by done. cbn [negb].
  rewrite (get_children_branch _ _ _ _ _ _ Hl), bind_Ok.
  apply for_range_fixed. intros j Hj. rewrite length_fmap in Hj.
  rewrite (get_children_branch _ _ _ _ _ _ Hl), bind_Ok.
  destruct (lookup_lt_is_Some_2 ch j) as [c Hc]; [lia|].
  unfold py_getitem. rewrite list_lookup_fmap, Hc. cbn [fmap option_fmap option_map].
  rewrite bind_Ok. pose proof (list_elem_of_lookup_2 _ _ _ Hc) as Hcin.
  rewrite Forall_forall in IH, Hech, Hch.
  apply IH; auto. pose proof (height_child l s f d ch c Hcin). lia.
Qed.

(** *** The first pass *)

(** The result of [prune_subtree] on the root of [t], a child of [p]. *)
#[warnings="-inconsistent-scopes"]
Local Abbreviation complete_step_ok important fuel t :=
  (∀ tree p index ps pf pd pch,
     embeds (store tree) t → separated t → height t ≤ fuel →
     important_features tree = Some (important : list string) →
     store tree !! p = Some (DTBranch ps pf pd pch) →
     pch !! index = Some (lloc t) →
     p ∉ locs t →
     ∃ t' h',
       CompletePruner.prune_subtree fuel (lloc t) (Some p) index tree
         = Ok (with_store h' tree) ∧
       complete_pruned important t t' ∧
       all_important important t' ∧
       h' !! p = Some (DTBranch ps pf pd (<[index := lloc t']> pch)) ∧
       complete_post (store tree) p t h' t').

Lemma complete_children important fuel l s f d (rest : list ltree) :
  Forall (λ c, complete_step_ok important fuel c) rest →
  ∀ (done : list loc) tree,
    store tree !! l = Some (DTBranch s f d (done ++ (lloc <$> rest))) →
    Forall (embeds (store tree)) rest →
    NoDup (concat (locs <$> rest)) →
    l ∉ concat (locs <$> rest) →
    Forall (λ c, height c ≤ fuel) rest →
    important_features tree = Some important →
    ∃ rest' h',
      for_range (loop_body fuel l) (length done) (length rest) tree
        = Ok (with_store h' tree) ∧
      Forall2 (complete_pruned important) rest rest' ∧
      Forall (all_important important) rest' ∧
      h' !! l = Some (DTBranch s f d (done ++ (lloc <$> rest'))) ∧
      Forall (embeds h') rest' ∧
      NoDup (concat (locs <$> rest')) ∧
      Forall2 (λ c c', height c' ≤ height c) rest rest' ∧
      length (store tree) ≤ length h' ∧
      (∀ x, x ∈ concat (locs <$> rest') →
            x ∈ concat (locs <$> rest) ∨ length (store tree) ≤ x) ∧
      (∀ x, x < length (store tree) → x ∉ concat (locs <$> rest) → x ≠ l →
            h' !! x = store tree !! x).
Proof.
  induction 1 as [|c rest Hc _ IH]; intros done tree Hl He Hnd Hlrest Hfuel Himp.
  { exists [], (store tree). rewrite with_store_id.
    split_and!; try done; try (by constructor); intros x Hx; by left. }
  apply Forall_cons in He as [Hec Herest].
  apply Forall_cons in Hfuel as [Hfc Hfrest].
  apply NoDup_concat_cons in Hnd as (Hsc & Hdisj & Hndrest).
  cbn in Hlrest. apply not_elem_of_app in Hlrest as [Hlc Hlrest].
  assert (Hllt : l < length (store tree)) by (by apply lookup_lt_Some in Hl).
  (* the child at position [length done] *)
  destruct (Hc tree l (length done) s f d (done ++ (lloc <$> c :: rest)))
    as (c' & h1 & Hstep & Hpc & Hic & Hl1 & Hpost); [done..| |done|].
  { rewrite fmap_cons. by apply list_lookup_middle. }
  destruct Hpost as (He1 & Hs1 & Hh1 & Hlen1 & Hprov1 & Hframe1).
  rewrite fmap_cons, insert_app_r_alt, Nat.sub_diag in Hl1 by done.
  cbn [insert list_insert] in Hl1. rewrite cons_middle, app_assoc in Hl1.
  (* the remaining children *)
  destruct (IH (done ++ [lloc c']) (with_store h1 tree))
    as (rest' & h2 & Hloop & Hprest & Hirest & Hl2 & He2 & Hnd2 & Hh2 & Hlen2
        & Hprov2 & Hframe2); [done| |done|done|done|done|].
  { rewrite store_with_store. rewrite Forall_forall in Herest. apply Forall_forall.
    intros c2 Hc2. apply (embeds_frame (store tree)); [by apply Herest|].
    intros x Hx. apply Hframe1.
    - apply (embeds_lt (store tree) c2); [by apply Herest|done].
    - intros Hxc. apply (Hdisj x Hxc). by apply (elem_of_concat_locs rest c2).
    - intros ->. by apply Hlrest, (elem_of_concat_locs rest c2). }
  rewrite store_with_store in Hlen2, Hprov2, Hframe2.
  rewrite length_app, Nat.add_1_r in Hloop.
  assert (Hold : ∀ x, x ∈ concat (locs <$> rest) → x < length (store tree)).
  { intros x (c2 & Hc2 & Hx)%elem_of_concat_locs_inv.
    rewrite Forall_forall in Herest.
    apply (embeds_lt (store tree) c2); [by apply Herest|done]. }
  assert (Hc'rest : ∀ x, x ∈ locs c' → x ∉ concat (locs <$> rest)).
  { intros x Hx Hxrest. destruct (Hprov1 x Hx) as [Hxc|Hnew].
    - by apply (Hdisj x).
    - apply Hold in Hxrest. lia. }
  exists (c' :: rest'), h2. cbn [length]. rewrite for_range_S.
  rewrite fmap_cons in Hl.
  rewrite (get_children_branch _ _ _ _ _ _ Hl), bind_Ok, py_getitem_middle, bind_Ok.
  rewrite Hstep, bind_Ok, Hloop.
  split_and!.
  - done.
  - by constructor.
  - by constructor.
  - by rewrite fmap_cons, cons_middle, app_assoc.
  - constructor; [|done]. apply (embeds_frame h1); [done|].
    intros x Hx. apply Hframe2.
    + by apply (embeds_lt h1 c').
    + by apply Hc'rest.
    + intros ->. destruct (Hprov1 l Hx) as [?|?]; [done|lia].
  - apply NoDup_concat_cons. split_and!; [done| |done].
    intros x Hx Hx2. destruct (Hprov2 x Hx2) as [Hxrest|Hnew].
    + by apply (Hc'rest x).
    + pose proof (embeds_lt h1 c' x He1 Hx). lia.
  - by constructor.
  - lia.
  - intros x Hx. cbn in Hx. apply elem_of_app in Hx as [Hx|Hx]; cbn; rewrite elem_of_app.
    + destruct (Hprov1 x Hx); auto.
    + destruct (Hprov2 x Hx); [auto|right; lia].
  - intros x Hx Hxn Hxl. cbn in Hxn. apply not_elem_of_app in Hxn as [Hxc Hxrest].
    rewrite Hframe2 by (done || lia). by apply Hframe1.
Qed.

Lemma complete_kept important fuel l s f d (ch : list ltree) :
  Forall (λ c, complete_step_ok important fuel c) ch →
  ∀ tree,
    embeds (store tree) (LBranch l s f d ch) →
    separated (LBranch l s f d ch) →
    height (LBranch l s f d ch) ≤ S fuel →
    important_features tree = Some important →
    f ∈ important →
    ∃ ch' h',
      for_range (loop_body fuel l) 0 (length ch) tree = Ok (with_store h' tree) ∧
      Forall2 (complete_pruned important) ch ch' ∧
      all_important important (LBranch l s f d ch') ∧
      complete_post (store tree) l (LBranch l s f d ch) h' (LBranch l s f d ch').
Proof.
  intros Hsteps tree He Hsep Hfuel Himp Hf.
  pose proof He as [Hl Hech]%embeds_LBranch.
  pose proof Hsep as [Hlch Hnd]%separated_LBranch.
  assert (Hllt : l < length (store tree)) by (by apply lookup_lt_Some in Hl).
  destruct (complete_children important fuel l s f d ch Hsteps [] tree)
    as (ch' & h' & Hloop & Hpruned & Hich & Hl' & He' & Hnd' & Hh' & Hlen' & Hprov' & Hframe');
    [done..| |done|].
  { apply Forall_forall. intros c Hc.
    pose proof (height_child l s f d ch c Hc). lia. }
  cbn [length app] in Hloop, Hl'.
  exists ch', h'. unfold complete_post. split_and!.
  - done.
  - done.
  - by apply all_important_LBranch.
  - by apply embeds_LBranch.
  - apply separated_LBranch. split; [|done]. intros Hin.
    destruct (Hprov' l Hin) as [?|?]; [done|lia].
  - cbn. apply le_n_S. by apply max_list_height_le.
  - done.
  - intros x Hx. rewrite locs_LBranch in Hx. rewrite locs_LBranch.
    apply elem_of_cons in Hx as [->|Hx]; [left; left|].
    destruct (Hprov' x Hx); [left; by right|by right].
  - intros x Hx Hxt Hxp. rewrite locs_LBranch in Hxt.
    apply not_elem_of_cons in Hxt as [Hxl Hxch]. by apply Hframe'.
Qed.

Lemma complete_step important t : ∀ fuel, complete_step_ok important fuel t.
Proof.
  induction t as [l s d a|l s f d ch IH] using ltree_ind';
    intros fuel tree p index ps pf pd pch He Hsep Hfuel Himp Hp Hindex Hpt;
    (destruct fuel as [|fuel]; [cbn in Hfuel; lia|]);
    rewrite complete_prune_subtree_S, (is_DTBranch_embeds _ _ He), bind_Ok;
    cbn [is_LBranch lloc] in *.
  { exists (LLeaf l s d a), (store tree). rewrite with_store_id.
    unfold complete_post.
    split_and!; try done; try (by constructor); try (by rewrite list_insert_id);
      intros x Hx; by left. }
  pose proof He as [Hl Hech]%embeds_LBranch.
  assert (Hplt : p < length (store tree)) by (by apply lookup_lt_Some in Hp).
  rewrite (get_feature_branch _ _ _ _ _ _ Hl), bind_Ok.
  rewrite (not_in_important_features_Some important) by done. rewrite bind_Ok.
  case_bool_decide as Hf; cbn [negb].
  - (* the branch stays, its children are pruned *)
    rewrite (get_children_branch _ _ _ _ _ _ Hl), bind_Ok, length_fmap.
    destruct (complete_kept important fuel l s f d ch) with (tree := tree)
      as (ch' & h' & Hloop & Hpruned & Hit' & Hpost); [|done..|].
    { eapply Forall_impl; [exact IH|]. intros c Hc. apply Hc. }
    rewrite Hloop. exists (LBranch l s f d ch'), h'. split_and!.
    + done.
    + by constructor.
    + done.
    + destruct Hpost as (_ & _ & _ & _ & _ & Hframe').
      cbn [lloc]. rewrite list_insert_id by done. rewrite Hframe'; [done..|].
      intros ->. apply Hpt, (lloc_locs (LBranch l s f d ch)).
    + destruct Hpost as (He' & Hs' & Hh' & Hlen' & Hprov' & Hframe').
      unfold complete_post. split_and!; try done. intros x Hx Hxt _.
      apply Hframe'; [done..|]. intros ->. apply Hxt, (lloc_locs (LBranch l s f d ch)).
  - (* the branch gives way to a new leaf *)
    rewrite (get_stats_branch _ _ _ _ _ _ Hl), bind_Ok.
    rewrite (create_new_leaf_child _ _ _ _ Hp), bind_Ok. cbn [node_depth].
    apply lookup_lt_Some in Hindex as Hilt.
    rewrite (setitem_children_branch _ p index _ ps pf pd pch), bind_Ok;
      [|by rewrite store_with_store, lookup_app_l|done].
    rewrite store_with_store.
    set (new := HTLeaf s (pd + 1) true).
    set (h' := <[p := DTBranch ps pf pd (<[index := length (store tree)]> pch)]>
                 (store tree ++ [new])).
    exists (LLeaf (length (store tree)) s (pd + 1) true), h'.
    unfold complete_post. split_and!.
    + done.
    + by constructor.
    + constructor.
    + unfold h'. apply list_lookup_insert_eq. rewrite length_app. lia.
    + apply embeds_LLeaf. unfold h'. rewrite list_lookup_insert_ne by lia.
      by rewrite list_lookup_middle.
    + apply NoDup_singleton.
    + cbn. lia.
    + unfold h'. rewrite length_insert, length_app. lia.
    + intros x Hx. apply list_elem_of_singleton in Hx as ->. right. done.
    + intros x Hx Hxt Hxp. unfold h'. rewrite list_lookup_insert_ne by done.
      by rewrite lookup_app_l.
Qed.

End complete_correct.

(** ** Theorems on the pruners *)

(** C1. Selective pruning of a tree whose root is a branch. On a tree
    object that holds the located tree [t], [SelectivePruner.prune_tree]
    returns a tree object whose root is the root of [t'], the result of the
    postorder walk of the specification ([selective_pruned]): the children
    of a branch are pruned first; a branch on an unimportant feature is
    replaced by the pruned child of highest average promise (the own
    promise of a leaf, the unweighted mean over the leaves of a branch, as
    Python's arithmetic computes it), the first such child on a tie; a
    branch on an important feature is kept with its pruned children as
    children. The store afterwards holds [t']. *)
Theorem selective_prune_tree_postorder `{Libraries}
    (important : list string) (fuel : nat) (tree : HoeffdingPruningTree) (t : ltree) :
  holds_tree tree t →
  is_LBranch t = true →
  branching t →
  height t ≤ fuel →
  important_features tree = Some important →
  ∃ tree' t',
    SelectivePruner.prune_tree fuel tree = Ok tree' ∧
    root tree' = Some (lloc t') ∧
    holds_tree tree' t' ∧
    selective_pruned important t t' ∧
    selective_post (store tree) t (store tree') t'.
Proof.
  intros (Hroot & He & Hsep) Hb Hbr Hfuel Himp.
  destruct (selective_step important t fuel tree) as (t' & h' & Hstep & Hpruned & Hpost);
    [done..|].
  rewrite (is_HTLeaf_embeds _ _ He), bind_Ok, Hb in Hstep. cbn [negb] in Hstep.
  exists (set_new_root (lloc t') (with_store h' tree)), t'.
  pose proof Hpost as (He' & Hsep' & _).
  split_and!; [|done|by unfold holds_tree|done|done].
  unfold SelectivePruner.prune_tree. rewrite Hroot.
  by rewrite (is_DTBranch_embeds _ _ He), bind_Ok, Hb, Hstep.
Qed.

Lemma selective_prune_tree_postorder_witness :
  ∃ tree' t',
    @SelectivePruner.prune_tree _ Examples.libraries_Q 5
      (Examples.scenario_tree Selective ["B"]) = Ok tree' ∧
    root tree' = Some (lloc t') ∧
    holds_tree tree' t' ∧
    selective_pruned ["B"] Examples.scenario_ltree t' ∧
    selective_post Examples.scenario_store Examples.scenario_ltree (store tree') t'.
Proof.
  apply (selective_prune_tree_postorder (H0 := Examples.libraries_Q)
           ["B"] 5 (Examples.scenario_tree Selective ["B"]) Examples.scenario_ltree).
  - split_and!; [reflexivity|repeat constructor|].
    apply (bool_decide_unpack _). vm_compute. exact I.
  - reflexivity.
  - unfold branching. cbn. repeat constructor.
  - cbn. lia.
  - reflexivity.
Defined.

(** One call of [prune_subtree] on a branch, by the cases of the code. *)
Section complete_cases.
Context `{Libraries}.

Lemma complete_prune_subtree_unimportant_root important fuel tree l s f d ch index :
  important_features tree = Some important →
  store tree !! l = Some (DTBranch s f d ch) →
  f ∉ important →
  CompletePruner.prune_subtree (S fuel) l None index tree =
  Ok (set_new_root (length (store tree))
        (with_store (store tree ++ [HTLeaf s 0 true]) tree)).
Proof.
  intros Himp Hl Hf. rewrite complete_prune_subtree_S.
  unfold is_DTBranch, deref. rewrite Hl, !bind_Ok.
  rewrite (get_feature_branch _ _ _ _ _ _ Hl), bind_Ok.
  rewrite (not_in_important_features_Some important), bind_Ok by done.
  rewrite bool_decide_eq_false_2 by done. cbn [negb].
  by rewrite (get_stats_branch _ _ _ _ _ _ Hl), bind_Ok.
Qed.

Lemma complete_prune_subtree_unimportant_child important fuel tree l s f d ch
    p index ps pf pd pch :
  important_features tree = Some important →
  store tree !! l = Some (DTBranch s f d ch) →
  f ∉ important →
  store tree !! p = Some (DTBranch ps pf pd pch) →
  index < length pch →
  CompletePruner.prune_subtree (S fuel) l (Some p) index tree =
  Ok (with_store
        (<[p := DTBranch ps pf pd (<[index := length (store tree)]> pch)]>
           (store tree ++ [HTLeaf s (pd + 1) true]))
        tree).
Proof.
  intros Himp Hl Hf Hp Hindex. rewrite complete_prune_subtree_S.
  unfold is_DTBranch, deref. rewrite Hl, !bind_Ok.
  rewrite (get_feature_branch _ _ _ _ _ _ Hl), bind_Ok.
  rewrite (not_in_important_features_Some important), bind_Ok by done.
  rewrite bool_decide_eq_false_2 by done. cbn [negb].
  rewrite (get_stats_branch _ _ _ _ _ _ Hl), bind_Ok.
  rewrite (create_new_leaf_child _ _ _ _ Hp), bind_Ok. cbn [node_depth].
  rewrite (setitem_children_branch _ p index _ ps pf pd pch), bind_Ok; [done| |done].
  rewrite store_with_store, lookup_app_l; [done|]. by apply lookup_lt_Some in Hp.
Qed.

Lemma complete_prune_subtree_important important fuel tree l s f d ch parent index :
  important_features tree = Some important →
  store tree !! l = Some (DTBranch s f d ch) →
  f ∈ important →
  CompletePruner.prune_subtree (S fuel) l parent index tree =
  for_range (λ i tree,
               children ← get_children (store tree) l;
               child ← py_getitem children i;
               CompletePruner.prune_subtree fuel child (Some l) i tree)
            0 (length ch) tree.
Proof.
  intros Himp Hl Hf. rewrite complete_prune_subtree_S.
  unfold is_DTBranch, deref. rewrite Hl, !bind_Ok.
  rewrite (get_feature_branch _ _ _ _ _ _ Hl), bind_Ok.
  rewrite (not_in_important_features_Some important), bind_Ok by done.
  rewrite bool_decide_eq_true_2 by done. cbn [negb].
  by rewrite (get_children_branch _ _ _ _ _ _ Hl), bind_Ok.
Qed.

End complete_cases.

(** One call of [prune_tree], for either pruner, on a tree object that
    holds a located tree. *)
Section prune_tree_returns.
Context `{Libraries}.

Lemma complete_prune_tree_first_pass important fuel tree t :
  holds_tree tree t →
  height t ≤ fuel →
  important_features tree = Some important →
  ∃ tree1 t1,
    CompletePruner.prune_tree fuel tree = Ok tree1 ∧
    holds_tree tree1 t1 ∧
    complete_pruned important t t1 ∧
    all_important important t1 ∧
    height t1 ≤ height t ∧
    important_features tree1 = Some important.
Proof.
  intros (Hroot & He & Hsep) Hfuel Himp.
  pose proof (is_DTBranch_embeds _ _ He) as Hb.
  unfold CompletePruner.prune_tree. rewrite Hroot, Hb, bind_Ok.
  destruct t as [l s d a|l s f d ch]; cbn [is_LBranch lloc] in *.
  { exists tree, (LLeaf l s d a). unfold holds_tree.
    split_and!; try done; constructor. }
  destruct fuel as [|fuel]; [cbn in Hfuel; lia|].
  pose proof He as [Hl Hech]%embeds_LBranch.
  destruct (decide (f ∈ important)) as [Hf|Hf].
  - destruct (complete_kept important fuel l s f d ch) with (tree := tree)
      as (ch' & h' & Hrun & Hpruned & Hit' & He' & Hsep' & Hh' & _); [|done..|].
    { apply Forall_forall. intros c _. apply complete_step. }
    rewrite (complete_prune_subtree_important important fuel tree l s f d (lloc <$> ch))
      by done.
    rewrite length_fmap, Hrun.
    exists (with_store h' tree), (LBranch l s f d ch').
    unfold holds_tree. split_and!; try done. by constructor.
  - rewrite (complete_prune_subtree_unimportant_root important fuel tree l s f d (lloc <$> ch))
      by done.
    exists (set_new_root (length (store tree))
              (with_store (store tree ++ [HTLeaf s 0 true]) tree)),
           (LLeaf (length (store tree)) s 0 true).
    unfold holds_tree. split_and!; try done.
    + apply embeds_LLeaf. cbn [store set_new_root with_store with_base base nodes].
      by rewrite list_lookup_middle.
    + apply NoDup_singleton.
    + by constructor.
    + constructor.
    + cbn. lia.
Qed.

Lemma selective_prune_tree_returns important fuel tree t :
  holds_tree tree t →
  branching t →
  height t ≤ fuel →
  important_features tree = Some important →
  ∃ tree1 t1,
    SelectivePruner.prune_tree fuel tree = Ok tree1 ∧
    holds_tree tree1 t1 ∧
    height t1 ≤ height t.
Proof.
  intros (Hroot & He & Hsep) Hbr Hfuel Himp.
  unfold SelectivePruner.prune_tree. rewrite Hroot.
  rewrite (is_DTBranch_embeds _ _ He), bind_Ok.
  destruct (is_LBranch t) eqn:Hb; [|by exists tree, t].
  destruct (selective_step important t fuel tree) as (t' & h' & Hstep & _ & Hpost);
    [done..|].
  rewrite (is_HTLeaf_embeds _ _ He), bind_Ok, Hb in Hstep. cbn [negb] in Hstep.
  destruct Hpost as (He' & Hsep' & _ & Hh' & _).
  rewrite Hstep, bind_Ok.
  exists (set_new_root (lloc t') (with_store h' tree)), t'. by unfold holds_tree.
Qed.

End prune_tree_returns.

(** C2. [CompletePruner.prune_subtree(node, parent, index)] on a branch.
    When the split feature of the branch is not important, the call
    allocates a new leaf that holds the statistics of the branch itself.
    Without a parent the new leaf is the root of the tree afterwards, and
    the store has gained the leaf and is otherwise as before. With a parent
    the new leaf is item [index] of the children of the parent, and the
    root is the one before. When the split feature is important, the call is the
    loop over the children of the branch that calls [prune_subtree] with the
    child as node, the branch as parent and the position as index; on a tree
    object that holds the subtree, the loop returns and leaves every child
    pruned in its place. *)
Theorem complete_prune_subtree_branch `{Libraries}
    (important : list string) (fuel : nat) (tree : HoeffdingPruningTree)
    (l : loc) (s : Stats) (f : string) (d : nat) (ch : list ltree)
    (parent : option loc) (index : nat) :
  important_features tree = Some important →
  embeds (store tree) (LBranch l s f d ch) →
  separated (LBranch l s f d ch) →
  height (LBranch l s f d ch) ≤ S fuel →
  (f ∉ important →
     match parent with
     | None =>
         ∃ tree',
           CompletePruner.prune_subtree (S fuel) l None index tree = Ok tree' ∧
           root tree' = Some (length (store tree)) ∧
           store tree' = store tree ++ [HTLeaf s 0 true] ∧
           tree' = set_new_root (length (store tree))
                     (with_store (store tree ++ [HTLeaf s 0 true]) tree)
     | Some p =>
         ∀ ps pf pd pch,
           store tree !! p = Some (DTBranch ps pf pd pch) →
           index < length pch →
           ∃ tree',
             CompletePruner.prune_subtree (S fuel) l (Some p) index tree = Ok tree' ∧
             root tree' = root tree ∧
             store tree' !! length (store tree) = Some (HTLeaf s (pd + 1) true) ∧
             store tree' !! p
               = Some (DTBranch ps pf pd (<[index := length (store tree)]> pch)) ∧
             tree' = with_store
                       (<[p := DTBranch ps pf pd (<[index := length (store tree)]> pch)]>
                          (store tree ++ [HTLeaf s (pd + 1) true]))
                       tree
     end) ∧
  (f ∈ important →
     CompletePruner.prune_subtree (S fuel) l parent index tree =
     for_range (λ i tree,
                  children ← get_children (store tree) l;
                  child ← py_getitem children i;
                  CompletePruner.prune_subtree fuel child (Some l) i tree)
               0 (length ch) tree ∧
     ∃ ch' h',
       CompletePruner.prune_subtree (S fuel) l parent index tree
         = Ok (with_store h' tree) ∧
       Forall2 (complete_pruned important) ch ch' ∧
       h' !! l = Some (DTBranch s f d (lloc <$> ch')) ∧
       Forall (embeds h') ch').
Proof.
  intros Himp He Hsep Hfuel.
  pose proof He as [Hl Hech]%embeds_LBranch.
  split; intros Hf.
  - destruct parent as [p|].
    + intros ps pf pd pch Hp Hindex.
      exists (with_store
                (<[p := DTBranch ps pf pd (<[index := length (store tree)]> pch)]>
                   (store tree ++ [HTLeaf s (pd + 1) true]))
                tree).
      split_and!; [|done| | |done].
      * by apply (complete_prune_subtree_unimportant_child important _ _ _ _ f d
                    (lloc <$> ch)).
      * pose proof (lookup_lt_Some _ _ _ Hp) as Hlt.
        rewrite store_with_store, list_lookup_insert_ne by (unfold loc in *; lia).
        by rewrite list_lookup_middle.
      * pose proof (lookup_lt_Some _ _ _ Hp) as Hlt.
        rewrite store_with_store. apply list_lookup_insert_eq.
        rewrite length_app. cbn. unfold loc in *. lia.
    + exists (set_new_root (length (store tree))
                (with_store (store tree ++ [HTLeaf s 0 true]) tree)).
      split_and!; [|done|done|done].
      by apply (complete_prune_subtree_unimportant_root important _ _ _ _ f d (lloc <$> ch)).
  - pose proof (complete_prune_subtree_important important fuel tree l s f d (lloc <$> ch)
                  parent index Himp Hl Hf) as Hloop.
    rewrite length_fmap in Hloop. split; [done|].
    destruct (complete_kept important fuel l s f d ch) with (tree := tree)
      as (ch' & h' & Hrun & Hpruned & Hit' & He' & _); [|done..|].
    { apply Forall_forall. intros c _. apply complete_step. }
    apply embeds_LBranch in He' as [Hl' Hech'].
    exists ch', h'. by rewrite Hloop, Hrun.
Qed.

Lemma complete_prune_subtree_branch_witness :
  let tree := Examples.scenario_tree Complete ["B"] in
  ∃ tree',
    @CompletePruner.prune_subtree _ Examples.libraries_Q 4 0 None 0 tree = Ok tree' ∧
    root tree' = Some (length (store tree)) ∧
    store tree' = store tree ++ [HTLeaf (10%Q : @Stats Examples.nodes_Q) 0 true] ∧
    tree' = set_new_root (length (store tree))
              (with_store (store tree ++ [HTLeaf (10%Q : @Stats Examples.nodes_Q) 0 true])
                 tree).
Proof.
  intros tree.
  refine (proj1 (complete_prune_subtree_branch
                   (H := Examples.nodes_Q) (H0 := Examples.libraries_Q)
                   ["B"] 3 tree 0 (10%Q : @Stats Examples.nodes_Q) "A" 0
                   [LBranch 1 (5%Q : @Stats Examples.nodes_Q) "B" 1
                      [LLeaf 2 ((2 # 10) : @Stats Examples.nodes_Q) 2 true;
                       LLeaf 3 ((7 # 10) : @Stats Examples.nodes_Q) 2 false];
                    LLeaf 4 ((1 # 10) : @Stats Examples.nodes_Q) 1 true]
                   None 0 _ _ _ _) _).
  - reflexivity.
  - repeat constructor.
  - apply (bool_decide_unpack _). vm_compute. exact I.
  - cbn. lia.
  - apply (bool_decide_unpack _). vm_compute. exact I.
Defined.

(** C5. Idempotence of the complete pruner. On a tree object that holds a
    located tree, [CompletePruner.prune_tree] returns a tree object on which
    a second call, with the same important features, returns that very
    object: it changes neither the store nor the root. After the first call
    the tree object holds the pruned tree, and every branch of it splits on
    an important feature. *)
Theorem complete_prune_tree_idempotent `{Libraries}
    (important : list string) (fuel : nat) (tree : HoeffdingPruningTree) (t : ltree) :
  holds_tree tree t →
  height t ≤ fuel →
  important_features tree = Some important →
  ∃ tree1 t1,
    CompletePruner.prune_tree fuel tree = Ok tree1 ∧
    CompletePruner.prune_tree fuel tree1 = Ok tree1 ∧
    holds_tree tree1 t1 ∧
    complete_pruned important t t1 ∧
    all_important important t1.
Proof.
  intros Hholds Hfuel Himp.
  destruct (complete_prune_tree_first_pass important fuel tree t Hholds Hfuel Himp)
    as (tree1 & t1 & Hfirst & Hholds1 & Hpruned & Hclean & Hh1 & Himp1).
  exists tree1, t1. split_and!; try done.
  destruct Hholds1 as (Hroot1 & He1 & _).
  unfold CompletePruner.prune_tree. rewrite Hroot1.
  rewrite (is_DTBranch_embeds _ _ He1), bind_Ok.
  destruct (is_LBranch t1); [|done].
  apply (complete_prune_subtree_clean important); try done. lia.
Qed.

Lemma complete_prune_tree_idempotent_witness :
  ∃ tree1 t1,
    @CompletePruner.prune_tree _ Examples.libraries_Q 5 (Examples.scenario_tree Complete ["A"])
      = Ok tree1 ∧
    CompletePruner.prune_tree 5 tree1 = Ok tree1 ∧
    holds_tree tree1 t1 ∧
    complete_pruned ["A"] Examples.scenario_ltree t1 ∧
    all_important ["A"] t1.
Proof.
  apply (complete_prune_tree_idempotent (H0 := Examples.libraries_Q)
           ["A"] 5 (Examples.scenario_tree Complete ["A"]) Examples.scenario_ltree).
  - split_and!; [reflexivity|repeat constructor|].
    apply (bool_decide_unpack _). vm_compute. exact I.
  - cbn. lia.
  - reflexivity.
Defined.

(** ** The pruners change the base-class fields only *)

Lemma bind_Ok_inv {A B} (m : result A) (f : A → result B) (b : B) :
  (m ≫= f) = Ok b → ∃ a, m = Ok a ∧ f a = Ok b.
Proof. destruct m as [a|e]; [eauto|done]. Qed.

Section fields.
Context `{Libraries}.
Implicit Types (tree self : HoeffdingPruningTree).

Lemma same_fields_refl self : same_fields self self.
Proof. unfold same_fields. by destruct self. Qed.

Lemma same_fields_trans self1 self2 self3 :
  same_fields self1 self2 → same_fields self2 self3 → same_fields self1 self3.
Proof. unfold same_fields. intros -> ->. done. Qed.

Lemma same_fields_with_base b self : same_fields self (with_base b self).
Proof. done. Qed.

Lemma same_fields_with_store h self : same_fields self (with_store h self).
Proof. done. Qed.

Lemma same_fields_set_new_root r self : same_fields self (set_new_root r self).
Proof. done. Qed.

Lemma mapM_state_same_fields {A B} (f : A → HoeffdingPruningTree → result (B * HoeffdingPruningTree))
    (l : list A) tree bs tree' :
  (∀ a t b t', f a t = Ok (b, t') → same_fields t t') →
  mapM_state f l tree = Ok (bs, tree') → same_fields tree tree'.
Proof.
  intros Hf. revert tree bs tree'. induction l as [|a l IH]; intros tree bs tree'; cbn.
  - intros [= <- <-]. apply same_fields_refl.
  - intros ([b t1] & Hstep & Hrest)%bind_Ok_inv.
    apply bind_Ok_inv in Hrest as ([bs' t2] & Hrest & [= <- <-]).
    eapply same_fields_trans; [by eapply Hf|by eapply IH].
Qed.

Lemma for_range_same_fields (body : nat → HoeffdingPruningTree → result HoeffdingPruningTree)
    i n tree tree' :
  (∀ j t t', body j t = Ok t' → same_fields t t') →
  for_range body i n tree = Ok tree' → same_fields tree tree'.
Proof.
  intros Hbody. revert i tree. induction n as [|n IH]; intros i tree; cbn.
  - intros [= <-]. apply same_fields_refl.
  - intros (t1 & Hstep & Hrest)%bind_Ok_inv.
    eapply same_fields_trans; [by eapply Hbody|by eapply IH].
Qed.

Lemma selective_prune_subtree_same_fields fuel :
  ∀ node tree r tree',
    SelectivePruner.prune_subtree fuel node tree = Ok (r, tree') → same_fields tree tree'.
Proof.
  induction fuel as [|fuel IH]; intros node tree r tree'; [done|].
  rewrite selective_prune_subtree_S.
  intros (children & _ & Hrun)%bind_Ok_inv.
  apply bind_Ok_inv in Hrun as ([pruned tree1] & Hloop & Hrun).
  apply bind_Ok_inv in Hrun as (feature & _ & Hrun).
  apply bind_Ok_inv in Hrun as (unimportant & _ & Hrun).
  assert (Hfields : same_fields tree tree1).
  { eapply mapM_state_same_fields; [|exact Hloop]. cbn beta.
    intros a t b t' (leaf & _ & Hstep)%bind_Ok_inv.
    destruct leaf; cbn [negb] in Hstep.
    - injection Hstep as <- <-. apply same_fields_refl.
    - by eapply IH. }
  destruct unimportant.
  - apply bind_Ok_inv in Hrun as (child & _ & [= <- <-]). done.
  - apply bind_Ok_inv in Hrun as (h & _ & [= <- <-]).
    eapply same_fields_trans; [done|apply same_fields_with_store].
Qed.

Lemma selective_prune_tree_same_fields fuel tree tree' :
  SelectivePruner.prune_tree fuel tree = Ok tree' → same_fields tree tree'.
Proof.
  unfold SelectivePruner.prune_tree. destruct (root tree) as [r|].
  - intros ([] & _ & Hrun)%bind_Ok_inv.
    + apply bind_Ok_inv in Hrun as ([new_root tree1] & Hrun & [= <-]).
      eapply same_fields_trans; [by eapply selective_prune_subtree_same_fields|].
      apply same_fields_set_new_root.
    + injection Hrun as <-. apply same_fields_refl.
  - intros [= <-]. apply same_fields_refl.
Qed.

Lemma complete_prune_subtree_same_fields fuel :
  ∀ node parent index tree tree',
    CompletePruner.prune_subtree fuel node parent index tree = Ok tree' →
    same_fields tree tree'.
Proof.
  induction fuel as [|fuel IH]; intros node parent index tree tree'; [done|].
  rewrite complete_prune_subtree_S.
  intros ([] & _ & Hrun)%bind_Ok_inv; [|injection Hrun as <-; apply same_fields_refl].
  apply bind_Ok_inv in Hrun as (feature & _ & Hrun).
  apply bind_Ok_inv in Hrun as ([] & _ & Hrun).
  - apply bind_Ok_inv in Hrun as (stats & _ & Hrun).
    apply bind_Ok_inv in Hrun as ([new_leaf tree1] & Hnew & Hrun).
    assert (Hfields : same_fields tree tree1).
    { unfold create_new_leaf, _new_leaf in Hnew.
      apply bind_Ok_inv in Hnew as (depth & _ & [= _ <-]).
      apply same_fields_with_store. }
    destruct parent as [p|].
    + apply bind_Ok_inv in Hrun as (h & _ & [= <-]).
      eapply same_fields_trans; [done|apply same_fields_with_store].
    + injection Hrun as <-.
      eapply same_fields_trans; [done|apply same_fields_set_new_root].
  - apply bind_Ok_inv in Hrun as (children & _ & Hrun).
    eapply for_range_same_fields; [|exact Hrun]. cbn beta.
    intros j t t' (children' & _ & Hstep)%bind_Ok_inv.
    apply bind_Ok_inv in Hstep as (child & _ & Hstep). by eapply IH.
Qed.

Lemma complete_prune_tree_same_fields fuel tree tree' :
  CompletePruner.prune_tree fuel tree = Ok tree' → same_fields tree tree'.
Proof.
  unfold CompletePruner.prune_tree. destruct (root tree) as [r|].
  - intros ([] & _ & Hrun)%bind_Ok_inv.
    + by eapply complete_prune_subtree_same_fields.
    + injection Hrun as <-. apply same_fields_refl.
  - intros [= <-]. apply same_fields_refl.
Qed.

Lemma pruner_prune_tree_same_fields fuel self self' :
  pruner_prune_tree fuel self = Ok self' → same_fields self self'.
Proof.
  unfold pruner_prune_tree. destruct (pruner self).
  - apply selective_prune_tree_same_fields.
  - apply complete_prune_tree_same_fields.
Qed.

Lemma _update_leaf_counts_same_fields fuel self self' :
  _update_leaf_counts fuel self = Ok self' → same_fields self self'.
Proof.
  unfold _update_leaf_counts. destruct (_root (base self)) as [r|]; [|done].
  intros (leaves & _ & Hrun)%bind_Ok_inv.
  apply bind_Ok_inv in Hrun as (n_active & _ & Hrun).
  apply bind_Ok_inv in Hrun as (n_inactive & _ & [= <-]).
  apply same_fields_with_base.
Qed.

End fields.

(** ** The controller *)

Section controller_facts.
Context `{Libraries}.
Implicit Types (self : HoeffdingPruningTree).

Lemma same_fields_proj self self' :
  same_fields self self' →
  incremental_pfi self' = incremental_pfi self ∧
  importance_threshold self' = importance_threshold self ∧
  feature_names self' = feature_names self ∧
  important_features self' = important_features self ∧
  last_important_features self' = last_important_features self ∧
  pruner self' = pruner self ∧
  prune_tree_calls self' = prune_tree_calls self.
Proof. unfold same_fields. by intros ->. Qed.

Lemma same_fields_important_set self self' :
  same_fields self self' → important_set self' = important_set self.
Proof. unfold same_fields, important_set. by intros ->. Qed.

Lemma mapM_result_negb (f : loc → result bool) (l : list loc) (flags : list bool) :
  mapM_result f l = Ok flags →
  mapM_result (λ x, negb <$> f x) l = Ok (negb <$> flags).
Proof.
  revert flags. induction l as [|a l IH]; intros flags; cbn.
  - by intros [= <-].
  - intros (b & Hb & Hrest)%bind_Ok_inv.
    apply bind_Ok_inv in Hrest as (bs & Hbs & [= <-]).
    rewrite Hb. cbn. by rewrite (IH bs).
Qed.


(** What [_update_ipfi] writes. *)
Lemma _update_ipfi_spec x y self self' :
  _update_ipfi x y self = Ok self' →
  ∃ ipfi,
    incremental_pfi self' = Some ipfi ∧
    base self' = base self ∧
    importance_threshold self' = importance_threshold self ∧
    feature_names self' = feature_names self ∧
    last_important_features self' = last_important_features self ∧
    pruner self' = pruner self ∧
    prune_tree_calls self' = prune_tree_calls self ∧
    important_features self' =
      if existsb (λ kv, meets_threshold self kv.2) (importance_values ipfi)
      then Some (filter (λ kv, meets_threshold self kv.2 = true) (importance_values ipfi)).*1
      else feature_names self.
Proof.
  unfold _update_ipfi.
  destruct (incremental_pfi self) as [ipfi|]; [|done].
  destruct (pfi_plotter self) as [plotter|]; [|done].
  destruct (explain_one ipfi (base self) x y) as [inc_fi_pfi ipfi'].
  intros [= <-]. by exists ipfi'.
Qed.

(** The steps of a call of [learn_one] that returns. *)
Lemma learn_one_inv fuel x y w self self' :
  learn_one fuel x y w self = Ok self' →
  ∃ started updated mid s,
    (incremental_pfi self ≠ None → started = self) ∧
    (incremental_pfi self = None →
       last_important_features started = Some (list_to_set x.*1) ∧
       feature_names started = Some x.*1) ∧
    prune_tree_calls started = prune_tree_calls self ∧
    _update_ipfi x y started = Ok updated ∧
    important_set updated = Ok s ∧
    (last_important_features updated ≠ Some s →
       ∃ pruned,
         pruner_prune_tree fuel (count_prune_tree_call updated) = Ok pruned ∧
         _update_leaf_counts fuel pruned = Ok mid) ∧
    (last_important_features updated = Some s → mid = updated) ∧
    (incremental_pfi mid = incremental_pfi updated ∧
     importance_threshold mid = importance_threshold updated ∧
     feature_names mid = feature_names updated ∧
     important_features mid = important_features updated ∧
     prune_tree_calls mid =
       prune_tree_calls updated +
       (if decide (last_important_features updated = Some s) then 0 else 1)) ∧
    self' = with_base (super_learn_one x y 1%Q (base mid))
              (set_last_important_features (Some s) mid).
Proof.
  unfold learn_one.
  intros (started & Hstart & Hrun)%bind_Ok_inv.
  assert (Hstarted :
    (incremental_pfi self ≠ None → started = self) ∧
    (incremental_pfi self = None →
       last_important_features started = Some (list_to_set x.*1) ∧
       feature_names started = Some x.*1) ∧
    prune_tree_calls started = prune_tree_calls self).
  { destruct (decide (incremental_pfi self = None)) as [Hnone|Hsome].
    - cbn zeta in Hstart. unfold _create_ipfi in Hstart. cbn in Hstart.
      injection Hstart as <-. by split_and!.
    - injection Hstart as <-. by split_and!. }
  clear Hstart. destruct Hstarted as (Hstarted1 & Hstarted2 & Hstarted3).
  apply bind_Ok_inv in Hrun as (updated & Hupdate & Hrun).
  apply bind_Ok_inv in Hrun as (s & Hs & Hrun).
  apply bind_Ok_inv in Hrun as (mid & Hmid & Hrun).
  apply bind_Ok_inv in Hrun as (s' & Hs' & [= <-]).
  assert (Hmid' :
    (last_important_features updated ≠ Some s →
       ∃ pruned,
         pruner_prune_tree fuel (count_prune_tree_call updated) = Ok pruned ∧
         _update_leaf_counts fuel pruned = Ok mid) ∧
    (last_important_features updated = Some s → mid = updated) ∧
    (incremental_pfi mid = incremental_pfi updated ∧
     importance_threshold mid = importance_threshold updated ∧
     feature_names mid = feature_names updated ∧
     important_features mid = important_features updated ∧
     prune_tree_calls mid =
       prune_tree_calls updated +
       (if decide (last_important_features updated = Some s) then 0 else 1))).
  { destruct (decide (last_important_features updated ≠ Some s)) as [Hdiff|Hdiff].
    - apply bind_Ok_inv in Hmid as (pruned & Hprune & Hcount).
      split; [by eauto|]. split; [done|].
      apply pruner_prune_tree_same_fields, same_fields_proj in Hprune
        as (Hp1 & Hp2 & Hp3 & Hp4 & _ & _ & Hp7).
      apply _update_leaf_counts_same_fields, same_fields_proj in Hcount
        as (Hc1 & Hc2 & Hc3 & Hc4 & _ & _ & Hc7).
      rewrite Hc1, Hc2, Hc3, Hc4, Hc7, Hp1, Hp2, Hp3, Hp4, Hp7.
      rewrite decide_False by done. cbn. split_and!; done || lia.
    - injection Hmid as <-. apply dec_stable in Hdiff.
      rewrite decide_True by done. split_and!; done || lia. }
  destruct Hmid' as (Hpruned & Hkept & Hfields).
  assert (Hsame : important_set mid = important_set updated).
  { unfold important_set. by destruct Hfields as (_ & _ & _ & -> & _). }
  rewrite Hsame, Hs in Hs'. injection Hs' as <-.
  by exists started, updated, mid, s.
Qed.

Lemma holds_tree_base self1 self2 t :
  base self1 = base self2 → holds_tree self1 t → holds_tree self2 t.
Proof. unfold holds_tree, root, store. by intros ->. Qed.

Lemma _update_leaf_counts_returns fuel self t :
  holds_tree self t → height t ≤ fuel →
  ∃ self', _update_leaf_counts fuel self = Ok self'.
Proof.
  intros (Hroot & He & _) Hfuel. unfold _update_leaf_counts.
  unfold root in Hroot. rewrite Hroot.
  rewrite (iter_leaves_embeds _ _ _ He Hfuel), bind_Ok.
  set (flag := λ leaf : ltree,
         match leaf with LLeaf _ _ _ a => a | LBranch _ _ _ _ _ => false end).
  assert (Hflags : mapM_result (is_active (store self)) (lloc <$> leaves t)
                   = Ok (flag <$> leaves t)).
  { apply mapM_result_fmap, Forall_forall. intros leaf Hleaf.
    unfold is_active, deref. rewrite (leaves_embedded _ _ _ He Hleaf).
    pose proof (leaves_are_leaves _ _ Hleaf). by destruct leaf. }
  unfold count_leaves. rewrite Hflags, !bind_Ok.
  rewrite (mapM_result_negb _ _ _ Hflags), !bind_Ok. by eexists.
Qed.

Lemma pruner_prune_tree_returns important fuel self t :
  holds_tree self t →
  (pruner self = Selective → branching t) →
  height t ≤ fuel →
  important_features self = Some important →
  ∃ self' t',
    pruner_prune_tree fuel self = Ok self' ∧ holds_tree self' t' ∧ height t' ≤ height t.
Proof.
  intros Hholds Hbr Hfuel Himp. unfold pruner_prune_tree.
  destruct (pruner self).
  - apply (selective_prune_tree_returns important); auto.
  - destruct (complete_prune_tree_first_pass important fuel self t)
      as (self' & t' & Hrun & Hholds' & _ & _ & Hh & _); [done..|].
    by exists self', t'.
Qed.

(** A call of [learn_one] on a tree object that is ready returns. *)
Lemma learn_one_returns fuel x y w self t :
  ready fuel self t → ∃ self', learn_one fuel x y w self = Ok self'.
Proof.
  intros (Hholds & Hfuel & Hbr & Hinit). unfold learn_one.
  match goal with
  | |- ∃ _, mbind _ ?m = _ =>
      assert (∃ started ipfi plotter names,
        m = Ok started ∧
        incremental_pfi started = Some ipfi ∧
        pfi_plotter started = Some plotter ∧
        feature_names started = Some names ∧
        base started = base self ∧
        pruner started = pruner self)
        as (started & ipfi & plotter & names & Hstart & Hi & Hp & Hn & Hbase & Hkind)
  end.
  { destruct Hinit as [Hnone|(ipfi & plotter & names & Hi & Hp & Hn)].
    - rewrite decide_True by done. cbn zeta. unfold _create_ipfi. cbn.
      eexists _, _, _, _. by split_and!.
    - rewrite decide_False by congruence. exists self, ipfi, plotter, names.
      by split_and!. }
  rewrite Hstart, bind_Ok. clear Hstart.
  assert (∃ updated fs,
    _update_ipfi x y started = Ok updated ∧
    important_features updated = Some fs ∧
    base updated = base started ∧
    pruner updated = pruner started)
    as (updated & fs & Hupdate & Hfs & Hbase' & Hkind').
  { unfold _update_ipfi. rewrite Hi, Hp.
    destruct (explain_one ipfi (base started) x y) as [values ipfi'].
    rewrite Hn. destruct (existsb _ _); eexists _, _; by split_and!. }
  assert (Hset : important_set updated = Ok (list_to_set fs)).
  { unfold important_set. by rewrite Hfs. }
  rewrite Hupdate, bind_Ok, Hset, bind_Ok.
  destruct (decide (last_important_features updated ≠ Some (list_to_set fs))) as [Hdiff|Hdiff].
  - destruct (pruner_prune_tree_returns fs fuel (count_prune_tree_call updated) t)
      as (pruned & t' & Hprune & Hholds' & Hh'); [| |done|done|].
    { apply (holds_tree_base self); [|done]. cbn. congruence. }
    { cbn. rewrite Hkind', Hkind. exact Hbr. }
    destruct (_update_leaf_counts_returns fuel pruned t') as (counted & Hcount);
      [done|lia|].
    rewrite Hprune, bind_Ok, Hcount, bind_Ok.
    apply pruner_prune_tree_same_fields, same_fields_important_set in Hprune.
    apply _update_leaf_counts_same_fields, same_fields_important_set in Hcount.
    rewrite Hcount, Hprune. change (important_set (count_prune_tree_call updated))
      with (important_set updated). rewrite Hset, bind_Ok. by eexists.
  - rewrite bind_Ok, Hset, bind_Ok. by eexists.
Qed.

End controller_facts.

(** ** Theorems on the controller *)

Lemma existsb_elem_of {A} (P : A → bool) (l : list A) :
  existsb P l = true ↔ ∃ a, a ∈ l ∧ P a = true.
Proof.
  rewrite existsb_exists. split; intros (a & Ha & HP); exists a; split; try done;
    by apply list_elem_of_In.
Qed.





(** C9. The pruner kind at construction. A pruner kind other than
    "selective" and "complete" makes [__init__] raise a [ValueError] whose
    message names the given value and the two valid options, so that no
    tree object exists that could process an observation; with each of the
    two valid kinds [__init__] returns a tree object with the corresponding
    pruner. *)
Theorem init_pruner_kind `{Libraries}
    (super_init : HoeffdingTreeClassifier Internals) (threshold : Q)
    (kind : string) (seed : option Z) :
  kind ≠ "selective" →
  kind ≠ "complete" →
  (∃ msg,
     __init__ super_init threshold kind seed = Raise (ValueError msg) ∧
     msg = "Invalid pruner type: " +:+ kind
           +:+ ". Valid options are 'selective' or 'complete'.") ∧
  (∃ self, __init__ super_init threshold "selective" seed = Ok self ∧
           pruner self = Selective) ∧
  (∃ self, __init__ super_init threshold "complete" seed = Ok self ∧
           pruner self = Complete).
Proof.
  intros Hs Hc. split_and!.
  - eexists. split; [|done]. unfold __init__, _set_pruner.
    by rewrite !decide_False.
  - by eexists.
  - by eexists.
Qed.

Lemma init_pruner_kind_witness :
  ∃ msg,
    @__init__ _ Examples.libraries_Q (base (Examples.scenario_tree Complete []))
      (5 # 100) "greedy" None = Raise (ValueError msg) ∧
    msg = "Invalid pruner type: greedy. Valid options are 'selective' or 'complete'.".
Proof.
  refine (proj1 (init_pruner_kind (H0 := Examples.libraries_Q)
                   (base (Examples.scenario_tree Complete [])) (5 # 100) "greedy" None _ _)).
  - discriminate.
  - discriminate.
Defined.

(** C10. [learn_one] ignores [sample_weight]. For every observation and
    every two weights the two calls give the same result, whole tree object
    included; whatever weight the caller gives, river's update runs with
    weight 1. *)
Theorem learn_one_ignores_sample_weight `{Libraries}
    (fuel : nat) (x : list (string * Value)) (y : Label) (w1 w2 : Q)
    (self : HoeffdingPruningTree) :
  learn_one fuel x y w1 self = learn_one fuel x y w2 self ∧
  match learn_one fuel x y w1 self with
  | Ok self' =>
      ∃ mid, same_fields mid self' ∧ base self' = super_learn_one x y 1%Q (base mid)
  | Raise _ => True
  end.
Proof.
  split; [done|].
  destruct (learn_one fuel x y w1 self) as [self'|] eqn:Hlearn; [|done].
  apply learn_one_inv in Hlearn
    as (started & updated & mid & s & _ & _ & _ & _ & _ & _ & _ & _ & ->).
  exists (set_last_important_features (Some s) mid). split; [|done].
  apply same_fields_with_base.
Qed.

(** ** The reservoirs *)

Lemma py_setitem_int_in_range {A} (l : list A) (i : Z) (v : A) :
  (0 ≤ i < Z.of_nat (length l))%Z →
  py_setitem_int l i v = Ok (<[Z.to_nat i := v]> l).
Proof. intros Hi. unfold py_setitem_int. by rewrite decide_True. Qed.

Section geometric_facts.
Context `{NumpyRandom} {A B : Type}.
Implicit Types (self : GeometricReservoirStorage.t A B).
Import GeometricReservoirStorage.

(** While below capacity, [update] appends. *)
Lemma geometric_update_append x y self :
  (Z.of_nat (length (_storage_x self)) < size self)%Z →
  ∃ self',
    update x y self = Ok self' ∧
    size self' = size self ∧
    store_targets self' = store_targets self ∧
    constant_probability self' = constant_probability self ∧
    _storage_x self' = _storage_x self ++ [x] ∧
    _storage_y self' = (if store_targets self then _storage_y self ++ [y]
                        else _storage_y self) ∧
    rng self' = rng self ∧
    decisions self' = decisions self ++ [Appended].
Proof.
  intros Hlt. unfold update. rewrite decide_True by done. eexists. by split_and!.
Qed.

(** At capacity, [update] draws a float, and replaces the item of a drawn
    slot if the float is at most [constant_probability]. *)
Lemma geometric_update_full x y self :
  randint_in_range →
  (0 < size self)%Z →
  Z.of_nat (length (_storage_x self)) = size self →
  (store_targets self = true → length (_storage_y self) = length (_storage_x self)) →
  ∃ self',
    update x y self = Ok self' ∧
    size self' = size self ∧
    store_targets self' = store_targets self ∧
    constant_probability self' = constant_probability self ∧
    ((rng_random (rng self)).1 <= constant_probability self →
       ∃ rand_idx g,
         rng_randint (size self) (rng_random (rng self)).2 = Ok (rand_idx, g) ∧
         (0 ≤ rand_idx < size self)%Z ∧
         _storage_x self' = <[Z.to_nat rand_idx := x]> (_storage_x self) ∧
         _storage_y self' = (if store_targets self
                             then <[Z.to_nat rand_idx := y]> (_storage_y self)
                             else _storage_y self) ∧
         rng self' = g ∧
         decisions self' = decisions self ++ [Replaced rand_idx])%Q ∧
    (¬ ((rng_random (rng self)).1 <= constant_probability self)%Q →
       _storage_x self' = _storage_x self ∧
       _storage_y self' = _storage_y self ∧
       rng self' = (rng_random (rng self)).2 ∧
       decisions self' = decisions self ++ [Dropped]).
Proof.
  intros Hrandint Hsize Hfull Htargets. unfold update.
  rewrite decide_False by lia.
  destruct (rng_random (rng self)) as [random_float g1] eqn:Hdraw. cbn [fst snd].
  destruct (Qle_bool random_float (constant_probability self)) eqn:Hle.
  - destruct (Hrandint (size self) g1 Hsize) as (rand_idx & g2 & Hidx & Hrange).
    rewrite Hidx, bind_Ok.
    rewrite (py_setitem_int_in_range (_storage_x self)), bind_Ok by lia.
    destruct (store_targets self) eqn:Hst.
    + rewrite (py_setitem_int_in_range (_storage_y self)), bind_Ok
        by (rewrite Htargets by done; lia).
      eexists. split_and!; try done.
      * intros _. exists rand_idx, g2. split_and!; done || lia.
      * intros Hnot. by apply Qle_bool_iff in Hle.
    + rewrite bind_Ok. eexists. split_and!; try done.
      * intros _. exists rand_idx, g2. split_and!; done || lia.
      * intros Hnot. by apply Qle_bool_iff in Hle.
  - eexists. split_and!; try done.
    intros Hyes%Qle_bool_iff. congruence.
Qed.

Lemma geometric_update_well_formed x y self :
  randint_in_range → (0 < size self)%Z → well_formed self →
  ∃ self',
    update x y self = Ok self' ∧
    well_formed self' ∧
    size self' = size self ∧
    Z.of_nat (length (_storage_x self')) =
      Z.min (size self) (Z.of_nat (length (_storage_x self)) + 1) ∧
    ((Z.of_nat (length (_storage_x self)) < size self)%Z →
       _storage_x self' = _storage_x self ++ [x]) ∧
    (¬ (Z.of_nat (length (_storage_x self)) < size self)%Z →
       length (_storage_x self') = length (_storage_x self)).
Proof.
  intros Hrandint Hsize [Hlen Htargets].
  destruct (decide (Z.of_nat (length (_storage_x self)) < size self)%Z) as [Hlt|Hge].
  - destruct (geometric_update_append x y self Hlt)
      as (self' & Hup & Hsz & Hst & _ & Hx & Hy & _).
    exists self'. unfold well_formed. rewrite Hsz, Hst, Hx, Hy, !length_app. cbn.
    split_and!; try done; try lia.
    intros Htrue. rewrite Htrue, length_app. cbn. rewrite Htargets by done. lia.
  - destruct (geometric_update_full x y self) as (self' & Hup & Hsz & Hst & _ & Hin & Hout);
      [done|done|lia|done|].
    assert (Hlens : length (_storage_x self') = length (_storage_x self) ∧
                    length (_storage_y self') = length (_storage_y self)).
    { destruct (Qle_bool (rng_random (rng self)).1 (constant_probability self)) eqn:Hle.
      - apply Qle_bool_iff in Hle.
        destruct (Hin Hle) as (i & g & _ & _ & -> & -> & _).
        rewrite length_insert. by destruct (store_targets self); rewrite ?length_insert.
      - destruct Hout as (-> & -> & _); [|done].
        intros Hyes%Qle_bool_iff. congruence. }
    destruct Hlens as [Hlx Hly].
    exists self'. unfold well_formed. rewrite Hsz, Hst, Hlx, Hly.
    split_and!; try done; lia.
Qed.

Lemma geometric_updates_well_formed (items : list (A * option B)) :
  randint_in_range →
  ∀ self,
    (0 < size self)%Z → well_formed self →
    ∃ self',
      updates items self = Ok self' ∧
      well_formed self' ∧
      size self' = size self ∧
      Z.of_nat (length (_storage_x self')) =
        Z.min (size self) (Z.of_nat (length (_storage_x self)) + Z.of_nat (length items)).
Proof.
  intros Hrandint. induction items as [|[x y] items IH]; intros self Hsize Hwf.
  - exists self. destruct Hwf as [Hlen ?]. cbn. split_and!; try done. lia.
  - destruct (geometric_update_well_formed x y self) as (self1 & Hup & Hwf1 & Hsz1 & Hlen1 & _);
      [done..|].
    destruct (IH self1) as (self' & Hups & Hwf' & Hsz' & Hlen'); [lia|done|].
    exists self'. cbn [updates]. rewrite Hup, bind_Ok, Hups.
    split_and!; [done|done|congruence|].
    rewrite Hlen', Hlen1, Hsz1. cbn [length]. lia.
Qed.

End geometric_facts.

Section uniform_facts.
Context `{NumpyRandom} `{NumpyFloat} {A B : Type}.
Implicit Types (self : UniformReservoirStorage.t A B).
Import UniformReservoirStorage.

Lemma uniform_update_well_formed x y self :
  randint_in_range → (0 < size self)%Z → well_formed self →
  ∃ self',
    update x y self = Ok self' ∧
    well_formed self' ∧
    size self' = size self ∧
    stored_samples self' = (stored_samples self + 1)%Z ∧
    ((Z.of_nat (length (_storage_x self)) < size self)%Z →
       _storage_x self' = _storage_x self ++ [x]) ∧
    (¬ (Z.of_nat (length (_storage_x self)) < size self)%Z →
       length (_storage_x self') = length (_storage_x self)).
Proof.
  intros Hrandint Hsize (Hseen & Hlen & Htargets). unfold update.
  destruct (decide (stored_samples self + 1 ≤ size self)%Z) as [Hle|Hgt].
  - eexists. split; [done|]. unfold well_formed. cbn. rewrite !length_app. cbn.
    split_and!; try done; try lia.
    intros Htrue. rewrite Htrue, length_app. cbn. rewrite Htargets by done. lia.
  - destruct (f_eqb (_algo_l_counter self) (of_int (stored_samples self + 1))).
    + destruct (draw_skip (_algo_wt self) (rng self)) as [skip g1].
      destruct (Hrandint (size self) g1 Hsize) as (rand_idx & g2 & Hidx & Hrange).
      rewrite Hidx, bind_Ok.
      rewrite (py_setitem_int_in_range (_storage_x self)), bind_Ok by lia.
      destruct (draw_weight (size self) g2) as [wt g3].
      destruct (store_targets self) eqn:Hst.
      * rewrite (py_setitem_int_in_range (_storage_y self)), bind_Ok
          by (rewrite Htargets by done; lia).
        eexists. split; [done|]. unfold well_formed. cbn. rewrite !length_insert.
        split_and!; try done; try lia.
      * rewrite bind_Ok. eexists. split; [done|]. unfold well_formed. cbn.
        rewrite !length_insert. split_and!; try done; try lia.
    + eexists. split; [done|]. unfold well_formed. cbn.
      split_and!; try done; try lia.
Qed.

Lemma uniform_updates_well_formed (items : list (A * option B)) :
  randint_in_range →
  ∀ self,
    (0 < size self)%Z → well_formed self →
    ∃ self',
      updates items self = Ok self' ∧
      well_formed self' ∧
      size self' = size self ∧
      stored_samples self' = (stored_samples self + Z.of_nat (length items))%Z.
Proof.
  intros Hrandint. induction items as [|[x y] items IH]; intros self Hsize Hwf.
  - exists self. cbn. split_and!; try done. lia.
  - destruct (uniform_update_well_formed x y self) as (self1 & Hup & Hwf1 & Hsz1 & Hseen1 & _);
      [done..|].
    destruct (IH self1) as (self' & Hups & Hwf' & Hsz' & Hseen'); [lia|done|].
    exists self'. cbn [updates]. rewrite Hup, bind_Ok, Hups.
    split_and!; [done|done|congruence|].
    rewrite Hseen', Hseen1. cbn [length]. lia.
Qed.

Lemma uniform_init_well_formed (size : Z) store_targets seed entropy :
  (0 < size)%Z →
  well_formed (__init__ (A := A) (B := B) size store_targets seed entropy) ∧
  UniformReservoirStorage.size (__init__ (A := A) (B := B) size store_targets seed entropy)
    = size ∧
  stored_samples (__init__ (A := A) (B := B) size store_targets seed entropy) = 0%Z ∧
  _storage_x (__init__ (A := A) (B := B) size store_targets seed entropy) = [].
Proof.
  intros Hsize. unfold __init__.
  destruct (draw_weight size _) as [wt g1]. destruct (draw_skip wt g1) as [skip g2].
  unfold well_formed. cbn. split_and!; try done. lia.
Qed.

End uniform_facts.

(** ** Theorems on the reservoirs *)

Lemma lcg_randint_in_range : @randint_in_range Examples.lcg.
Proof.
  intros high g Hhigh. exists (Examples.lcg_next g mod high)%Z, (Examples.lcg_next g).
  split.
  - cbn. by rewrite decide_True.
  - by apply Z.mod_pos_bound.
Qed.

(** C6. The capacity invariant of both reservoirs. With a positive
    capacity, every sequence of [update] calls on a new reservoir returns;
    the number of stored items is then the smaller of the capacity and the
    number of calls, hence never above the capacity; and the next call
    appends its item while the reservoir is below capacity and leaves the
    number of stored items as it is once the reservoir is at capacity. *)
Theorem reservoir_capacity `{NumpyRandom} `{NumpyFloat} {A B : Type}
    (size : Z) (constant_probability : option Q) (store_targets : bool)
    (seed : option Z) (entropy : Entropy)
    (items : list (A * option B)) (x : A) (y : option B) :
  randint_in_range →
  (0 < size)%Z →
  (∃ g0 g g',
     GeometricReservoirStorage.__init__ size constant_probability store_targets seed entropy
       = Ok g0 ∧
     GeometricReservoirStorage.updates items g0 = Ok g ∧
     GeometricReservoirStorage.update x y g = Ok g' ∧
     Z.of_nat (length (GeometricReservoirStorage._storage_x g))
       = Z.min size (Z.of_nat (length items)) ∧
     (Z.of_nat (length (GeometricReservoirStorage._storage_x g)) ≤ size)%Z ∧
     ((Z.of_nat (length items) < size)%Z →
        GeometricReservoirStorage._storage_x g'
          = GeometricReservoirStorage._storage_x g ++ [x]) ∧
     ((size ≤ Z.of_nat (length items))%Z →
        length (GeometricReservoirStorage._storage_x g')
          = length (GeometricReservoirStorage._storage_x g))) ∧
  (∃ u u',
     UniformReservoirStorage.updates items
       (UniformReservoirStorage.__init__ size store_targets seed entropy) = Ok u ∧
     UniformReservoirStorage.update x y u = Ok u' ∧
     Z.of_nat (length (UniformReservoirStorage._storage_x u))
       = Z.min size (Z.of_nat (length items)) ∧
     (Z.of_nat (length (UniformReservoirStorage._storage_x u)) ≤ size)%Z ∧
     ((Z.of_nat (length items) < size)%Z →
        UniformReservoirStorage._storage_x u'
          = UniformReservoirStorage._storage_x u ++ [x]) ∧
     ((size ≤ Z.of_nat (length items))%Z →
        length (UniformReservoirStorage._storage_x u')
          = length (UniformReservoirStorage._storage_x u))).
Proof.
  intros Hrandint Hsize. split.
  - assert (∃ g0 : GeometricReservoirStorage.t A B,
      GeometricReservoirStorage.__init__ size constant_probability store_targets seed entropy
        = Ok g0 ∧
      GeometricReservoirStorage.size g0 = size ∧
      GeometricReservoirStorage._storage_x g0 = [] ∧
      GeometricReservoirStorage._storage_y g0 = []) as (g0 & Hinit & Hsz0 & Hx0 & Hy0).
    { unfold GeometricReservoirStorage.__init__. destruct constant_probability as [p|].
      - eexists. by split_and!.
      - rewrite decide_False by lia. eexists. by split_and!. }
    assert (Hwf0 : GeometricReservoirStorage.well_formed g0).
    { unfold GeometricReservoirStorage.well_formed. rewrite Hsz0, Hx0, Hy0. cbn.
      split; [lia|done]. }
    destruct (geometric_updates_well_formed items Hrandint g0)
      as (g & Hrun & Hwf & Hsz & Hlen); [lia|done|].
    destruct (geometric_update_well_formed x y g Hrandint)
      as (g' & Hup & _ & _ & _ & Happend & Hkeep); [lia|done|].
    rewrite Hsz0, Hx0 in Hlen. cbn in Hlen. rewrite Hsz, Hsz0 in Happend, Hkeep.
    exists g0, g, g'. split_and!; try done; try lia.
    intros Hlt. apply Happend. lia.
  - destruct (uniform_init_well_formed (A := A) (B := B) size store_targets seed entropy Hsize)
      as (Hwf0 & Hsz0 & Hseen0 & Hx0).
    destruct (uniform_updates_well_formed items Hrandint
                (UniformReservoirStorage.__init__ size store_targets seed entropy))
      as (u & Hrun & Hwf & Hsz & Hseen); [lia|done|].
    destruct (uniform_update_well_formed x y u Hrandint)
      as (u' & Hup & _ & _ & _ & Happend & Hkeep); [lia|done|].
    destruct Hwf as (_ & Hlen & _).
    rewrite Hsz, Hsz0 in *. rewrite Hseen0 in Hseen. rewrite Hseen in Hlen.
    exists u, u'. split_and!; try done; try lia.
    intros Hlt. apply Happend. lia.
Qed.

Lemma reservoir_capacity_witness :
  (∃ g0 g g',
     @GeometricReservoirStorage.__init__ Examples.lcg nat nat 2 None false (Some 1%Z) 0%Z
       = Ok g0 ∧
     GeometricReservoirStorage.updates [(1, None); (2, None); (3, None)] g0 = Ok g ∧
     GeometricReservoirStorage.update 4 None g = Ok g' ∧
     Z.of_nat (length (GeometricReservoirStorage._storage_x g)) = Z.min 2 (Z.of_nat 3) ∧
     (Z.of_nat (length (GeometricReservoirStorage._storage_x g)) ≤ 2)%Z ∧
     ((Z.of_nat 3 < 2)%Z →
        GeometricReservoirStorage._storage_x g'
          = GeometricReservoirStorage._storage_x g ++ [4]) ∧
     ((2 ≤ Z.of_nat 3)%Z →
        length (GeometricReservoirStorage._storage_x g')
          = length (GeometricReservoirStorage._storage_x g))) ∧
  (∃ u u',
     UniformReservoirStorage.updates [(1, None); (2, None); (3, None)]
       (@UniformReservoirStorage.__init__ Examples.lcg Examples.float_Q nat nat
          2 false (Some 1%Z) 0%Z) = Ok u ∧
     UniformReservoirStorage.update 4 None u = Ok u' ∧
     Z.of_nat (length (UniformReservoirStorage._storage_x u)) = Z.min 2 (Z.of_nat 3) ∧
     (Z.of_nat (length (UniformReservoirStorage._storage_x u)) ≤ 2)%Z ∧
     ((Z.of_nat 3 < 2)%Z →
        UniformReservoirStorage._storage_x u'
          = UniformReservoirStorage._storage_x u ++ [4]) ∧
     ((2 ≤ Z.of_nat 3)%Z →
        length (UniformReservoirStorage._storage_x u')
          = length (UniformReservoirStorage._storage_x u))).
Proof.
  apply (reservoir_capacity (H := Examples.lcg) (H0 := Examples.float_Q) (A := nat) (B := nat)
           2 None false (Some 1%Z) 0%Z [(1, None); (2, None); (3, None)] 4 None).
  - exact lcg_randint_in_range.
  - lia.
Defined.

(** C7, as the claim states it, fails. The geometric reservoir of capacity
    2 with the default probability 1/2 is full after the items 1 and 2.
    With a generator whose next float is 1/2 (the stand-in generator made
    from seed 1; [random()] of numpy returns multiples of 2^-53 in [[0, 1)],
    1/2 among them), the call for the item 3 draws a float that is not
    strictly below the probability, and yet it includes the item: slot 1
    now holds 3. *)
Lemma geometric_includes_on_equal_draw :
  (g ← @GeometricReservoirStorage.__init__ Examples.lcg nat nat 2 None false (Some 1%Z) 0%Z;
   GeometricReservoirStorage.updates [(1, None); (2, None)] g) = Ok Examples.geometric_full ∧
  ¬ ((@rng_random Examples.lcg
        (GeometricReservoirStorage.rng Examples.geometric_full)).1
     < GeometricReservoirStorage.constant_probability Examples.geometric_full)%Q ∧
  GeometricReservoirStorage.update 3 None Examples.geometric_full
    = Ok Examples.geometric_third.
Proof.
  split_and!.
  - reflexivity.
  - intros Hlt. vm_compute in Hlt. discriminate.
  - reflexivity.
Qed.

(** C7, amended. In the geometric reservoir at capacity, a call of
    [update] draws one float from the generator and includes the new item
    if and only if the float is less than or equal to the constant
    probability. If it includes the item, it draws a slot in
    [[0, capacity)] and overwrites that slot with the item (and the slot of
    the target lists with the target, when targets are stored); if not, the
    two lists are left as they are. The constant probability is the one
    given at construction and [1 / capacity] when none is given. *)
Theorem geometric_update_at_capacity `{NumpyRandom} {A B : Type}
    (self : GeometricReservoirStorage.t A B) (x : A) (y : option B) :
  randint_in_range →
  (0 < GeometricReservoirStorage.size self)%Z →
  Z.of_nat (length (GeometricReservoirStorage._storage_x self))
    = GeometricReservoirStorage.size self →
  (GeometricReservoirStorage.store_targets self = true →
     length (GeometricReservoirStorage._storage_y self)
       = length (GeometricReservoirStorage._storage_x self)) →
  (∃ self',
     GeometricReservoirStorage.update x y self = Ok self' ∧
     (((rng_random (GeometricReservoirStorage.rng self)).1
         <= GeometricReservoirStorage.constant_probability self)%Q →
        ∃ rand_idx g,
          rng_randint (GeometricReservoirStorage.size self)
            (rng_random (GeometricReservoirStorage.rng self)).2 = Ok (rand_idx, g) ∧
          (0 ≤ rand_idx < GeometricReservoirStorage.size self)%Z ∧
          GeometricReservoirStorage._storage_x self'
            = <[Z.to_nat rand_idx := x]> (GeometricReservoirStorage._storage_x self) ∧
          GeometricReservoirStorage._storage_y self'
            = (if GeometricReservoirStorage.store_targets self
               then <[Z.to_nat rand_idx := y]> (GeometricReservoirStorage._storage_y self)
               else GeometricReservoirStorage._storage_y self) ∧
          GeometricReservoirStorage.rng self' = g ∧
          GeometricReservoirStorage.decisions self'
            = GeometricReservoirStorage.decisions self ++ [Replaced rand_idx]) ∧
     (¬ ((rng_random (GeometricReservoirStorage.rng self)).1
           <= GeometricReservoirStorage.constant_probability self)%Q →
        GeometricReservoirStorage._storage_x self'
          = GeometricReservoirStorage._storage_x self ∧
        GeometricReservoirStorage._storage_y self'
          = GeometricReservoirStorage._storage_y self ∧
        GeometricReservoirStorage.rng self'
          = (rng_random (GeometricReservoirStorage.rng self)).2 ∧
        GeometricReservoirStorage.decisions self'
          = GeometricReservoirStorage.decisions self ++ [Dropped])) ∧
  (∀ (p : Q) store_targets seed entropy,
     ∃ self0 : GeometricReservoirStorage.t A B,
       GeometricReservoirStorage.__init__ (GeometricReservoirStorage.size self) (Some p)
         store_targets seed entropy = Ok self0 ∧
       GeometricReservoirStorage.constant_probability self0 = p) ∧
  (∀ store_targets seed entropy,
     ∃ self0 : GeometricReservoirStorage.t A B,
       GeometricReservoirStorage.__init__ (GeometricReservoirStorage.size self) None
         store_targets seed entropy = Ok self0 ∧
       GeometricReservoirStorage.constant_probability self0
         = (1 / inject_Z (GeometricReservoirStorage.size self))%Q).
Proof.
  intros Hrandint Hsize Hfull Htargets. split_and!.
  - destruct (geometric_update_full x y self Hrandint Hsize Hfull Htargets)
      as (self' & Hup & _ & _ & _ & Hin & Hout).
    by exists self'.
  - intros p st seed entropy. by eexists.
  - intros st seed entropy. unfold GeometricReservoirStorage.__init__.
    rewrite decide_False by lia. by eexists.
Qed.

Lemma geometric_update_at_capacity_witness :
  ∃ self',
    GeometricReservoirStorage.update 3 None Examples.geometric_full = Ok self' ∧
    GeometricReservoirStorage._storage_x self' = [1; 3].
Proof.
  destruct (geometric_update_at_capacity (H := Examples.lcg) Examples.geometric_full 3 None)
    as ((self' & Hup & Hin & _) & _).
  - exact lcg_randint_in_range.
  - reflexivity.
  - reflexivity.
  - discriminate.
  - exists self'. split; [exact Hup|].
    destruct Hin as (rand_idx & g & Hidx & _ & Hx & _).
    + vm_compute. discriminate.
    + rewrite Hx. injection Hidx as <- _. reflexivity.
Defined.

(** ** The draws decide *)



Section draws_decide.
Context `{NumpyRandom} {A B : Type} (R : RandomState → RandomState → Prop).



End draws_decide.

Section draws_decide_uniform.
Context `{NumpyRandom} `{NumpyFloat} {A B : Type} (R : RandomState → RandomState → Prop).





End draws_decide_uniform.



(* ===================================================================== *)
(** * Part III: further properties of the code                            *)
(* ===================================================================== *)

(** ** The pruners on trees that need no pruning *)

Lemma Forall2_Forall_r {A B} (R : A → B → Prop) (Q : B → Prop) (l : list A) (k : list B) :
  Forall (λ a, ∀ b, R a b → Q b) l → Forall2 R l k → Forall Q k.
Proof.
  intros Hl HR. induction HR as [|a b l k Hab _ IH]; [constructor|].
  apply Forall_cons in Hl as [Ha Hl]. constructor; auto.
Qed.

Lemma Forall2_Forall_impl {A B} (R Q : A → B → Prop) (l : list A) (k : list B) :
  Forall (λ a, ∀ b, R a b → Q a b) l → Forall2 R l k → Forall2 Q l k.
Proof.
  intros Hl HR. induction HR as [|a b l k Hab _ IH]; [constructor|].
  apply Forall_cons in Hl as [Ha Hl]. constructor; auto.
Qed.

Lemma mapM_state_fixed {A St} (f : A → St → result (A * St)) (l : list A) (s : St) :
  Forall (λ a, f a s = Ok (a, s)) l → mapM_state f l s = Ok (l, s).
Proof.
  induction 1 as [|a l Ha _ IH]; [done|].
  rewrite mapM_state_cons, Ha, bind_Ok. cbn beta iota. by rewrite IH, bind_Ok.
Qed.

Section clean_trees.
Context `{Libraries}.

Lemma set_new_root_id r tree : root tree = Some r → set_new_root r tree = tree.
Proof.
  destruct tree as [[h r' na ni int] ? ? ? ? ? ? ? ? ?]. cbn. by intros ->.
Qed.

Lemma selective_pruned_all_important important (t : ltree) :
  ∀ t', selective_pruned important t t' → all_important important t'.
Proof.
  induction t as [l s d a|l s f d ch IH] using ltree_ind'; intros t' Hp; inversion Hp; subst.
  - constructor.
  - apply all_important_LBranch. split; [done|]. by eapply Forall2_Forall_r.
  - match goal with Hb : first_best _ _ |- _ => destruct Hb as (i & Hi & _) end.
    apply list_elem_of_lookup_2 in Hi.
    assert (Hall : Forall (all_important important) ch') by by eapply Forall2_Forall_r.
    rewrite Forall_forall in Hall. by apply Hall.
Qed.

(** On a subtree all of whose branches are important the selective pruner
    returns the node it was given and leaves the store as it is. *)
Lemma selective_prune_subtree_clean important (t : ltree) :
  ∀ fuel tree,
    embeds (store tree) t → all_important important t → is_LBranch t = true →
    height t ≤ fuel →
    important_features tree = Some important →
    SelectivePruner.prune_subtree fuel (lloc t) tree = Ok (lloc t, tree).
Proof.
  induction t as [l s d a|l s f d ch IH] using ltree_ind';
    intros fuel tree He Himp_t Hb Hfuel Himp; [done|].
  destruct fuel as [|fuel]; [cbn in Hfuel; lia|].
  apply embeds_LBranch in He as [Hl Hech].
  apply all_important_LBranch in Himp_t as [Hf Hch].
  rewrite selective_prune_subtree_S. cbn [lloc].
  rewrite (get_children_branch _ _ _ _ _ _ Hl), bind_Ok.
  rewrite mapM_state_fixed, bind_Ok; cbn beta iota.
  - rewrite (get_feature_branch _ _ _ _ _ _ Hl), bind_Ok.
    rewrite (not_in_important_features_Some important) by done. rewrite bind_Ok.
    rewrite bool_decide_eq_true_2 by done. cbn [negb].
    unfold assign_children, deref. rewrite Hl, !bind_Ok.
    rewrite list_insert_id by done. by rewrite with_store_id.
  - apply Forall_fmap, Forall_forall. intros c Hc. cbn.
    rewrite Forall_forall in IH, Hech, Hch.
    rewrite (is_HTLeaf_embeds _ _ (Hech c Hc)), bind_Ok.
    destruct (is_LBranch c) eqn:Hbc; cbn [negb]; [|done].
    apply IH; auto. pose proof (height_child l s f d ch c Hc). lia.
Qed.

Lemma selective_prune_tree_clean important fuel tree t :
  holds_tree tree t → all_important important t → height t ≤ fuel →
  important_features tree = Some important →
  SelectivePruner.prune_tree fuel tree = Ok tree.
Proof.
  intros (Hroot & He & Hsep) Himp_t Hfuel Himp.
  unfold SelectivePruner.prune_tree. rewrite Hroot.
  rewrite (is_DTBranch_embeds _ _ He), bind_Ok.
  destruct (is_LBranch t) eqn:Hb; [|done].
  rewrite (selective_prune_subtree_clean important) by done.
  rewrite bind_Ok. cbn beta iota. by rewrite set_new_root_id.
Qed.

Lemma complete_prune_tree_clean important fuel tree t :
  holds_tree tree t → all_important important t → height t ≤ fuel →
  important_features tree = Some important →
  CompletePruner.prune_tree fuel tree = Ok tree.
Proof.
  intros (Hroot & He & Hsep) Himp_t Hfuel Himp.
  unfold CompletePruner.prune_tree. rewrite Hroot.
  rewrite (is_DTBranch_embeds _ _ He), bind_Ok.
  destruct (is_LBranch t) eqn:Hb; [|done].
  by apply (complete_prune_subtree_clean important).
Qed.

(** The first pass of the selective pruner. *)
Lemma selective_prune_tree_first_pass important fuel tree t :
  holds_tree tree t →
  branching t →
  height t ≤ fuel →
  important_features tree = Some important →
  ∃ tree1 t1,
    SelectivePruner.prune_tree fuel tree = Ok tree1 ∧
    holds_tree tree1 t1 ∧
    selective_pruned important t t1 ∧
    branching t1 ∧
    height t1 ≤ height t ∧
    length (store tree1) = length (store tree) ∧
    important_features tree1 = Some important.
Proof.
  intros (Hroot & He & Hsep) Hbr Hfuel Himp.
  unfold SelectivePruner.prune_tree. rewrite Hroot.
  rewrite (is_DTBranch_embeds _ _ He), bind_Ok.
  destruct (selective_step important t fuel tree) as (t' & h' & Hstep & Hpruned & Hpost);
    [done..|].
  rewrite (is_HTLeaf_embeds _ _ He), bind_Ok in Hstep.
  destruct (is_LBranch t) eqn:Hb; cbn [negb] in Hstep.
  - destruct Hpost as (He' & Hsep' & Hbr' & Hh' & _ & Hlen' & _).
    rewrite Hstep, bind_Ok.
    exists (set_new_root (lloc t') (with_store h' tree)), t'. by unfold holds_tree.
  - injection Hstep as Hl Ht.
    destruct t as [l s d a|]; [|done]. inversion Hpruned; subst.
    exists tree, (LLeaf l s d a). unfold holds_tree. by split_and!.
Qed.

End clean_trees.

(** X1. The selective pruner is idempotent. On a tree object that holds a
    located tree whose branches have children, [SelectivePruner.prune_tree]
    returns a tree object all of whose branches split on an important
    feature, and a second call with the same important features returns
    that very object: it changes neither the store nor the root. *)
Theorem selective_prune_tree_idempotent `{Libraries}
    (important : list string) (fuel : nat) (tree : HoeffdingPruningTree) (t : ltree) :
  holds_tree tree t →
  branching t →
  height t ≤ fuel →
  important_features tree = Some important →
  ∃ tree1 t1,
    SelectivePruner.prune_tree fuel tree = Ok tree1 ∧
    SelectivePruner.prune_tree fuel tree1 = Ok tree1 ∧
    holds_tree tree1 t1 ∧
    selective_pruned important t t1 ∧
    all_important important t1.
Proof.
  intros Hholds Hbr Hfuel Himp.
  destruct (selective_prune_tree_first_pass important fuel tree t)
    as (tree1 & t1 & Hrun & Hholds1 & Hpruned & Hbr1 & Hh1 & _ & Himp1); [done..|].
  pose proof (selective_pruned_all_important _ _ _ Hpruned) as Hall.
  exists tree1, t1. split_and!; try done.
  apply (selective_prune_tree_clean important fuel tree1 t1); try done. lia.
Qed.

Lemma selective_prune_tree_idempotent_witness :
  ∃ tree1 t1,
    @SelectivePruner.prune_tree _ Examples.libraries_Q 5 (Examples.scenario_tree Selective ["A"])
      = Ok tree1 ∧
    SelectivePruner.prune_tree 5 tree1 = Ok tree1 ∧
    holds_tree tree1 t1 ∧
    selective_pruned ["A"] Examples.scenario_ltree t1 ∧
    all_important ["A"] t1.
Proof.
  apply (selective_prune_tree_idempotent (H0 := Examples.libraries_Q)
           ["A"] 5 (Examples.scenario_tree Selective ["A"]) Examples.scenario_ltree).
  - split_and!; [reflexivity|repeat constructor|].
    apply (bool_decide_unpack _). vm_compute. exact I.
  - unfold branching. cbn. repeat constructor.
  - cbn. lia.
  - reflexivity.
Defined.

(** X2. Pruning a tree that needs none. When every branch of the tree
    splits on an important feature (as it does whenever all features are
    important), [prune_tree] of either pruner returns the tree object it
    was given: no node is replaced, no leaf is created, and the root stays. *)
Theorem prune_tree_all_important `{Libraries}
    (important : list string) (fuel : nat) (tree : HoeffdingPruningTree) (t : ltree) :
  holds_tree tree t →
  all_important important t →
  height t ≤ fuel →
  important_features tree = Some important →
  SelectivePruner.prune_tree fuel tree = Ok tree ∧
  CompletePruner.prune_tree fuel tree = Ok tree ∧
  pruner_prune_tree fuel tree = Ok tree.
Proof.
  intros Hholds Hall Hfuel Himp.
  pose proof (selective_prune_tree_clean important fuel tree t Hholds Hall Hfuel Himp).
  pose proof (complete_prune_tree_clean important fuel tree t Hholds Hall Hfuel Himp).
  split_and!; try done. unfold pruner_prune_tree. by destruct (pruner tree).
Qed.

Lemma prune_tree_all_important_witness :
  let tree := Examples.scenario_tree Selective ["A"; "B"] in
  @SelectivePruner.prune_tree _ Examples.libraries_Q 5 tree = Ok tree ∧
  CompletePruner.prune_tree 5 tree = Ok tree ∧
  pruner_prune_tree 5 tree = Ok tree.
Proof.
  apply (prune_tree_all_important (H0 := Examples.libraries_Q)
           ["A"; "B"] 5 (Examples.scenario_tree Selective ["A"; "B"]) Examples.scenario_ltree).
  - split_and!; [reflexivity|repeat constructor|].
    apply (bool_decide_unpack _). vm_compute. exact I.
  - unfold all_important. cbn. repeat constructor.
  - cbn. lia.
  - reflexivity.
Defined.

(** ** The leaves after pruning *)

Lemma sublist_concat_elem {A} (l : list A) (ls : list (list A)) :
  l ∈ ls → l `sublist_of` concat ls.
Proof.
  induction ls as [|k ls IH]; [by intros ?%elem_of_nil|].
  intros [->|Hin]%elem_of_cons; cbn.
  - by apply sublist_inserts_r.
  - by apply sublist_inserts_l, IH.
Qed.

Lemma sublist_concat_Forall2 {A} (ks ls : list (list A)) :
  Forall2 sublist ks ls → concat ks `sublist_of` concat ls.
Proof. induction 1; cbn; [done|by apply sublist_app]. Qed.

Lemma length_concat_Forall2 {A B} (ks : list (list A)) (ls : list (list B)) :
  Forall2 (λ k l, length k ≤ length l) ks ls → length (concat ks) ≤ length (concat ls).
Proof. induction 1; cbn; [done|]. rewrite !length_app. lia. Qed.

Section leaves_after_pruning.
Context `{Libraries}.

Lemma selective_pruned_leaves important (t : ltree) :
  ∀ t', selective_pruned important t t' → leaves t' `sublist_of` leaves t.
Proof.
  induction t as [l s d a|l s f d ch IH] using ltree_ind'; intros t' Hp; inversion Hp; subst.
  - done.
  - cbn [leaves]. apply sublist_concat_Forall2.
    apply Forall2_fmap, Forall2_flip.
    eapply Forall2_Forall_impl; [|done]. exact IH.
  - match goal with Hb : first_best _ _ |- _ => destruct Hb as (i & Hi & _) end.
    apply list_elem_of_lookup_2 in Hi.
    cbn [leaves]. transitivity (concat (map leaves ch')).
    + apply sublist_concat_elem. by apply list_elem_of_fmap_2.
    + apply sublist_concat_Forall2. apply Forall2_fmap, Forall2_flip.
      eapply Forall2_Forall_impl; [|done]. exact IH.
Qed.

Lemma complete_pruned_leaves important (t : ltree) :
  ∀ t', branching t → complete_pruned important t t' →
    length (leaves t') ≤ length (leaves t) ∧
    Forall (λ leaf, leaf ∈ leaves t ∨ leaf_active leaf = true) (leaves t').
Proof.
  induction t as [l s d a|l s f d ch IH] using ltree_ind'; intros t' Hbr Hp;
    inversion Hp; subst.
  - split; [done|]. repeat constructor.
  - apply branching_LBranch in Hbr as [_ Hbr].
    assert (Hch : Forall2 (λ c c',
              length (leaves c') ≤ length (leaves c) ∧
              Forall (λ leaf, leaf ∈ leaves c ∨ leaf_active leaf = true) (leaves c')) ch ch').
    { eapply Forall2_Forall_impl; [|done].
      rewrite Forall_forall in IH, Hbr. apply Forall_forall. intros c Hc c' Hcc'.
      apply IH; auto. }
    split; cbn [leaves].
    + apply length_concat_Forall2, Forall2_fmap, Forall2_flip.
      eapply Forall2_impl; [exact Hch|]. by intros c c' [? _].
    + apply Forall_forall. intros leaf Hleaf.
      apply elem_of_concat in Hleaf as (ls & Hleaf & Hls).
      apply list_elem_of_fmap in Hls as (c' & -> & Hc').
      apply list_elem_of_lookup in Hc' as [i Hi].
      destruct (Forall2_lookup_r _ _ _ _ _ Hch Hi) as (c & Hc & _ & Hall).
      rewrite Forall_forall in Hall. destruct (Hall leaf Hleaf) as [Hold|Hact]; [left|by right].
      apply elem_of_concat. exists (leaves c). split; [done|].
      apply list_elem_of_fmap_2. by eapply list_elem_of_lookup_2.
  - split.
    + pose proof (leaves_nonempty _ Hbr) as Hne. cbn [leaves length] in *.
      destruct (concat (map leaves ch)); [done|cbn; lia].
    + cbn [leaves]. constructor; [by right|constructor].
Qed.

End leaves_after_pruning.

(** X3. The selective pruner neither creates nor alters a leaf. The leaves
    of the pruned tree are leaves of the tree before, each at its location
    and with its statistics, its depth and its activity, and in the order
    they had; at least one leaf remains, and no object has been added to
    the store. A subtree that moves up keeps the depths it had. *)
Theorem selective_prune_tree_leaves `{Libraries}
    (important : list string) (fuel : nat) (tree : HoeffdingPruningTree) (t : ltree) :
  holds_tree tree t →
  branching t →
  height t ≤ fuel →
  important_features tree = Some important →
  ∃ tree1 t1,
    SelectivePruner.prune_tree fuel tree = Ok tree1 ∧
    holds_tree tree1 t1 ∧
    leaves t1 `sublist_of` leaves t ∧
    0 < length (leaves t1) ≤ length (leaves t) ∧
    length (store tree1) = length (store tree).
Proof.
  intros Hholds Hbr Hfuel Himp.
  destruct (selective_prune_tree_first_pass important fuel tree t)
    as (tree1 & t1 & Hrun & Hholds1 & Hpruned & Hbr1 & Hh1 & Hlen & Himp1); [done..|].
  pose proof (selective_pruned_leaves _ _ _ Hpruned) as Hsub.
  exists tree1, t1. split_and!; try done.
  - pose proof (leaves_nonempty _ Hbr1). destruct (leaves t1); [done|cbn; lia].
  - by apply sublist_length.
Qed.

Lemma selective_prune_tree_leaves_witness :
  ∃ tree1 t1,
    @SelectivePruner.prune_tree _ Examples.libraries_Q 5 (Examples.scenario_tree Selective ["A"])
      = Ok tree1 ∧
    holds_tree tree1 t1 ∧
    leaves t1 `sublist_of` leaves Examples.scenario_ltree ∧
    0 < length (leaves t1) ≤ length (leaves Examples.scenario_ltree) ∧
    length (store tree1) = length (store (Examples.scenario_tree Selective ["A"])).
Proof.
  apply (selective_prune_tree_leaves (H0 := Examples.libraries_Q)
           ["A"] 5 (Examples.scenario_tree Selective ["A"]) Examples.scenario_ltree).
  - split_and!; [reflexivity|repeat constructor|].
    apply (bool_decide_unpack _). vm_compute. exact I.
  - unfold branching. cbn. repeat constructor.
  - cbn. lia.
  - reflexivity.
Defined.

(** X4. The complete pruner never grows the tree. On a tree whose branches
    have children, the pruned tree has at most as many leaves as the tree
    before and is at most as high; each of its leaves is a leaf of the tree
    before, unchanged, or a new leaf, and the new leaves are active: an
    inactive leaf of the result was an inactive leaf before. *)
Theorem complete_prune_tree_leaves `{Libraries}
    (important : list string) (fuel : nat) (tree : HoeffdingPruningTree) (t : ltree) :
  holds_tree tree t →
  branching t →
  height t ≤ fuel →
  important_features tree = Some important →
  ∃ tree1 t1,
    CompletePruner.prune_tree fuel tree = Ok tree1 ∧
    holds_tree tree1 t1 ∧
    length (leaves t1) ≤ length (leaves t) ∧
    height t1 ≤ height t ∧
    Forall (λ leaf, leaf ∈ leaves t ∨ leaf_active leaf = true) (leaves t1).
Proof.
  intros Hholds Hbr Hfuel Himp.
  destruct (complete_prune_tree_first_pass important fuel tree t)
    as (tree1 & t1 & Hrun & Hholds1 & Hpruned & _ & Hh1 & _); [done..|].
  destruct (complete_pruned_leaves important t t1) as [Hlen Hall]; [done..|].
  by exists tree1, t1.
Qed.

Lemma complete_prune_tree_leaves_witness :
  ∃ tree1 t1,
    @CompletePruner.prune_tree _ Examples.libraries_Q 5 (Examples.scenario_tree Complete ["A"])
      = Ok tree1 ∧
    holds_tree tree1 t1 ∧
    length (leaves t1) ≤ length (leaves Examples.scenario_ltree) ∧
    height t1 ≤ height Examples.scenario_ltree ∧
    Forall (λ leaf, leaf ∈ leaves Examples.scenario_ltree ∨ leaf_active leaf = true)
      (leaves t1).
Proof.
  apply (complete_prune_tree_leaves (H0 := Examples.libraries_Q)
           ["A"] 5 (Examples.scenario_tree Complete ["A"]) Examples.scenario_ltree).
  - split_and!; [reflexivity|repeat constructor|].
    apply (bool_decide_unpack _). vm_compute. exact I.
  - unfold branching. cbn. repeat constructor.
  - cbn. lia.
  - reflexivity.
Defined.

(** ** What the pruners never do *)

Lemma mapM_state_rel {A B St} (R : St → St → Prop)
    (f : A → St → result (B * St)) (l : list A) (s : St) (bs : list B) (s' : St) :
  (∀ s, R s s) → (∀ s1 s2 s3, R s1 s2 → R s2 s3 → R s1 s3) →
  (∀ a t b t', R s t → f a t = Ok (b, t') → R t t') →
  mapM_state f l s = Ok (bs, s') → R s s' ∧ length bs = length l.
Proof.
  intros Hrefl Htrans Hf. revert bs s'.
  assert (Hgen : ∀ t bs s', R s t → mapM_state f l t = Ok (bs, s') →
                            R s s' ∧ length bs = length l).
  { induction l as [|a l IH]; intros t bs s' Hst; cbn.
    - by intros [= <- <-].
    - intros ([b t1] & Hstep & Hrest)%bind_Ok_inv.
      apply bind_Ok_inv in Hrest as ([bs' t2] & Hrest & [= <- <-]).
      destruct (IH t1 bs' t2) as [? ?]; [by eauto|done|]. cbn. by auto. }
  intros bs s'. by apply Hgen.
Qed.

Lemma for_range_rel {St} (R : St → St → Prop)
    (body : nat → St → result St) (i n : nat) (s s' : St) :
  (∀ s, R s s) → (∀ s1 s2 s3, R s1 s2 → R s2 s3 → R s1 s3) →
  (∀ j t t', body j t = Ok t' → R t t') →
  for_range body i n s = Ok s' → R s s'.
Proof.
  intros Hrefl Htrans Hbody. revert i s. induction n as [|n IH]; intros i s; cbn.
  - by intros [= <-].
  - intros (t1 & Hstep & Hrest)%bind_Ok_inv. by eauto.
Qed.

Section kept_objects.
Context `{Libraries}.

Lemma same_shape_refl (n : node) : same_shape n n.
Proof. by destruct n. Qed.

Lemma same_shape_trans (n1 n2 n3 : node) :
  same_shape n1 n2 → same_shape n2 n3 → same_shape n1 n3.
Proof.
  destruct n1, n2, n3; cbn; try tauto.
  - intros (-> & -> & ->) (-> & -> & ->). done.
  - intros (-> & -> & -> & ->) (-> & -> & -> & ->). done.
Qed.

Lemma store_kept_refl (h : heap) : store_kept h h.
Proof. split; [done|]. intros l n Hl. exists n. split; [done|apply same_shape_refl]. Qed.

Lemma store_kept_trans (h1 h2 h3 : heap) :
  store_kept h1 h2 → store_kept h2 h3 → store_kept h1 h3.
Proof.
  intros [Hlen1 H1] [Hlen2 H2]. split; [lia|]. intros l n Hl.
  destruct (H1 l n Hl) as (n2 & Hl2 & Hs2). destruct (H2 l n2 Hl2) as (n3 & Hl3 & Hs3).
  exists n3. split; [done|]. by eapply same_shape_trans.
Qed.

Lemma store_kept_app (h : heap) (n : node) : store_kept h (h ++ [n]).
Proof.
  split; [rewrite length_app; lia|]. intros l n' Hl. exists n'.
  split; [|apply same_shape_refl]. by apply lookup_app_l_Some.
Qed.

Lemma store_kept_insert (h : heap) (l : loc) (n n' : node) :
  h !! l = Some n → same_shape n n' → store_kept h (<[l := n']> h).
Proof.
  intros Hl Hs. split; [by rewrite length_insert|]. intros l2 n2 Hl2.
  destruct (decide (l2 = l)) as [->|Hne].
  - exists n'. rewrite list_lookup_insert_eq by by eapply lookup_lt_Some.
    split; [done|]. unfold loc in *. rewrite Hl in Hl2. by injection Hl2 as <-.
  - exists n2. rewrite list_lookup_insert_ne by done. split; [done|apply same_shape_refl].
Qed.

Lemma get_children_inv (h : heap) l ch :
  get_children h l = Ok ch → ∃ s f d, h !! l = Some (DTBranch s f d ch).
Proof.
  unfold get_children, deref. destruct (h !! l) as [[s d a|s f d ch0]|]; cbn; [done| |done].
  intros [= ->]. by exists s, f, d.
Qed.

Lemma assign_children_inv (h h' : heap) l ch :
  assign_children h l ch = Ok h' →
  ∃ s f d ch0, h !! l = Some (DTBranch s f d ch0) ∧ h' = <[l := DTBranch s f d ch]> h.
Proof.
  unfold assign_children, deref. destruct (h !! l) as [[s d a|s f d ch0]|]; cbn; [done| |done].
  intros [= <-]. by exists s, f, d, ch0.
Qed.

Lemma setitem_children_inv (h h' : heap) p index child :
  setitem_children h p index child = Ok h' →
  ∃ s f d ch0, h !! p = Some (DTBranch s f d ch0) ∧ index < length ch0 ∧
               h' = <[p := DTBranch s f d (<[index := child]> ch0)]> h.
Proof.
  unfold setitem_children, deref. destruct (h !! p) as [[s d a|s f d ch0]|]; cbn; [done| |done].
  unfold py_setitem. destruct (decide (index < length ch0)); cbn; [|done].
  intros [= <-]. by exists s, f, d, ch0.
Qed.

Lemma create_new_leaf_inv stats parent tree l tree1 :
  create_new_leaf stats parent tree = Ok (l, tree1) →
  ∃ n, tree1 = with_store (store tree ++ [n]) tree.
Proof.
  unfold create_new_leaf, _new_leaf.
  intros (depth & _ & [= _ <-])%bind_Ok_inv. by eexists.
Qed.

(** [tree'] is [tree] up to the store, which keeps the objects of the
    store of [tree], and up to the root. *)
#[warnings="-inconsistent-scopes"]
Local Abbreviation pruned_from tree tree' :=
  (same_fields tree tree' ∧
   _n_active_leaves (base tree') = _n_active_leaves (base tree) ∧
   _n_inactive_leaves (base tree') = _n_inactive_leaves (base tree) ∧
   internals (base tree') = internals (base tree) ∧
   store_kept (store tree) (store tree')).

Lemma pruned_from_refl tree : pruned_from tree tree.
Proof. split_and!; try done; [apply same_fields_refl|apply store_kept_refl]. Qed.

Lemma selective_prune_subtree_pruned_from fuel :
  ∀ node tree r tree',
    SelectivePruner.prune_subtree fuel node tree = Ok (r, tree') →
    store_kept (store tree) (store tree') ∧
    length (store tree') = length (store tree) ∧
    tree' = with_store (store tree') tree.
Proof.
  induction fuel as [|fuel IH]; intros node tree r tree'; [done|].
  rewrite selective_prune_subtree_S.
  intros (children & Hch & Hrun)%bind_Ok_inv.
  apply bind_Ok_inv in Hrun as ([pruned tree1] & Hloop & Hrun).
  apply bind_Ok_inv in Hrun as (feature & _ & Hrun).
  apply bind_Ok_inv in Hrun as (unimportant & _ & Hrun).
  apply get_children_inv in Hch as (s & f & d & Hl).
  pose (R := λ t t' : HoeffdingPruningTree,
          store_kept (store t) (store t') ∧ length (store t') = length (store t) ∧
          t' = with_store (store t') t).
  assert (Hrefl : ∀ t, R t t).
  { intros t. unfold R. split_and!; [apply store_kept_refl|done|by rewrite with_store_id]. }
  assert (Htrans : ∀ t1 t2 t3, R t1 t2 → R t2 t3 → R t1 t3).
  { intros t1 t2 t3 (Hk1 & Hl1 & He1) (Hk2 & Hl2 & He2). unfold R. split_and!.
    - by eapply store_kept_trans.
    - congruence.
    - rewrite He2 at 1. rewrite He1 at 1. by rewrite with_store_with_store. }
  assert (Hr : R tree tree1 ∧ length pruned = length children).
  { eapply (mapM_state_rel R); [exact Hrefl|exact Htrans| |exact Hloop]. cbn beta.
    intros a t b t' _ (leaf & _ & Hstep)%bind_Ok_inv.
    destruct leaf; cbn [negb] in Hstep.
    - injection Hstep as <- <-. apply Hrefl.
    - by eapply IH. }
  destruct Hr as [(Hk1 & Hlen1 & He1) Hlenp].
  destruct unimportant.
  - apply bind_Ok_inv in Hrun as (child & _ & [= <- <-]). done.
  - apply bind_Ok_inv in Hrun as (h & Hassign & [= <- <-]).
    apply assign_children_inv in Hassign as (s1 & f1 & d1 & ch1 & Hl1 & ->).
    destruct Hk1 as [_ Hk1]. destruct (Hk1 _ _ Hl) as (n' & Hn' & Hshape).
    unfold loc in *. rewrite Hl1 in Hn'. injection Hn' as <-. cbn in Hshape.
    destruct Hshape as (-> & -> & -> & Hlen).
    rewrite store_with_store. split_and!.
    + apply (store_kept_trans _ (store tree1)); [split; [lia|exact Hk1]|].
      eapply store_kept_insert; [exact Hl1|]. cbn. split_and!; try done. unfold loc in *. lia.
    + rewrite length_insert. done.
    + transitivity (with_store (<[node := DTBranch s1 f1 d1 pruned]> (store tree1))
                      (with_store (store tree1) tree));
        [by rewrite <- He1|apply with_store_with_store].
Qed.

Lemma complete_prune_subtree_pruned_from fuel :
  ∀ node parent index tree tree',
    CompletePruner.prune_subtree fuel node parent index tree = Ok tree' →
    store_kept (store tree) (store tree') ∧
    ∃ r, tree' = with_base {| nodes := store tree';
                              _root := r;
                              _n_active_leaves := _n_active_leaves (base tree);
                              _n_inactive_leaves := _n_inactive_leaves (base tree);
                              internals := internals (base tree) |} tree.
Proof.
  pose (R := λ t t' : HoeffdingPruningTree,
          store_kept (store t) (store t') ∧
          ∃ r, t' = with_base {| nodes := store t';
                                 _root := r;
                                 _n_active_leaves := _n_active_leaves (base t);
                                 _n_inactive_leaves := _n_inactive_leaves (base t);
                                 internals := internals (base t) |} t).
  assert (Hrefl : ∀ t, R t t).
  { intros t. split; [apply store_kept_refl|]. exists (root t).
    by destruct t as [[] ? ? ? ? ? ? ? ? ?]. }
  assert (Htrans : ∀ t1 t2 t3, R t1 t2 → R t2 t3 → R t1 t3).
  { intros t1 t2 t3 (Hk1 & r1 & He1) (Hk2 & r2 & He2). split.
    - by eapply store_kept_trans.
    - exists r2. rewrite He2 at 1. rewrite He1 at 1 2 3 4. done. }
  assert (Hstore : ∀ t h, store_kept (store t) h → R t (with_store h t)).
  { intros t h Hk. split; [by rewrite store_with_store|]. exists (root t). done. }
  assert (Hroot : ∀ t r, R t (set_new_root r t)).
  { intros t r. split; [apply store_kept_refl|]. by exists (Some r). }
  change (∀ node parent index tree tree',
    CompletePruner.prune_subtree fuel node parent index tree = Ok tree' → R tree tree').
  induction fuel as [|fuel IH]; intros node parent index tree tree'; [done|].
  rewrite complete_prune_subtree_S.
  intros ([] & _ & Hrun)%bind_Ok_inv; [|injection Hrun as <-; apply Hrefl].
  apply bind_Ok_inv in Hrun as (feature & _ & Hrun).
  apply bind_Ok_inv in Hrun as ([] & _ & Hrun).
  - apply bind_Ok_inv in Hrun as (stats & _ & Hrun).
    apply bind_Ok_inv in Hrun as ([new_leaf tree1] & Hnew & Hrun).
    apply create_new_leaf_inv in Hnew as (n & ->).
    assert (H1 : R tree (with_store (store tree ++ [n]) tree)).
    { apply Hstore, store_kept_app. }
    destruct parent as [p|].
    + apply bind_Ok_inv in Hrun as (h & Hset & [= <-]).
      apply setitem_children_inv in Hset as (ps & pf & pd & pch & Hp & Hidx & ->).
      rewrite with_store_with_store. apply Hstore.
      rewrite store_with_store in Hp |- *.
      eapply store_kept_trans; [apply store_kept_app|].
      eapply store_kept_insert; [done|]. cbn. split_and!; try done.
      by rewrite length_insert.
    + injection Hrun as <-. eapply Htrans; [exact H1|apply Hroot].
  - apply bind_Ok_inv in Hrun as (children & _ & Hrun).
    eapply (for_range_rel R); [done|done| |exact Hrun]. cbn beta.
    intros j t t' (children' & _ & Hstep)%bind_Ok_inv.
    apply bind_Ok_inv in Hstep as (child & _ & Hstep). by eapply IH.
Qed.

Lemma selective_prune_tree_pruned_from fuel tree tree' :
  SelectivePruner.prune_tree fuel tree = Ok tree' →
  pruned_from tree tree' ∧ length (store tree') = length (store tree).
Proof.
  intros Hrun. pose proof (selective_prune_tree_same_fields _ _ _ Hrun) as Hfields.
  unfold SelectivePruner.prune_tree in Hrun. destruct (root tree) as [r|].
  - apply bind_Ok_inv in Hrun as ([] & _ & Hrun).
    + apply bind_Ok_inv in Hrun as ([new_root tree1] & Hrun & [= <-]).
      apply selective_prune_subtree_pruned_from in Hrun as (Hk & Hlen & He).
      split_and!; try done; rewrite He; done.
    + injection Hrun as <-. split; [apply pruned_from_refl|done].
  - injection Hrun as <-. split; [apply pruned_from_refl|done].
Qed.

Lemma complete_prune_tree_pruned_from fuel tree tree' :
  CompletePruner.prune_tree fuel tree = Ok tree' → pruned_from tree tree'.
Proof.
  intros Hrun. pose proof (complete_prune_tree_same_fields _ _ _ Hrun) as Hfields.
  unfold CompletePruner.prune_tree in Hrun. destruct (root tree) as [r|].
  - apply bind_Ok_inv in Hrun as ([] & _ & Hrun).
    + apply complete_prune_subtree_pruned_from in Hrun as (Hk & r' & He).
      split_and!; try done; rewrite He; done.
    + injection Hrun as <-. apply pruned_from_refl.
  - injection Hrun as <-. apply pruned_from_refl.
Qed.

(** *** Pruning before the important features are set *)

Lemma selective_prune_subtree_unset (t : ltree) :
  ∀ fuel tree,
    embeds (store tree) t → is_LBranch t = true → height t ≤ fuel →
    important_features tree = None →
    SelectivePruner.prune_subtree fuel (lloc t) tree = Raise TypeError.
Proof.
  induction t as [l s d a|l s f d ch IH] using ltree_ind';
    intros fuel tree He Hb Hfuel Himp; [done|].
  destruct fuel as [|fuel]; [cbn in Hfuel; lia|].
  apply embeds_LBranch in He as [Hl Hech].
  rewrite selective_prune_subtree_S. cbn [lloc].
  rewrite (get_children_branch _ _ _ _ _ _ Hl), bind_Ok.
  assert (Hfch : Forall (λ c, height c ≤ fuel) ch).
  { apply Forall_forall. intros c Hc.
    pose proof (height_child l s f d ch c Hc). lia. }
  assert (Hloop :
    mapM_state (λ child tree,
        leaf ← is_HTLeaf (store tree) child;
        if negb leaf then SelectivePruner.prune_subtree fuel child tree else Ok (child, tree))
      (lloc <$> ch) tree = Ok (lloc <$> ch, tree) ∨
    mapM_state (λ child tree,
        leaf ← is_HTLeaf (store tree) child;
        if negb leaf then SelectivePruner.prune_subtree fuel child tree else Ok (child, tree))
      (lloc <$> ch) tree = Raise TypeError).
  { clear Hl Hb Hfuel. induction ch as [|c ch IHch]; [by left|].
    apply Forall_cons in IH as [IHc IH]. apply Forall_cons in Hech as [Hec Hech].
    apply Forall_cons in Hfch as [Hfc Hfch].
    rewrite fmap_cons, mapM_state_cons.
    rewrite (is_HTLeaf_embeds _ _ Hec), bind_Ok.
    destruct (is_LBranch c) eqn:Hbc; cbn [negb].
    - right. by rewrite IHc.
    - rewrite bind_Ok. cbn beta iota.
      destruct (IHch IH Hech Hfch) as [-> | ->]; [left|right]; done. }
  destruct Hloop as [-> | ->]; [|done].
  rewrite bind_Ok. cbn beta iota.
  rewrite (get_feature_branch _ _ _ _ _ _ Hl), bind_Ok.
  unfold not_in_important_features. by rewrite Himp.
Qed.

End kept_objects.

(** X5. What pruning never does. For either pruner and any store, tree
    shaped or not: a call of [prune_tree] that returns has changed nothing
    of the tree object but the store and the root; the leaf counters are as
    they were. In the store every object is still at its location; a leaf
    is unchanged; a branch has its statistics, its feature, its depth and
    as many children as before. The selective pruner has added no object
    to the store. *)
Theorem prune_tree_keeps_objects `{Libraries}
    (fuel : nat) (tree tree' : HoeffdingPruningTree) :
  pruner_prune_tree fuel tree = Ok tree' →
  same_fields tree tree' ∧
  _n_active_leaves (base tree') = _n_active_leaves (base tree) ∧
  _n_inactive_leaves (base tree') = _n_inactive_leaves (base tree) ∧
  internals (base tree') = internals (base tree) ∧
  store_kept (store tree) (store tree') ∧
  (pruner tree = Selective → length (store tree') = length (store tree)).
Proof.
  unfold pruner_prune_tree. intros Hrun. destruct (pruner tree).
  - apply selective_prune_tree_pruned_from in Hrun as [(? & ? & ? & ? & ?) ?]. by split_and!.
  - apply complete_prune_tree_pruned_from in Hrun as (? & ? & ? & ? & ?). by split_and!.
Qed.

Lemma prune_tree_keeps_objects_witness :
  let tree := Examples.scenario_tree Complete ["A"] in
  let tree' := with_store Examples.scenario_store_complete tree in
  same_fields tree tree' ∧
  _n_active_leaves (base tree') = _n_active_leaves (base tree) ∧
  _n_inactive_leaves (base tree') = _n_inactive_leaves (base tree) ∧
  internals (base tree') = internals (base tree) ∧
  store_kept (store tree) (store tree') ∧
  (pruner tree = Selective → length (store tree') = length (store tree)).
Proof.
  apply (prune_tree_keeps_objects (H0 := Examples.libraries_Q) 5
           (Examples.scenario_tree Complete ["A"])
           (with_store Examples.scenario_store_complete
              (Examples.scenario_tree Complete ["A"]))).
  reflexivity.
Defined.

(** X6. Pruning before the important features are set. While
    [important_features] is still [None], [prune_tree] of either pruner
    raises a [TypeError] on a tree whose root is a branch, from the test
    [feature not in None], and returns the tree object unchanged when the
    root is a leaf. *)
Theorem prune_tree_unset_important_features `{Libraries}
    (fuel : nat) (tree : HoeffdingPruningTree) (t : ltree) :
  holds_tree tree t →
  height t ≤ fuel →
  important_features tree = None →
  SelectivePruner.prune_tree fuel tree = (if is_LBranch t then Raise TypeError else Ok tree) ∧
  CompletePruner.prune_tree fuel tree = (if is_LBranch t then Raise TypeError else Ok tree).
Proof.
  intros (Hroot & He & Hsep) Hfuel Himp.
  unfold SelectivePruner.prune_tree, CompletePruner.prune_tree. rewrite Hroot.
  rewrite (is_DTBranch_embeds _ _ He), bind_Ok.
  destruct (is_LBranch t) eqn:Hb; [|done]. split.
  - by rewrite selective_prune_subtree_unset.
  - destruct t as [|l s f d ch]; [done|].
    destruct fuel as [|fuel]; [cbn in Hfuel; lia|].
    apply embeds_LBranch in He as [Hl _].
    rewrite complete_prune_subtree_S. cbn [lloc].
    unfold is_DTBranch, deref. rewrite Hl, !bind_Ok.
    rewrite (get_feature_branch _ _ _ _ _ _ Hl), bind_Ok.
    unfold not_in_important_features. by rewrite Himp.
Qed.

Lemma prune_tree_unset_important_features_witness :
  @SelectivePruner.prune_tree _ Examples.libraries_Q 5 (Scenarios.fresh_tree Selective)
    = Raise TypeError ∧
  @CompletePruner.prune_tree _ Examples.libraries_Q 5 (Scenarios.fresh_tree Selective)
    = Raise TypeError.
Proof.
  apply (prune_tree_unset_important_features (H0 := Examples.libraries_Q) 5
           (Scenarios.fresh_tree Selective) Examples.scenario_ltree).
  - split_and!; [reflexivity|repeat constructor|].
    apply (bool_decide_unpack _). vm_compute. exact I.
  - cbn. lia.
  - reflexivity.
Defined.

(** ** The controller, continued *)

Lemma length_filter_fmap_true {A} (f : A → bool) (l : list A) :
  length (filter (λ b, b = true) (f <$> l)) = length (filter (λ a, f a = true) l).
Proof.
  induction l as [|a l IH]; [done|]. rewrite fmap_cons, !filter_cons.
  destruct (decide (f a = true)); cbn; by rewrite IH.
Qed.

Lemma length_filter_fmap_negb {A} (f : A → bool) (l : list A) :
  length (filter (λ b, b = true) (negb <$> (f <$> l)))
  = length (filter (λ a, f a = false) l).
Proof.
  induction l as [|a l IH]; [done|]. rewrite !fmap_cons, !filter_cons.
  destruct (f a) eqn:Hfa; cbn.
  - rewrite decide_False by done. rewrite decide_False by done. exact IH.
  - rewrite decide_True by done. rewrite decide_True by done. cbn. by rewrite IH.
Qed.

(** X7. What [_update_leaf_counts] counts. On a tree object that holds a
    located tree, [_update_leaf_counts] returns; afterwards
    [_n_active_leaves] is the number of active leaves of the tree and
    [_n_inactive_leaves] the number of inactive ones, and nothing else of
    the tree object has changed: not the store, not the root, not the rest
    of river's state. *)
Theorem update_leaf_counts_exact `{Libraries}
    (fuel : nat) (self : HoeffdingPruningTree) (t : ltree) :
  holds_tree self t →
  height t ≤ fuel →
  ∃ self',
    _update_leaf_counts fuel self = Ok self' ∧
    _n_active_leaves (base self')
      = length (filter (λ leaf, leaf_active leaf = true) (leaves t)) ∧
    _n_inactive_leaves (base self')
      = length (filter (λ leaf, leaf_active leaf = false) (leaves t)) ∧
    store self' = store self ∧
    root self' = root self ∧
    internals (base self') = internals (base self) ∧
    same_fields self self'.
Proof.
  intros (Hroot & He & _) Hfuel. unfold _update_leaf_counts.
  unfold root in Hroot. rewrite Hroot.
  rewrite (iter_leaves_embeds _ _ _ He Hfuel), bind_Ok.
  assert (Hflags : mapM_result (is_active (store self)) (lloc <$> leaves t)
                   = Ok (leaf_active <$> leaves t)).
  { apply mapM_result_fmap, Forall_forall. intros leaf Hleaf.
    unfold is_active, deref. rewrite (leaves_embedded _ _ _ He Hleaf).
    pose proof (leaves_are_leaves _ _ Hleaf). by destruct leaf. }
  unfold count_leaves. rewrite Hflags, !bind_Ok.
  rewrite (mapM_result_negb _ _ _ Hflags), !bind_Ok.
  eexists. split; [done|]. cbn.
  rewrite length_filter_fmap_true, length_filter_fmap_negb. split_and!; try done.
Qed.

Lemma update_leaf_counts_exact_witness :
  ∃ self',
    @_update_leaf_counts _ Examples.libraries_Q 5 (Examples.scenario_tree Complete ["A"])
      = Ok self' ∧
    _n_active_leaves (base self')
      = length (filter (λ leaf, leaf_active leaf = true) (leaves Examples.scenario_ltree)) ∧
    _n_inactive_leaves (base self')
      = length (filter (λ leaf, leaf_active leaf = false) (leaves Examples.scenario_ltree)) ∧
    store self' = store (Examples.scenario_tree Complete ["A"]) ∧
    root self' = root (Examples.scenario_tree Complete ["A"]) ∧
    internals (base self') = internals (base (Examples.scenario_tree Complete ["A"])) ∧
    same_fields (Examples.scenario_tree Complete ["A"]) self'.
Proof.
  apply (update_leaf_counts_exact (H0 := Examples.libraries_Q) 5
           (Examples.scenario_tree Complete ["A"]) Examples.scenario_ltree).
  - split_and!; [reflexivity|repeat constructor|].
    apply (bool_decide_unpack _). vm_compute. exact I.
  - cbn. lia.
Defined.

(** X8. The first observation of a tree whose root is unset. [learn_one]
    updates the explainer and prunes before it calls the [learn_one] of
    the base class. If the
    features that the first observation selects (those whose importance
    value reaches the threshold) are some but not all of the features,
    [learn_one] calls the pruner, which does nothing for want of a root,
    and then [_update_leaf_counts], which raises an [AttributeError] for
    the same reason: the call does not return. *)
Theorem learn_one_first_call_without_root `{Libraries}
    (fuel : nat) (x : list (string * Value)) (y : Label) (w : Q)
    (self : HoeffdingPruningTree) :
  incremental_pfi self = None →
  root self = None →
  let ipfi := (explain_one (IPFI_new x.*1 (seed self)) (base self) x y).2 in
  let selected :=
    (filter (λ kv, meets_threshold self kv.2 = true) (importance_values ipfi)).*1 in
  selected ≠ [] →
  list_to_set selected ≠ (list_to_set x.*1 : gset string) →
  learn_one fuel x y w self = Raise AttributeError.
Proof.
  intros Hnone Hroot ipfi selected Hsel Hdiff. unfold learn_one.
  rewrite decide_True by done. cbn zeta. unfold _create_ipfi. cbn.
  unfold _update_ipfi. cbn.
  fold ipfi. destruct (explain_one (IPFI_new x.*1 (seed self)) (base self) x y)
    as [values ipfi'] eqn:Hex. cbn in ipfi. subst ipfi.
  change (meets_threshold _) with (meets_threshold self) in *.
  assert (Hexists : existsb (λ kv, meets_threshold self kv.2) (importance_values ipfi') = true).
  { apply existsb_elem_of. subst selected.
    destruct (filter _ (importance_values ipfi')) as [|kv rest] eqn:Hf; [done|].
    exists kv. apply and_comm, (list_elem_of_filter (λ kv, meets_threshold self kv.2 = true)).
    rewrite Hf. left. }
  cbn. rewrite Hexists. cbn.
  rewrite decide_True; [|intros [= Heq]; by apply Hdiff].
  unfold pruner_prune_tree, SelectivePruner.prune_tree, CompletePruner.prune_tree.
  cbn. unfold root in Hroot. unfold root. cbn. rewrite Hroot.
  destruct (pruner self); cbn; unfold _update_leaf_counts; cbn; by rewrite Hroot.
Qed.

Lemma learn_one_first_call_without_root_witness :
  @learn_one _ Examples.libraries_Q 5 Examples.observation_2 true 1%Q
    (Scenarios.rootless_tree Complete) = Raise AttributeError.
Proof.
  apply (learn_one_first_call_without_root (H0 := Examples.libraries_Q) 5
           Examples.observation_2 true 1%Q (Scenarios.rootless_tree Complete)).
  - reflexivity.
  - reflexivity.
  - vm_compute. discriminate.
  - apply (bool_decide_unpack _). vm_compute. exact I.
Defined.

(** X9. The important features are never empty. After a call of
    [learn_one] that returns, [important_features] holds at least one
    feature, provided the first observation has at least one: either some
    importance value reaches the threshold, and the features that do are
    kept, or none does, and all feature names are. *)
Theorem learn_one_important_features_nonempty `{Libraries}
    (fuel : nat) (x : list (string * Value)) (y : Label) (w : Q)
    (self self' : HoeffdingPruningTree) :
  learn_one fuel x y w self = Ok self' →
  (incremental_pfi self = None → x ≠ []) →
  (incremental_pfi self ≠ None → feature_names self ≠ Some []) →
  ∃ fs, important_features self' = Some fs ∧ fs ≠ [].
Proof.
  intros Hrun Hfirst Hlater.
  apply learn_one_inv in Hrun
    as (started & updated & mid & s & Hinit & Hnew & _ & Hupdate & Hset & _ & _ & Hmid & ->).
  destruct Hmid as (_ & _ & _ & Hfs & _).
  pose proof (_update_ipfi_spec _ _ _ _ Hupdate) as (ipfi & _ & _ & _ & _ & _ & _ & _ & Himp).
  change (important_features (with_base _ (set_last_important_features _ mid)))
    with (important_features mid). rewrite Hfs.
  unfold important_set in Hset. rewrite Himp in Hset |- *.
  destruct (existsb _ _) eqn:Hex.
  - eexists. split; [done|].
    apply existsb_elem_of in Hex as (kv & Hkv & Hmeets).
    assert (Hin : kv ∈ filter (λ kv, meets_threshold started kv.2 = true)
                         (importance_values ipfi)).
    { by apply list_elem_of_filter. }
    intros Hnil. apply fmap_nil_inv in Hnil. rewrite Hnil in Hin. by apply elem_of_nil in Hin.
  - destruct (decide (incremental_pfi self = None)) as [Hnone|Hsome].
    + destruct (Hnew Hnone) as [_ ->]. eexists. split; [done|].
      intros Hnil. apply fmap_nil_inv in Hnil. by apply Hfirst.
    + rewrite (Hinit Hsome) in Hset |- *.
      destruct (feature_names self) as [names|]; [|done].
      exists names. split; [done|]. intros ->. by apply Hlater.
Qed.

Lemma learn_one_important_features_nonempty_witness :
  ∃ fs, important_features Examples.observed_twice = Some fs ∧ fs ≠ [].
Proof.
  apply (learn_one_important_features_nonempty (H0 := Examples.libraries_Q) 5
           Examples.observation_2 true 3%Q Examples.observed_once Examples.observed_twice).
  - vm_compute. reflexivity.
  - discriminate.
  - intros _. discriminate.
Defined.

(** ** The reservoirs, continued *)

Lemma py_setitem_int_inv {A} (l l' : list A) (i : Z) (v : A) :
  py_setitem_int l i v = Ok l' →
  l' = <[Z.to_nat (if decide (0 ≤ i)%Z then i else Z.of_nat (length l) + i) := v]> l.
Proof.
  unfold py_setitem_int. cbn zeta.
  destruct (decide (0 ≤ i < Z.of_nat (length l))%Z) as [Hi|Hi].
  - intros [= <-]. by rewrite decide_True by lia.
  - destruct (decide (- Z.of_nat (length l) ≤ i < 0)%Z) as [Hn|Hn]; [|done].
    intros [= <-]. by rewrite decide_False by lia.
Qed.

Lemma lcg_randint_rejects : @randint_rejects Examples.lcg.
Proof.
  intros high g Hhigh. cbn. rewrite decide_False by lia. by eexists.
Qed.

Lemma lcg_random_in_unit_interval : @random_in_unit_interval Examples.lcg.
Proof.
  intros g. cbn. unfold Examples.lcg_next.
  pose proof (Z.mod_pos_bound (5 * g + 3) 16 ltac:(lia)) as Hm.
  unfold Qle, Qlt. cbn. lia.
Qed.

Section stored_items.
Context {A B : Type}.
Implicit Types (seen : list (A * option B)).

Lemma stored_from_nil seen st : stored_from seen st [] [].
Proof. split; [constructor|]. destruct st; [by split; [|constructor]|done]. Qed.

Lemma stored_from_drop seen st xs ys x y :
  stored_from seen st xs ys → stored_from (seen ++ [(x, y)]) st xs ys.
Proof.
  intros [Hx Hy]. split.
  - eapply Forall_impl; [exact Hx|]. intros a Ha. rewrite fmap_app.
    apply elem_of_app. by left.
  - destruct st; [|done]. destruct Hy as [Hlen Hxy]. split; [done|].
    eapply Forall_impl; [exact Hxy|]. intros a Ha. apply elem_of_app. by left.
Qed.

Lemma stored_from_append seen st xs ys x y :
  stored_from seen st xs ys →
  stored_from (seen ++ [(x, y)]) st (xs ++ [x]) (if st then ys ++ [y] else ys).
Proof.
  intros Hs. apply (stored_from_drop _ _ _ _ x y) in Hs as [Hx Hy]. split.
  - apply Forall_app. split; [done|]. constructor; [|constructor].
    rewrite fmap_app. apply elem_of_app. right. cbn. left.
  - destruct st; [|done]. destruct Hy as [Hlen Hxy]. cbn beta iota. split.
    + rewrite !length_app. cbn. lia.
    + rewrite (zip_with_app pair xs [x] ys [y]) by done. apply Forall_app. split; [done|].
      cbn. constructor; [|constructor]. apply elem_of_app. right. left.
Qed.

Lemma stored_from_setitem seen st xs ys xs' ys' i x y :
  stored_from seen st xs ys →
  py_setitem_int xs i x = Ok xs' →
  (if st then py_setitem_int ys i y else Ok ys) = Ok ys' →
  stored_from (seen ++ [(x, y)]) st xs' ys'.
Proof.
  intros Hs Hxs Hys. apply (stored_from_drop _ _ _ _ x y) in Hs as [Hx Hy].
  apply py_setitem_int_inv in Hxs as ->. split.
  - apply Forall_insert; [done|]. rewrite fmap_app. apply elem_of_app. right. cbn. left.
  - destruct st; [|by injection Hys as <-]. destruct Hy as [Hlen Hxy].
    apply py_setitem_int_inv in Hys as ->. rewrite Hlen. split.
    + by rewrite !length_insert.
    + rewrite <- (insert_zip_with pair). apply Forall_insert; [done|].
      apply elem_of_app. right. left.
Qed.

End stored_items.

Section geometric_more.
Context `{NumpyRandom} {A B : Type}.
Implicit Types (self : GeometricReservoirStorage.t A B).
Import GeometricReservoirStorage.

Lemma geometric_update_stored x y self self' seen :
  stored_from seen (store_targets self) (_storage_x self) (_storage_y self) →
  update x y self = Ok self' →
  store_targets self' = store_targets self ∧
  stored_from (seen ++ [(x, y)]) (store_targets self) (_storage_x self') (_storage_y self').
Proof.
  intros Hs. unfold update.
  destruct (decide (Z.of_nat (length (_storage_x self)) < size self)%Z).
  - intros [= <-]. cbn. split; [done|]. by apply stored_from_append.
  - destruct (rng_random (rng self)) as [random_float g1].
    destruct (Qle_bool random_float (constant_probability self)).
    + intros ([rand_idx g2] & _ & Hrun)%bind_Ok_inv.
      apply bind_Ok_inv in Hrun as (xs' & Hxs & Hrun).
      apply bind_Ok_inv in Hrun as (ys' & Hys & [= <-]). cbn. split; [done|].
      by eapply stored_from_setitem.
    + intros [= <-]. cbn. split; [done|]. by apply stored_from_drop.
Qed.

Lemma geometric_updates_stored (items : list (A * option B)) :
  ∀ self self' seen,
    stored_from seen (store_targets self) (_storage_x self) (_storage_y self) →
    updates items self = Ok self' →
    store_targets self' = store_targets self ∧
    stored_from (seen ++ items) (store_targets self) (_storage_x self') (_storage_y self').
Proof.
  induction items as [|[x y] items IH]; intros self self' seen Hs; cbn [updates].
  - intros [= <-]. by rewrite app_nil_r.
  - intros (self1 & Hup & Hrest)%bind_Ok_inv.
    destruct (geometric_update_stored _ _ _ _ _ Hs Hup) as [Hst Hs1].
    rewrite <- Hst in Hs1. destruct (IH _ _ _ Hs1 Hrest) as [Hst' Hs'].
    rewrite Hst in Hst', Hs'. by rewrite <- app_assoc in Hs'.
Qed.

Lemma geometric_fill (items : list (A * option B)) :
  ∀ self,
    (Z.of_nat (length (_storage_x self)) + Z.of_nat (length items) ≤ size self)%Z →
    ∃ self',
      updates items self = Ok self' ∧
      _storage_x self' = _storage_x self ++ items.*1 ∧
      _storage_y self' = (if store_targets self then _storage_y self ++ items.*2
                          else _storage_y self) ∧
      rng self' = rng self ∧
      decisions self' = decisions self ++ replicate (length items) Appended.
Proof.
  induction items as [|[x y] items IH]; intros self Hlen; cbn [updates].
  - exists self. rewrite !app_nil_r. by destruct (store_targets self).
  - cbn [length] in Hlen.
    destruct (geometric_update_append x y self) as
      (self1 & Hup & Hsz & Hst & _ & Hx & Hy & Hg & Hd); [lia|].
    destruct (IH self1) as (self' & Hups & Hx' & Hy' & Hg' & Hd').
    { rewrite Hx, Hsz, length_app. cbn. lia. }
    exists self'. rewrite Hup, bind_Ok. split; [done|].
    rewrite Hx', Hy', Hg', Hd', Hx, Hy, Hg, Hd, Hst. cbn.
    rewrite <- !app_assoc. split_and!; try done.
    destruct (store_targets self); [|done]. by rewrite <- app_assoc.
Qed.

Lemma geometric_update_no_capacity x y self self' :
  randint_rejects → (size self ≤ 0)%Z →
  update x y self = Ok self' →
  size self' = size self ∧
  _storage_x self' = _storage_x self ∧ _storage_y self' = _storage_y self.
Proof.
  intros Hrej Hsize. unfold update. rewrite decide_False by lia.
  destruct (rng_random (rng self)) as [random_float g1].
  destruct (Qle_bool random_float (constant_probability self)).
  - destruct (Hrej (size self) g1 Hsize) as [msg ->]. done.
  - by intros [= <-].
Qed.

End geometric_more.

Section uniform_more.
Context `{NumpyRandom} `{NumpyFloat} {A B : Type}.
Implicit Types (self : UniformReservoirStorage.t A B).
Import UniformReservoirStorage.

Lemma uniform_update_stored x y self self' seen :
  stored_from seen (store_targets self) (_storage_x self) (_storage_y self) →
  update x y self = Ok self' →
  store_targets self' = store_targets self ∧
  stored_from (seen ++ [(x, y)]) (store_targets self) (_storage_x self') (_storage_y self').
Proof.
  intros Hs. unfold update.
  destruct (decide (stored_samples self + 1 ≤ size self)%Z).
  - intros [= <-]. cbn. split; [done|]. by apply stored_from_append.
  - destruct (f_eqb (_algo_l_counter self) (of_int (stored_samples self + 1))).
    + destruct (draw_skip (_algo_wt self) (rng self)) as [skip g1].
      intros ([rand_idx g2] & _ & Hrun)%bind_Ok_inv.
      apply bind_Ok_inv in Hrun as (xs' & Hxs & Hrun).
      apply bind_Ok_inv in Hrun as (ys' & Hys & Hrun).
      destruct (draw_weight (size self) g2) as [w g3]. injection Hrun as <-. cbn.
      split; [done|]. by eapply stored_from_setitem.
    + intros [= <-]. cbn. split; [done|]. by apply stored_from_drop.
Qed.

Lemma uniform_updates_stored (items : list (A * option B)) :
  ∀ self self' seen,
    stored_from seen (store_targets self) (_storage_x self) (_storage_y self) →
    updates items self = Ok self' →
    store_targets self' = store_targets self ∧
    stored_from (seen ++ items) (store_targets self) (_storage_x self') (_storage_y self').
Proof.
  induction items as [|[x y] items IH]; intros self self' seen Hs; cbn [updates].
  - intros [= <-]. by rewrite app_nil_r.
  - intros (self1 & Hup & Hrest)%bind_Ok_inv.
    destruct (uniform_update_stored _ _ _ _ _ Hs Hup) as [Hst Hs1].
    rewrite <- Hst in Hs1. destruct (IH _ _ _ Hs1 Hrest) as [Hst' Hs'].
    rewrite Hst in Hst', Hs'. by rewrite <- app_assoc in Hs'.
Qed.

Lemma uniform_fill (items : list (A * option B)) :
  ∀ self,
    (stored_samples self + Z.of_nat (length items) ≤ size self)%Z →
    ∃ self',
      updates items self = Ok self' ∧
      _storage_x self' = _storage_x self ++ items.*1 ∧
      _storage_y self' = (if store_targets self then _storage_y self ++ items.*2
                          else _storage_y self) ∧
      rng self' = rng self ∧
      _algo_wt self' = _algo_wt self ∧
      _algo_l_counter self' = _algo_l_counter self ∧
      stored_samples self' = (stored_samples self + Z.of_nat (length items))%Z ∧
      decisions self' = decisions self ++ replicate (length items) Appended.
Proof.
  induction items as [|[x y] items IH]; intros self Hlen; cbn [updates].
  - exists self. rewrite !app_nil_r. cbn. destruct (store_targets self); split_and!; done || lia.
  - cbn [length] in Hlen. unfold update at 1. rewrite decide_True by lia. rewrite bind_Ok.
    match goal with |- ∃ _, updates items ?s = _ ∧ _ => destruct (IH s) as
      (self' & Hups & Hx' & Hy' & Hg' & Hw' & Hc' & Hn' & Hd') end.
    { cbn. lia. }
    cbn in Hx', Hy', Hg', Hw', Hc', Hn', Hd'.
    exists self'. split; [done|]. rewrite Hx', Hy', Hg', Hw', Hc', Hn', Hd'. cbn.
    rewrite <- !app_assoc. split_and!; try done; try lia.
    destruct (store_targets self); [|done]. by rewrite <- app_assoc.
Qed.

Lemma uniform_update_no_capacity x y self self' :
  randint_rejects → (size self ≤ 0)%Z → (0 ≤ stored_samples self)%Z →
  update x y self = Ok self' →
  size self' = size self ∧ (0 ≤ stored_samples self')%Z ∧
  _storage_x self' = _storage_x self ∧ _storage_y self' = _storage_y self.
Proof.
  intros Hrej Hsize Hseen. unfold update. rewrite decide_False by lia.
  destruct (f_eqb (_algo_l_counter self) (of_int (stored_samples self + 1))).
  - destruct (draw_skip (_algo_wt self) (rng self)) as [skip g1].
    destruct (Hrej (size self) g1 Hsize) as [msg ->]. done.
  - intros [= <-]. cbn. split_and!; done || lia.
Qed.

End uniform_more.

(** X10. A reservoir stores observed items only. Whatever the generator
    does, after any sequence of [update] calls on a new reservoir every
    stored item is one of the items given to [update]. With
    [store_targets] the two lists have the same length and the target at a
    position is the one that came with the item at that position; without,
    the list of targets stays empty. *)
Theorem reservoir_stores_observed_items `{NumpyRandom} `{NumpyFloat} {A B : Type}
    (size : Z) (constant_probability : option Q) (store_targets : bool)
    (seed : option Z) (entropy : Entropy) (items : list (A * option B))
    (g0 g : GeometricReservoirStorage.t A B) (u : UniformReservoirStorage.t A B) :
  GeometricReservoirStorage.__init__ size constant_probability store_targets seed entropy
    = Ok g0 →
  GeometricReservoirStorage.updates items g0 = Ok g →
  UniformReservoirStorage.updates items
    (UniformReservoirStorage.__init__ size store_targets seed entropy) = Ok u →
  stored_from items store_targets
    (GeometricReservoirStorage._storage_x g) (GeometricReservoirStorage._storage_y g) ∧
  stored_from items store_targets
    (UniformReservoirStorage._storage_x u) (UniformReservoirStorage._storage_y u).
Proof.
  intros Hinit Hg Hu. split.
  - unfold GeometricReservoirStorage.__init__ in Hinit.
    apply bind_Ok_inv in Hinit as (p & _ & [= <-]).
    apply (geometric_updates_stored items _ _ []) in Hg as [_ Hs]; [done|].
    apply stored_from_nil.
  - apply (uniform_updates_stored items _ _ []) in Hu as [_ Hs].
    + unfold UniformReservoirStorage.__init__ in Hs.
      destruct (UniformReservoirStorage.draw_weight _ _) as [wt g1] in Hs.
      by destruct (UniformReservoirStorage.draw_skip _ _) as [skip g2] in Hs.
    + unfold UniformReservoirStorage.__init__.
      destruct (UniformReservoirStorage.draw_weight _ _) as [wt g1].
      destruct (UniformReservoirStorage.draw_skip _ _) as [skip g2]. apply stored_from_nil.
Qed.

Lemma reservoir_stores_observed_items_witness :
  let items := [(1, Some true); (2, Some false); (3, Some true); (4, Some false)] in
  ∃ g u,
    stored_from items true
      (@GeometricReservoirStorage._storage_x Examples.lcg nat bool g)
      (GeometricReservoirStorage._storage_y g) ∧
    stored_from items true
      (@UniformReservoirStorage._storage_x Examples.lcg Examples.float_Q nat bool u)
      (UniformReservoirStorage._storage_y u).
Proof.
  eexists _, _.
  eapply (reservoir_stores_observed_items (H := Examples.lcg) (H0 := Examples.float_Q)
            2 None true (Some 1%Z) 0%Z
            [(1, Some true); (2, Some false); (3, Some true); (4, Some false)]).
  - reflexivity.
  - vm_compute. reflexivity.
  - vm_compute. reflexivity.
Defined.

(** X11. The fill phase. While no more items have arrived than the
    reservoir can hold, both reservoirs store every item, in the order of
    arrival (and the targets likewise, when targets are stored), log every
    decision as an append, and draw no random number: the generator is in
    the state that the constructor left it in, and Algorithm L's weight and
    counter are untouched. The uniform reservoir counts the items. *)
Theorem reservoir_fill_phase `{NumpyRandom} `{NumpyFloat} {A B : Type}
    (size : Z) (constant_probability : option Q) (store_targets : bool)
    (seed : option Z) (entropy : Entropy) (items : list (A * option B))
    (g0 : GeometricReservoirStorage.t A B) :
  (Z.of_nat (length items) ≤ size)%Z →
  GeometricReservoirStorage.__init__ size constant_probability store_targets seed entropy
    = Ok g0 →
  (∃ g,
     GeometricReservoirStorage.updates items g0 = Ok g ∧
     GeometricReservoirStorage._storage_x g = items.*1 ∧
     GeometricReservoirStorage._storage_y g = (if store_targets then items.*2 else []) ∧
     GeometricReservoirStorage.rng g = GeometricReservoirStorage.rng g0 ∧
     GeometricReservoirStorage.decisions g = replicate (length items) Appended) ∧
  (∃ u,
     let u0 := UniformReservoirStorage.__init__ (A := A) (B := B)
                 size store_targets seed entropy in
     UniformReservoirStorage.updates items u0 = Ok u ∧
     UniformReservoirStorage._storage_x u = items.*1 ∧
     UniformReservoirStorage._storage_y u = (if store_targets then items.*2 else []) ∧
     UniformReservoirStorage.rng u = UniformReservoirStorage.rng u0 ∧
     UniformReservoirStorage._algo_wt u = UniformReservoirStorage._algo_wt u0 ∧
     UniformReservoirStorage._algo_l_counter u = UniformReservoirStorage._algo_l_counter u0 ∧
     UniformReservoirStorage.stored_samples u = Z.of_nat (length items) ∧
     UniformReservoirStorage.decisions u = replicate (length items) Appended).
Proof.
  intros Hlen Hinit. split.
  - unfold GeometricReservoirStorage.__init__ in Hinit.
    apply bind_Ok_inv in Hinit as (p & _ & [= <-]).
    match goal with |- ∃ _, GeometricReservoirStorage.updates items ?s = _ ∧ _ =>
      destruct (geometric_fill items s) as (g & Hg & Hx & Hy & Hr & Hd) end.
    { cbn. lia. }
    exists g. simpl in Hx, Hy, Hr, Hd.
    split_and!; first [done | rewrite Hy; by destruct store_targets].
  - cbn zeta.
    destruct (uniform_fill items
                (UniformReservoirStorage.__init__ (A := A) (B := B)
                   size store_targets seed entropy))
      as (u & Hu & Hx & Hy & Hr & Hw & Hc & Hn & Hd).
    { unfold UniformReservoirStorage.__init__.
      destruct (UniformReservoirStorage.draw_weight _ _) as [wt g1].
      destruct (UniformReservoirStorage.draw_skip _ _) as [skip g2]. cbn. lia. }
    exists u. split; [done|]. rewrite Hx, Hy, Hn, Hd. split_and!; try done;
      unfold UniformReservoirStorage.__init__;
      destruct (UniformReservoirStorage.draw_weight _ _) as [wt g1];
      destruct (UniformReservoirStorage.draw_skip _ _) as [skip g2]; cbn; try done;
      by destruct store_targets.
Qed.

Lemma reservoir_fill_phase_witness :
  let items := [(1, Some true); (2, Some false)] in
  ∃ g0,
  (∃ g,
     @GeometricReservoirStorage.updates Examples.lcg nat bool items g0 = Ok g ∧
     GeometricReservoirStorage._storage_x g = items.*1 ∧
     GeometricReservoirStorage._storage_y g = (if true then items.*2 else []) ∧
     GeometricReservoirStorage.rng g = GeometricReservoirStorage.rng g0 ∧
     GeometricReservoirStorage.decisions g = replicate (length items) Appended) ∧
  (∃ u,
     let u0 := @UniformReservoirStorage.__init__ Examples.lcg Examples.float_Q nat bool
                 3 true (Some 1%Z) 0%Z in
     UniformReservoirStorage.updates items u0 = Ok u ∧
     UniformReservoirStorage._storage_x u = items.*1 ∧
     UniformReservoirStorage._storage_y u = (if true then items.*2 else []) ∧
     UniformReservoirStorage.rng u = UniformReservoirStorage.rng u0 ∧
     UniformReservoirStorage._algo_wt u = UniformReservoirStorage._algo_wt u0 ∧
     UniformReservoirStorage._algo_l_counter u = UniformReservoirStorage._algo_l_counter u0 ∧
     UniformReservoirStorage.stored_samples u = Z.of_nat (length items) ∧
     UniformReservoirStorage.decisions u = replicate (length items) Appended).
Proof.
  eexists.
  eapply (reservoir_fill_phase (H := Examples.lcg) (H0 := Examples.float_Q)
            3 None true (Some 1%Z) 0%Z [(1, Some true); (2, Some false)]).
  - cbn. lia.
  - reflexivity.
Defined.

(** X12. A reservoir without capacity. With capacity 0 and no
    probability given, the constructor of the geometric reservoir raises a
    [ZeroDivisionError], from [1 / size]. With a capacity that is not
    positive, no reservoir ever stores an item: [randint(size)] raises, so
    a call of [update] either drops its item or does not return. *)
Theorem reservoir_nonpositive_capacity `{NumpyRandom} `{NumpyFloat} {A B : Type}
    (size : Z) (constant_probability : option Q) (store_targets : bool)
    (seed : option Z) (entropy : Entropy) (items : list (A * option B))
    (g0 g : GeometricReservoirStorage.t A B) (u : UniformReservoirStorage.t A B) :
  randint_rejects →
  (size ≤ 0)%Z →
  GeometricReservoirStorage.__init__ size constant_probability store_targets seed entropy
    = Ok g0 →
  GeometricReservoirStorage.updates items g0 = Ok g →
  UniformReservoirStorage.updates items
    (UniformReservoirStorage.__init__ size store_targets seed entropy) = Ok u →
  GeometricReservoirStorage.__init__ (A := A) (B := B) 0 None store_targets seed entropy
    = Raise ZeroDivisionError ∧
  GeometricReservoirStorage._storage_x g = [] ∧
  GeometricReservoirStorage._storage_y g = [] ∧
  UniformReservoirStorage._storage_x u = [] ∧
  UniformReservoirStorage._storage_y u = [].
Proof.
  intros Hrej Hsize Hinit Hg Hu.
  split; [unfold GeometricReservoirStorage.__init__; by rewrite decide_True|].
  assert (Hgeo : ∀ (items : list (A * option B)) (s s' : GeometricReservoirStorage.t A B),
            (GeometricReservoirStorage.size s ≤ 0)%Z →
            GeometricReservoirStorage._storage_x s = [] →
            GeometricReservoirStorage._storage_y s = [] →
            GeometricReservoirStorage.updates items s = Ok s' →
            GeometricReservoirStorage._storage_x s' = [] ∧
            GeometricReservoirStorage._storage_y s' = []).
  { clear -Hrej. intros items. induction items as [|[x y] items IH]; intros s s' Hsz Hx Hy; cbn.
    - by intros [= <-].
    - intros (s1 & Hup & Hrest)%bind_Ok_inv.
      apply geometric_update_no_capacity in Hup as (Hsz1 & Hx1 & Hy1); [|done..].
      apply (IH s1 s'); congruence. }
  assert (Huni : ∀ (items : list (A * option B)) (s s' : UniformReservoirStorage.t A B),
            (UniformReservoirStorage.size s ≤ 0)%Z →
            (0 ≤ UniformReservoirStorage.stored_samples s)%Z →
            UniformReservoirStorage._storage_x s = [] →
            UniformReservoirStorage._storage_y s = [] →
            UniformReservoirStorage.updates items s = Ok s' →
            UniformReservoirStorage._storage_x s' = [] ∧
            UniformReservoirStorage._storage_y s' = []).
  { clear -Hrej. intros items. induction items as [|[x y] items IH]; intros s s' Hsz Hn Hx Hy; cbn.
    - by intros [= <-].
    - intros (s1 & Hup & Hrest)%bind_Ok_inv.
      apply uniform_update_no_capacity in Hup as (Hsz1 & Hn1 & Hx1 & Hy1); [|done..].
      apply (IH s1 s'); congruence. }
  unfold GeometricReservoirStorage.__init__ in Hinit.
  apply bind_Ok_inv in Hinit as (p & _ & [= <-]).
  apply Hgeo in Hg; [|done..].
  apply Huni in Hu.
  - by destruct Hg, Hu.
  - unfold UniformReservoirStorage.__init__.
    destruct (UniformReservoirStorage.draw_weight _ _) as [wt g1].
    by destruct (UniformReservoirStorage.draw_skip _ _) as [skip g2].
  - unfold UniformReservoirStorage.__init__.
    destruct (UniformReservoirStorage.draw_weight _ _) as [wt g1].
    by destruct (UniformReservoirStorage.draw_skip _ _) as [skip g2].
  - unfold UniformReservoirStorage.__init__.
    destruct (UniformReservoirStorage.draw_weight _ _) as [wt g1].
    by destruct (UniformReservoirStorage.draw_skip _ _) as [skip g2].
  - unfold UniformReservoirStorage.__init__.
    destruct (UniformReservoirStorage.draw_weight _ _) as [wt g1].
    by destruct (UniformReservoirStorage.draw_skip _ _) as [skip g2].
Qed.

Lemma reservoir_nonpositive_capacity_witness :
  ∃ g u,
    @GeometricReservoirStorage.__init__ Examples.lcg nat bool 0 None false (Some 1%Z) 0%Z
      = Raise ZeroDivisionError ∧
    @GeometricReservoirStorage._storage_x Examples.lcg nat bool g = [] ∧
    GeometricReservoirStorage._storage_y g = [] ∧
    @UniformReservoirStorage._storage_x Examples.lcg Examples.float_Q nat bool u = [] ∧
    UniformReservoirStorage._storage_y u = [].
Proof.
  eexists _, _.
  eapply (reservoir_nonpositive_capacity (H := Examples.lcg) (H0 := Examples.float_Q)
            (-1) None false (Some 1%Z) 0%Z [(1, None); (2, None)]).
  - exact lcg_randint_rejects.
  - lia.
  - reflexivity.
  - vm_compute. reflexivity.
  - vm_compute. reflexivity.
Defined.

(** X13. The bounds of the constant probability. A draw of [random()]
    lies in [[0, 1)]. So a geometric reservoir at capacity whose constant
    probability is negative drops every further item, and one whose
    constant probability is 1 or more replaces a stored item by every
    further item. *)
Theorem geometric_probability_bounds `{NumpyRandom} {A B : Type}
    (x : A) (y : option B) (self : GeometricReservoirStorage.t A B) :
  random_in_unit_interval →
  randint_in_range →
  (0 < GeometricReservoirStorage.size self)%Z →
  Z.of_nat (length (GeometricReservoirStorage._storage_x self))
    = GeometricReservoirStorage.size self →
  (GeometricReservoirStorage.store_targets self = true →
     length (GeometricReservoirStorage._storage_y self)
       = length (GeometricReservoirStorage._storage_x self)) →
  ∃ self',
    GeometricReservoirStorage.update x y self = Ok self' ∧
    ((GeometricReservoirStorage.constant_probability self < 0)%Q →
       GeometricReservoirStorage._storage_x self' = GeometricReservoirStorage._storage_x self ∧
       GeometricReservoirStorage._storage_y self' = GeometricReservoirStorage._storage_y self ∧
       GeometricReservoirStorage.decisions self'
         = GeometricReservoirStorage.decisions self ++ [Dropped]) ∧
    ((1 <= GeometricReservoirStorage.constant_probability self)%Q →
       ∃ rand_idx,
         (0 ≤ rand_idx < GeometricReservoirStorage.size self)%Z ∧
         GeometricReservoirStorage._storage_x self'
           = <[Z.to_nat rand_idx := x]> (GeometricReservoirStorage._storage_x self) ∧
         GeometricReservoirStorage._storage_x self' !! Z.to_nat rand_idx = Some x ∧
         GeometricReservoirStorage.decisions self'
           = GeometricReservoirStorage.decisions self ++ [Replaced rand_idx]).
Proof.
  intros Hunit Hrandint Hsize Hfull Htargets.
  destruct (geometric_update_full x y self) as (self' & Hup & _ & _ & _ & Hin & Hout);
    [done..|].
  destruct (Hunit (GeometricReservoirStorage.rng self)) as [Hlo Hhi].
  exists self'. split; [done|]. split.
  - intros Hneg. destruct Hout as (Hx & Hy & _ & Hd); [|done].
    intros Hle. apply (Qlt_irrefl 0).
    eapply Qle_lt_trans; [exact Hlo|]. by eapply Qle_lt_trans.
  - intros Hone. destruct Hin as (rand_idx & g & _ & Hrange & Hx & _ & _ & Hd).
    { apply Qlt_le_weak. by eapply Qlt_le_trans. }
    exists rand_idx. split_and!; try done; try lia.
    rewrite Hx. apply list_lookup_insert_eq. lia.
Qed.

Lemma geometric_probability_bounds_witness :
  (∃ self',
     GeometricReservoirStorage.update 3 None Scenarios.geometric_never = Ok self' ∧
     GeometricReservoirStorage._storage_x self'
       = GeometricReservoirStorage._storage_x Scenarios.geometric_never ∧
     GeometricReservoirStorage._storage_y self'
       = GeometricReservoirStorage._storage_y Scenarios.geometric_never ∧
     GeometricReservoirStorage.decisions self'
       = GeometricReservoirStorage.decisions Scenarios.geometric_never ++ [Dropped]) ∧
  (∃ self' rand_idx,
     GeometricReservoirStorage.update 3 None Scenarios.geometric_always = Ok self' ∧
     (0 ≤ rand_idx < GeometricReservoirStorage.size Scenarios.geometric_always)%Z ∧
     GeometricReservoirStorage._storage_x self'
       = <[Z.to_nat rand_idx := 3]>
           (GeometricReservoirStorage._storage_x Scenarios.geometric_always) ∧
     GeometricReservoirStorage._storage_x self' !! Z.to_nat rand_idx = Some 3 ∧
     GeometricReservoirStorage.decisions self'
       = GeometricReservoirStorage.decisions Scenarios.geometric_always
         ++ [Replaced rand_idx]).
Proof.
  split.
  - destruct (geometric_probability_bounds (H := Examples.lcg) 3 None
                Scenarios.geometric_never
                lcg_random_in_unit_interval lcg_randint_in_range)
      as (self' & Hup & Hneg & _).
    + cbn. lia.
    + reflexivity.
    + discriminate.
    + exists self'. split; [exact Hup|]. apply Hneg. reflexivity.
  - destruct (geometric_probability_bounds (H := Examples.lcg) 3 None
                Scenarios.geometric_always
                lcg_random_in_unit_interval lcg_randint_in_range)
      as (self' & Hup & _ & Hone).
    + cbn. lia.
    + reflexivity.
    + discriminate.
    + destruct Hone as (rand_idx & Hrest); [discriminate|].
      exists self', rand_idx. split; [exact Hup|exact Hrest].
Defined.

(** X14. The uniform reservoir at capacity. Once the reservoir is full, a
    call of [update] counts the item and compares Algorithm L's counter
    with the count. If they are equal, it draws the next skip, draws a
    slot in [[0, capacity)], overwrites that slot with the item (and the
    slot of the targets with the target, when targets are stored), and
    draws the next weight. If they are not, it drops the item: the two
    lists, the generator, the weight and the counter stay as they are. *)
Theorem uniform_update_at_capacity `{NumpyRandom} `{NumpyFloat} {A B : Type}
    (x : A) (y : option B) (self : UniformReservoirStorage.t A B) :
  randint_in_range →
  (0 < UniformReservoirStorage.size self)%Z →
  UniformReservoirStorage.well_formed self →
  (UniformReservoirStorage.size self ≤ UniformReservoirStorage.stored_samples self)%Z →
  ∃ self',
    UniformReservoirStorage.update x y self = Ok self' ∧
    UniformReservoirStorage.stored_samples self'
      = (UniformReservoirStorage.stored_samples self + 1)%Z ∧
    if f_eqb (UniformReservoirStorage._algo_l_counter self)
             (of_int (UniformReservoirStorage.stored_samples self + 1))
    then
      let '(skip, g1) := UniformReservoirStorage.draw_skip
                           (UniformReservoirStorage._algo_wt self)
                           (UniformReservoirStorage.rng self) in
      ∃ rand_idx g2,
        rng_randint (UniformReservoirStorage.size self) g1 = Ok (rand_idx, g2) ∧
        (0 ≤ rand_idx < UniformReservoirStorage.size self)%Z ∧
        UniformReservoirStorage._storage_x self'
          = <[Z.to_nat rand_idx := x]> (UniformReservoirStorage._storage_x self) ∧
        UniformReservoirStorage._storage_y self'
          = (if UniformReservoirStorage.store_targets self
             then <[Z.to_nat rand_idx := y]> (UniformReservoirStorage._storage_y self)
             else UniformReservoirStorage._storage_y self) ∧
        UniformReservoirStorage._algo_l_counter self'
          = f_add (UniformReservoirStorage._algo_l_counter self) skip ∧
        (let '(w, g3) := UniformReservoirStorage.draw_weight
                           (UniformReservoirStorage.size self) g2 in
         UniformReservoirStorage._algo_wt self'
           = f_mul (UniformReservoirStorage._algo_wt self) w ∧
         UniformReservoirStorage.rng self' = g3) ∧
        UniformReservoirStorage.decisions self'
          = UniformReservoirStorage.decisions self ++ [Replaced rand_idx]
    else
      UniformReservoirStorage._storage_x self' = UniformReservoirStorage._storage_x self ∧
      UniformReservoirStorage._storage_y self' = UniformReservoirStorage._storage_y self ∧
      UniformReservoirStorage.rng self' = UniformReservoirStorage.rng self ∧
      UniformReservoirStorage._algo_wt self' = UniformReservoirStorage._algo_wt self ∧
      UniformReservoirStorage._algo_l_counter self'
        = UniformReservoirStorage._algo_l_counter self ∧
      UniformReservoirStorage.decisions self'
        = UniformReservoirStorage.decisions self ++ [Dropped].
Proof.
  intros Hrandint Hsize (Hseen & Hlen & Htargets) Hfull.
  unfold UniformReservoirStorage.update. rewrite decide_False by lia.
  destruct (f_eqb _ _).
  - destruct (UniformReservoirStorage.draw_skip _ _) as [skip g1].
    destruct (Hrandint (UniformReservoirStorage.size self) g1 Hsize)
      as (rand_idx & g2 & Hidx & Hrange).
    rewrite Hidx, bind_Ok.
    rewrite (py_setitem_int_in_range (UniformReservoirStorage._storage_x self)), bind_Ok
      by lia.
    destruct (UniformReservoirStorage.store_targets self) eqn:Hst.
    + rewrite (py_setitem_int_in_range (UniformReservoirStorage._storage_y self)), bind_Ok
        by (rewrite Htargets by done; lia).
      destruct (UniformReservoirStorage.draw_weight _ g2) as [w g3] eqn:Hw.
      eexists. split; [done|]. split; [done|]. exists rand_idx, g2. rewrite Hw. cbn.
      split_and!; done || lia.
    + rewrite bind_Ok.
      destruct (UniformReservoirStorage.draw_weight _ g2) as [w g3] eqn:Hw.
      eexists. split; [done|]. split; [done|]. exists rand_idx, g2. rewrite Hw. cbn.
      split_and!; done || lia.
  - eexists. split; [done|]. by split_and!.
Qed.

Lemma uniform_update_at_capacity_witness :
  let self := Scenarios.uniform_full in
  ∃ self',
    UniformReservoirStorage.update 3 None self = Ok self' ∧
    UniformReservoirStorage.stored_samples self'
      = (UniformReservoirStorage.stored_samples self + 1)%Z ∧
    if @f_eqb Examples.float_Q (UniformReservoirStorage._algo_l_counter self)
              (of_int (UniformReservoirStorage.stored_samples self + 1))
    then
      let '(skip, g1) := UniformReservoirStorage.draw_skip
                           (UniformReservoirStorage._algo_wt self)
                           (UniformReservoirStorage.rng self) in
      ∃ rand_idx g2,
        @rng_randint Examples.lcg (UniformReservoirStorage.size self) g1
          = Ok (rand_idx, g2) ∧
        (0 ≤ rand_idx < UniformReservoirStorage.size self)%Z ∧
        UniformReservoirStorage._storage_x self'
          = <[Z.to_nat rand_idx := 3]> (UniformReservoirStorage._storage_x self) ∧
        UniformReservoirStorage._storage_y self'
          = (if UniformReservoirStorage.store_targets self
             then <[Z.to_nat rand_idx := None]> (UniformReservoirStorage._storage_y self)
             else UniformReservoirStorage._storage_y self) ∧
        UniformReservoirStorage._algo_l_counter self'
          = f_add (UniformReservoirStorage._algo_l_counter self) skip ∧
        (let '(w, g3) := UniformReservoirStorage.draw_weight
                           (UniformReservoirStorage.size self) g2 in
         UniformReservoirStorage._algo_wt self'
           = f_mul (UniformReservoirStorage._algo_wt self) w ∧
         UniformReservoirStorage.rng self' = g3) ∧
        UniformReservoirStorage.decisions self'
          = UniformReservoirStorage.decisions self ++ [Replaced rand_idx]
    else
      UniformReservoirStorage._storage_x self' = UniformReservoirStorage._storage_x self ∧
      UniformReservoirStorage._storage_y self' = UniformReservoirStorage._storage_y self ∧
      UniformReservoirStorage.rng self' = UniformReservoirStorage.rng self ∧
      UniformReservoirStorage._algo_wt self' = UniformReservoirStorage._algo_wt self ∧
      UniformReservoirStorage._algo_l_counter self'
        = UniformReservoirStorage._algo_l_counter self ∧
      UniformReservoirStorage.decisions self'
        = UniformReservoirStorage.decisions self ++ [Dropped].
Proof.
  apply (uniform_update_at_capacity (H := Examples.lcg) (H0 := Examples.float_Q)
           3 None Scenarios.uniform_full).
  - exact lcg_randint_in_range.
  - cbn. lia.
  - split_and!; [cbn; lia|reflexivity|discriminate].
  - cbn. lia.
Defined.

(** ** The imputer *)

Section dict_facts.
Context {V : Type}.
Implicit Types (d : list (string * V)).

Lemma dict_get_setitem d k v k' :
  dict_get (dict_setitem d k v) k' = if decide (k = k') then Some v else dict_get d k'.
Proof.
  induction d as [|[k0 v0] d IH]; cbn.
  - destruct (decide (k = k')); done.
  - destruct (decide (k0 = k)) as [->|Hne]; cbn.
    + destruct (decide (k = k')); done.
    + rewrite IH. destruct (decide (k0 = k')) as [->|]; [|done].
      by rewrite decide_False by done.
Qed.

Lemma dict_get_None d k : k ∉ d.*1 → dict_get d k = None.
Proof.
  induction d as [|[k0 v0] d IH]; [done|]. cbn. intros [Hne Hin]%not_elem_of_cons.
  rewrite decide_False by done. by apply IH.
Qed.

Lemma dict_setitem_keys d k v :
  (dict_setitem d k v).*1 = if bool_decide (k ∈ d.*1) then d.*1 else d.*1 ++ [k].
Proof.
  induction d as [|[k0 v0] d IH]; [done|]. cbn.
  destruct (decide (k0 = k)) as [->|Hne]; cbn.
  - rewrite bool_decide_eq_true_2; [done|left].
  - rewrite IH. destruct (bool_decide (k ∈ d.*1)) eqn:Hin.
    + apply bool_decide_eq_true in Hin. rewrite bool_decide_eq_true_2; [done|by right].
    + apply bool_decide_eq_false in Hin. rewrite bool_decide_eq_false_2; [done|].
      intros [?|?]%elem_of_cons; congruence.
Qed.

Lemma dict_setitem_NoDup d k v : NoDup d.*1 → NoDup (dict_setitem d k v).*1.
Proof.
  intros Hnd. rewrite dict_setitem_keys. destruct (bool_decide (k ∈ d.*1)) eqn:Hin; [done|].
  apply bool_decide_eq_false in Hin. apply NoDup_app. split_and!; [done| |apply NoDup_singleton].
  intros k' Hk' ->%list_elem_of_singleton. done.
Qed.

Lemma dict_get_merge d1 d2 k :
  NoDup d2.*1 →
  dict_get (dict_merge d1 d2) k =
  match dict_get d2 k with Some v => Some v | None => dict_get d1 k end.
Proof.
  unfold dict_merge. revert d1. induction d2 as [|[k0 v0] d2 IH]; intros d1 Hnd; [done|].
  cbn in Hnd. apply NoDup_cons in Hnd as [Hk0 Hnd]. cbn.
  rewrite IH by done. rewrite dict_get_setitem.
  destruct (decide (k0 = k)) as [->|Hne]; [|done].
  by rewrite dict_get_None.
Qed.

Lemma py_getitem_int_elem {A} (l : list A) i a : py_getitem_int l i = Ok a → a ∈ l.
Proof.
  unfold py_getitem_int, py_getitem. cbn zeta.
  repeat case_decide; try done;
    match goal with |- context [l !! ?j] => destruct (l !! j) eqn:Hj end; try done;
    intros [= <-]; by eapply list_elem_of_lookup_2.
Qed.

Lemma py_getitem_int_in_range {A} (l : list A) i :
  (0 ≤ i < Z.of_nat (length l))%Z → ∃ a, py_getitem_int l i = Ok a ∧ a ∈ l.
Proof.
  intros Hi. unfold py_getitem_int, py_getitem. cbn zeta. rewrite decide_True by done.
  destruct (lookup_lt_is_Some_2 l (Z.to_nat i)) as [a Ha]; [lia|].
  rewrite Ha. exists a. split; [done|]. by eapply list_elem_of_lookup_2.
Qed.

End dict_facts.

Section imputer_facts.
Context `{NumpyRandom} {V P : Type}.
Implicit Types (self : MarginalImputer.t V P) (d : list (string * V)).
Import MarginalImputer.

Lemma comprehension_spec sampled_instance feature_subset :
  ∀ acc d,
    comprehension sampled_instance feature_subset acc = Ok d →
    NoDup acc.*1 →
    NoDup d.*1 ∧
    (∀ k, k ∉ feature_subset → dict_get d k = dict_get acc k) ∧
    (∀ k, k ∈ feature_subset →
          is_Some (dict_get sampled_instance k) ∧
          dict_get d k = dict_get sampled_instance k).
Proof.
  induction feature_subset as [|name rest IH]; intros acc d; cbn.
  - intros [= <-] Hnd. split_and!; [done|done|]. by intros k ?%elem_of_nil.
  - intros (v & Hv & Hrun)%bind_Ok_inv Hnd.
    unfold dict_getitem in Hv. destruct (dict_get sampled_instance name) eqn:Hget; [|done].
    injection Hv as ->.
    destruct (IH _ _ Hrun) as (Hnd' & Hout & Hin); [by apply dict_setitem_NoDup|].
    split_and!; [done| |].
    + intros k [Hne Hk]%not_elem_of_cons. rewrite (Hout k Hk), dict_get_setitem.
      by rewrite decide_False by done.
    + intros k Hk. destruct (decide (k ∈ rest)) as [Hrest|Hrest]; [by apply Hin|].
      apply elem_of_cons in Hk as [->|Hk]; [|done].
      rewrite (Hout name Hrest), dict_get_setitem, decide_True by done.
      by rewrite Hget.
Qed.

Lemma product_loop_spec features feature_subset :
  ∀ acc g d g',
    product_loop features feature_subset acc g = Ok (d, g') →
    NoDup acc.*1 →
    NoDup d.*1 ∧
    (∀ k, k ∉ feature_subset → dict_get d k = dict_get acc k) ∧
    (∀ k, k ∈ feature_subset →
          ∃ instance, instance ∈ features ∧
            is_Some (dict_get instance k) ∧ dict_get d k = dict_get instance k).
Proof.
  induction feature_subset as [|name rest IH]; intros acc g d g'; cbn.
  - intros [= <- <-] Hnd. split_and!; [done|done|]. by intros k ?%elem_of_nil.
  - intros ([rand_idx g1] & _ & Hrun)%bind_Ok_inv Hnd.
    apply bind_Ok_inv in Hrun as (instance & Hinst & Hrun).
    apply bind_Ok_inv in Hrun as (v & Hv & Hrun).
    apply py_getitem_int_elem in Hinst.
    unfold dict_getitem in Hv. destruct (dict_get instance name) eqn:Hget; [|done].
    injection Hv as ->.
    destruct (IH _ _ _ _ Hrun) as (Hnd' & Hout & Hin); [by apply dict_setitem_NoDup|].
    split_and!; [done| |].
    + intros k [Hne Hk]%not_elem_of_cons. rewrite (Hout k Hk), dict_get_setitem.
      by rewrite decide_False by done.
    + intros k Hk. destruct (decide (k ∈ rest)) as [Hrest|Hrest]; [by apply Hin|].
      apply elem_of_cons in Hk as [->|Hk]; [|done].
      exists instance. rewrite (Hout name Hrest), dict_get_setitem, decide_True by done.
      by rewrite Hget.
Qed.

Lemma _sample_spec {S Y} `{BaseStorage S (list (string * V)) Y}
    (storage_object : S) feature_subset self sampled self' :
  _sample storage_object feature_subset self = Ok (sampled, self') →
  model_function self' = model_function self ∧
  sampling_strategy self' = sampling_strategy self ∧
  NoDup sampled.*1 ∧
  imputed (get_data storage_object).1 (bool_decide (sampling_strategy self = "joint"))
    feature_subset [] sampled.
Proof.
  unfold _sample. destruct (get_data storage_object) as [features ys]. cbn [fst].
  destruct (decide (sampling_strategy self = "joint")) as [Hj|Hj].
  - rewrite bool_decide_eq_true_2 by done. unfold _sample_marginals.
    intros ([rand_idx g] & _ & Hrun)%bind_Ok_inv.
    apply bind_Ok_inv in Hrun as (instance & Hinst & Hrun).
    apply bind_Ok_inv in Hrun as (d & Hd & [= <- <-]).
    apply py_getitem_int_elem in Hinst.
    apply comprehension_spec in Hd as (Hnd & Hout & Hin); [|constructor].
    split_and!; try done. split; [done|]. by exists instance.
  - rewrite bool_decide_eq_false_2 by done. unfold _sample_product_marginals.
    intros ([d g] & Hd & [= <- <-])%bind_Ok_inv.
    apply product_loop_spec in Hd as (Hnd & Hout & Hin); [|constructor].
    by split_and!.
Qed.

Lemma imputed_merge (features : list (list (string * V))) joint feature_subset x sampled :
  NoDup sampled.*1 →
  imputed features joint feature_subset [] sampled →
  imputed features joint feature_subset x (dict_merge x sampled).
Proof.
  intros Hnd [Hout Hin]. split.
  - intros k Hk. rewrite dict_get_merge by done. by rewrite (Hout k Hk).
  - destruct joint.
    + destruct Hin as (instance & Hinst & Hin). exists instance. split; [done|].
      intros k Hk. destruct (Hin k Hk) as [[v Hv] Heq]. split; [by exists v|].
      rewrite dict_get_merge by done. by rewrite Heq, Hv.
    + intros k Hk. destruct (Hin k Hk) as (instance & Hinst & [v Hv] & Heq).
      exists instance. split_and!; [done|by exists v|].
      rewrite dict_get_merge by done. by rewrite Heq, Hv.
Qed.

(** The loop of [impute]. *)
#[warnings="-inconsistent-scopes"]
Local Abbreviation impute_body storage_object feature_subset x_i :=
  (λ (_ : nat) '(predictions, self),
     '(sampled_values, self) ← _sample storage_object feature_subset self;
     let prediction := model_function self (dict_merge x_i sampled_values) in
     Ok (predictions ++ [prediction], self)).

Lemma impute_loop_spec {S Y} `{BaseStorage S (list (string * V)) Y}
    (storage_object : S) feature_subset x_i (n : nat) :
  ∀ i predictions self predictions' self',
    for_range (impute_body storage_object feature_subset x_i) i n (predictions, self)
      = Ok (predictions', self') →
    model_function self' = model_function self ∧
    sampling_strategy self' = sampling_strategy self ∧
    ∃ new,
      predictions' = predictions ++ new ∧ length new = n ∧
      Forall (λ p, ∃ d, p = model_function self d ∧
                        imputed (get_data storage_object).1
                          (bool_decide (sampling_strategy self = "joint"))
                          feature_subset x_i d) new.
Proof.
  induction n as [|n IH]; intros i predictions self predictions' self'.
  - cbn. intros [= <- <-]. split_and!; try done. exists []. by rewrite app_nil_r.
  - rewrite for_range_S. intros ([predictions1 self1] & Hstep & Hrest)%bind_Ok_inv.
    apply bind_Ok_inv in Hstep as ([sampled self2] & Hsample & [= <- <-]).
    apply _sample_spec in Hsample as (Hm & Hs & Hnd & Himp).
    apply IH in Hrest as (Hm' & Hs' & new & -> & Hlen & Hall).
    split_and!; [congruence|congruence|].
    exists (model_function self2 (dict_merge x_i sampled) :: new).
    rewrite <- app_assoc. split_and!; [done|cbn; lia|]. constructor.
    + exists (dict_merge x_i sampled). split; [by rewrite Hm|]. by apply imputed_merge.
    + rewrite Hm, Hs in Hall. exact Hall.
Qed.

End imputer_facts.

(** X15. What [_sample] draws. A call of [_sample] that returns gives a
    dict whose keys are the features of [feature_subset], each once. With
    the strategy 'joint' all its values are those of one stored instance;
    with any other strategy the value of each feature is that of some
    stored instance, drawn for this feature. The call changes nothing of
    the imputer but its generator. *)
Theorem sample_draws_stored_values `{NumpyRandom} {V P S Y : Type}
    `{BaseStorage S (list (string * V)) Y}
    (storage_object : S) (feature_subset : list string)
    (self self' : MarginalImputer.t V P) (sampled : list (string * V)) :
  MarginalImputer._sample storage_object feature_subset self = Ok (sampled, self') →
  MarginalImputer.model_function self' = MarginalImputer.model_function self ∧
  MarginalImputer.sampling_strategy self' = MarginalImputer.sampling_strategy self ∧
  NoDup sampled.*1 ∧
  (∀ k, k ∈ sampled.*1 ↔ k ∈ feature_subset) ∧
  imputed (get_data storage_object).1
    (bool_decide (MarginalImputer.sampling_strategy self = "joint"))
    feature_subset [] sampled.
Proof.
  intros Hrun. apply _sample_spec in Hrun as (Hm & Hs & Hnd & Himp).
  split_and!; try done. intros k. destruct Himp as [Hout Hin].
  destruct (decide (k ∈ feature_subset)) as [Hk|Hk].
  - split; [done|]. intros _.
    assert (Hsome : is_Some (dict_get sampled k)).
    { destruct (bool_decide _).
      - destruct Hin as (instance & _ & Hin). destruct (Hin k Hk) as [? ->]. done.
      - destruct (Hin k Hk) as (instance & _ & ? & ->). done. }
    destruct (decide (k ∈ sampled.*1)) as [|Hnin]; [done|].
    rewrite (dict_get_None _ _ Hnin) in Hsome. by destruct Hsome.
  - split; [|done]. intros Hin'. exfalso.
    specialize (Hout k Hk). cbn in Hout.
    apply list_elem_of_fmap in Hin' as ([k' v] & -> & Hkv). cbn in *.
    clear -Hout Hkv. induction sampled as [|[k0 v0] d IH]; [by apply elem_of_nil in Hkv|].
    cbn in Hout. destruct (decide (k0 = k')) as [->|Hne]; [done|].
    apply elem_of_cons in Hkv as [[= -> ->]|Hkv]; [done|]. by apply IH.
Qed.

Lemma sample_draws_stored_values_witness :
  let sampled := Scenarios.joint_sample.1 in
  let self' := Scenarios.joint_sample.2 in
  MarginalImputer.model_function self'
    = MarginalImputer.model_function (Scenarios.salary_imputer "joint") ∧
  MarginalImputer.sampling_strategy self'
    = MarginalImputer.sampling_strategy (Scenarios.salary_imputer "joint") ∧
  NoDup sampled.*1 ∧
  (∀ k, k ∈ sampled.*1 ↔ k ∈ ["salary"; "age"]) ∧
  imputed Scenarios.stored_instances true ["salary"; "age"] [] sampled.
Proof.
  refine (sample_draws_stored_values (H := Examples.lcg)
            Scenarios.instance_reservoir ["salary"; "age"] (Scenarios.salary_imputer "joint")
            Scenarios.joint_sample.2 Scenarios.joint_sample.1 _).
  vm_compute. reflexivity.
Defined.

(** X16. What [impute] predicts. A call of [impute] that returns gives
    [n_samples] predictions. Each is the model function at an instance
    that is [x_i] outside [feature_subset] and has, on [feature_subset],
    the values of one stored instance (strategy 'joint') or of one stored
    instance for each feature (any other strategy). The call changes
    nothing of the imputer but its generator. *)
Theorem impute_predictions `{NumpyRandom} {V P S Y : Type}
    `{BaseStorage S (list (string * V)) Y}
    (storage_object : S) (feature_subset : list string) (x_i : list (string * V))
    (n_samples : Z) (self self' : MarginalImputer.t V P) (predictions : list P) :
  MarginalImputer.impute storage_object feature_subset x_i n_samples self
    = Ok (predictions, self') →
  length predictions = Z.to_nat n_samples ∧
  MarginalImputer.model_function self' = MarginalImputer.model_function self ∧
  MarginalImputer.sampling_strategy self' = MarginalImputer.sampling_strategy self ∧
  Forall (λ p, ∃ d, p = MarginalImputer.model_function self d ∧
                    imputed (get_data storage_object).1
                      (bool_decide (MarginalImputer.sampling_strategy self = "joint"))
                      feature_subset x_i d) predictions.
Proof.
  unfold MarginalImputer.impute. intros Hrun.
  apply impute_loop_spec in Hrun as (Hm & Hs & new & -> & Hlen & Hall). by split_and!.
Qed.

Lemma impute_predictions_witness :
  let predictions := Scenarios.product_imputation.1 in
  let self' := Scenarios.product_imputation.2 in
  length predictions = Z.to_nat 2 ∧
  MarginalImputer.model_function self'
    = MarginalImputer.model_function (Scenarios.salary_imputer "product") ∧
  MarginalImputer.sampling_strategy self'
    = MarginalImputer.sampling_strategy (Scenarios.salary_imputer "product") ∧
  Forall (λ p, ∃ d, p = MarginalImputer.model_function (Scenarios.salary_imputer "product") d ∧
                    imputed Scenarios.stored_instances false ["salary"; "age"]
                      Scenarios.explained_instance d) predictions.
Proof.
  refine (impute_predictions (H := Examples.lcg)
            Scenarios.instance_reservoir ["salary"; "age"] Scenarios.explained_instance 2
            (Scenarios.salary_imputer "product")
            Scenarios.product_imputation.2 Scenarios.product_imputation.1 _).
  vm_compute. reflexivity.
Defined.

Section imputer_returns.
Context `{NumpyRandom} {V P : Type}.
Implicit Types (self : MarginalImputer.t V P) (d : list (string * V)).
Import MarginalImputer.

Lemma with_rng_id self : with_rng (rng self) self = self.
Proof. by destruct self. Qed.

Lemma comprehension_returns (sampled_instance : list (string * V)) feature_subset :
  (∀ k, k ∈ feature_subset → is_Some (dict_get sampled_instance k)) →
  ∀ acc, ∃ d, comprehension sampled_instance feature_subset acc = Ok d.
Proof.
  induction feature_subset as [|name rest IH]; intros Hall acc; cbn; [by eexists|].
  destruct (Hall name) as [v Hv]; [left|].
  unfold dict_getitem. rewrite Hv, bind_Ok. apply IH. intros k Hk. apply Hall. by right.
Qed.

Lemma comprehension_missing (sampled_instance : list (string * V)) feature_subset k :
  k ∈ feature_subset → dict_get sampled_instance k = None →
  ∀ acc, ∃ k', k' ∈ feature_subset ∧
               comprehension sampled_instance feature_subset acc = Raise (KeyError k').
Proof.
  induction feature_subset as [|name rest IH]; intros Hk Hnone acc;
    [by apply elem_of_nil in Hk|].
  cbn. unfold dict_getitem.
  destruct (dict_get sampled_instance name) as [v|] eqn:Hget.
  - rewrite bind_Ok. apply elem_of_cons in Hk as [->|Hk]; [congruence|].
    destruct (IH Hk Hnone (dict_setitem acc name v)) as (k' & Hk' & ->).
    exists k'. split; [by right|done].
  - exists name. split; [left|done].
Qed.

Lemma product_loop_returns (features : list (list (string * V))) feature_subset :
  randint_in_range → features ≠ [] →
  (∀ instance k, instance ∈ features → k ∈ feature_subset →
                 is_Some (dict_get instance k)) →
  ∀ acc g, ∃ d g', product_loop features feature_subset acc g = Ok (d, g').
Proof.
  intros Hrandint Hne.
  induction feature_subset as [|name rest IH]; intros Hall acc g; cbn; [by eexists _, _|].
  destruct (Hrandint (Z.of_nat (length features)) g) as (i & g1 & -> & Hi).
  { destruct features; [done|cbn; lia]. }
  rewrite bind_Ok. cbn beta iota.
  destruct (py_getitem_int_in_range features i Hi) as (instance & -> & Hin).
  rewrite bind_Ok. destruct (Hall instance name Hin) as [v Hv]; [left|].
  unfold dict_getitem. rewrite Hv, bind_Ok. apply IH.
  intros inst k Hinst Hk. apply Hall; [done|by right].
Qed.

Lemma product_loop_missing (features : list (list (string * V))) feature_subset k :
  randint_in_range → features ≠ [] →
  k ∈ feature_subset →
  (∀ instance, instance ∈ features → dict_get instance k = None) →
  ∀ acc g, ∃ k', k' ∈ feature_subset ∧
                 product_loop features feature_subset acc g = Raise (KeyError k').
Proof.
  intros Hrandint Hne.
  induction feature_subset as [|name rest IH]; intros Hk Hnone acc g;
    [by apply elem_of_nil in Hk|].
  cbn. destruct (Hrandint (Z.of_nat (length features)) g) as (i & g1 & -> & Hi).
  { destruct features; [done|cbn; lia]. }
  rewrite bind_Ok. cbn beta iota.
  destruct (py_getitem_int_in_range features i Hi) as (instance & -> & Hin).
  rewrite bind_Ok. unfold dict_getitem.
  destruct (dict_get instance name) as [v|] eqn:Hget.
  - rewrite bind_Ok. apply elem_of_cons in Hk as [->|Hk].
    { rewrite (Hnone instance Hin) in Hget. done. }
    destruct (IH Hk Hnone (dict_setitem acc name v) g1) as (k' & Hk' & ->).
    exists k'. split; [by right|done].
  - exists name. split; [left|done].
Qed.

Lemma _sample_returns {S Y} `{BaseStorage S (list (string * V)) Y}
    (storage_object : S) feature_subset self :
  randint_in_range → (get_data storage_object).1 ≠ [] →
  (∀ instance k, instance ∈ (get_data storage_object).1 → k ∈ feature_subset →
                 is_Some (dict_get instance k)) →
  ∃ sampled self', _sample storage_object feature_subset self = Ok (sampled, self').
Proof.
  intros Hrandint. unfold _sample. destruct (get_data storage_object) as [features ys].
  cbn [fst]. intros Hne Hall. destruct (decide (sampling_strategy self = "joint")).
  - unfold _sample_marginals.
    destruct (Hrandint (Z.of_nat (length features)) (rng self)) as (i & g1 & -> & Hi).
    { destruct features; [done|cbn; lia]. }
    rewrite bind_Ok. cbn beta iota.
    destruct (py_getitem_int_in_range features i Hi) as (instance & -> & Hin).
    rewrite bind_Ok.
    destruct (comprehension_returns instance feature_subset) with (acc := @nil (string * V))
      as [d ->]; [by intros k Hk; apply Hall|].
    rewrite bind_Ok. by eexists _, _.
  - unfold _sample_product_marginals.
    destruct (product_loop_returns features feature_subset Hrandint Hne Hall [] (rng self))
      as (d & g' & ->).
    rewrite bind_Ok. by eexists _, _.
Qed.

Lemma _sample_missing {S Y} `{BaseStorage S (list (string * V)) Y}
    (storage_object : S) feature_subset k self :
  randint_in_range → (get_data storage_object).1 ≠ [] →
  k ∈ feature_subset →
  (∀ instance, instance ∈ (get_data storage_object).1 → dict_get instance k = None) →
  ∃ k', k' ∈ feature_subset ∧
        _sample storage_object feature_subset self = Raise (KeyError k').
Proof.
  intros Hrandint. unfold _sample. destruct (get_data storage_object) as [features ys].
  cbn [fst]. intros Hne Hk Hnone. destruct (decide (sampling_strategy self = "joint")).
  - unfold _sample_marginals.
    destruct (Hrandint (Z.of_nat (length features)) (rng self)) as (i & g1 & -> & Hi).
    { destruct features; [done|cbn; lia]. }
    rewrite bind_Ok. cbn beta iota.
    destruct (py_getitem_int_in_range features i Hi) as (instance & -> & Hin).
    rewrite bind_Ok.
    destruct (comprehension_missing instance feature_subset k Hk (Hnone instance Hin) [])
      as (k' & Hk' & ->).
    by exists k'.
  - unfold _sample_product_marginals.
    destruct (product_loop_missing features feature_subset k Hrandint Hne Hk Hnone [] (rng self))
      as (k' & Hk' & ->).
    by exists k'.
Qed.

Lemma _sample_empty {S Y} `{BaseStorage S (list (string * V)) Y}
    (storage_object : S) feature_subset self :
  randint_rejects → (get_data storage_object).1 = [] →
  (sampling_strategy self = "joint" ∨ feature_subset ≠ [] →
     ∃ msg, _sample storage_object feature_subset self = Raise (ValueError msg)) ∧
  (sampling_strategy self ≠ "joint" → feature_subset = [] →
     _sample storage_object feature_subset self = Ok ([], self)).
Proof.
  intros Hrej. unfold _sample. destruct (get_data storage_object) as [features ys].
  cbn [fst]. intros ->. split.
  - intros Hcase. destruct (decide (sampling_strategy self = "joint")) as [Hj|Hj].
    + unfold _sample_marginals.
      destruct (Hrej (Z.of_nat (length (@nil (list (string * V))))) (rng self))
        as [msg Hmsg]; [done|].
      rewrite Hmsg. by exists msg.
    + destruct Hcase as [?|Hne]; [done|]. unfold _sample_product_marginals.
      destruct feature_subset as [|name rest]; [done|]. cbn [product_loop].
      destruct (Hrej (Z.of_nat (length (@nil (list (string * V))))) (rng self))
        as [msg Hmsg]; [done|].
      rewrite Hmsg. by exists msg.
  - intros Hj ->. rewrite decide_False by done. unfold _sample_product_marginals. cbn.
    by rewrite with_rng_id.
Qed.

End imputer_returns.

(** X17. [impute] returns. When the reservoir holds at least one instance
    and every stored instance has every feature of [feature_subset],
    [impute] returns, with [n_samples] predictions (none for a count that
    is not positive). *)
Theorem impute_returns `{NumpyRandom} {V P S Y : Type}
    `{BaseStorage S (list (string * V)) Y}
    (storage_object : S) (feature_subset : list string) (x_i : list (string * V))
    (n_samples : Z) (self : MarginalImputer.t V P) :
  randint_in_range →
  (get_data storage_object).1 ≠ [] →
  (∀ instance k, instance ∈ (get_data storage_object).1 → k ∈ feature_subset →
                 is_Some (dict_get instance k)) →
  ∃ predictions self',
    MarginalImputer.impute storage_object feature_subset x_i n_samples self
      = Ok (predictions, self') ∧
    length predictions = Z.to_nat n_samples.
Proof.
  intros Hrandint Hne Hall. unfold MarginalImputer.impute.
  assert (Hloop : ∀ n i (predictions : list P) (self0 : MarginalImputer.t V P),
    ∃ predictions' self',
      for_range (λ (_ : nat) '(predictions, self),
          '(sampled_values, self) ←
            MarginalImputer._sample storage_object feature_subset self;
          let prediction :=
            MarginalImputer.model_function self (dict_merge x_i sampled_values) in
          Ok (predictions ++ [prediction], self)) i n (predictions, self0)
        = Ok (predictions', self') ∧
      length predictions' = length predictions + n).
  { induction n as [|n IH]; intros i predictions self0.
    - exists predictions, self0. split; [done|lia].
    - rewrite for_range_S.
      destruct (_sample_returns storage_object feature_subset self0 Hrandint Hne Hall)
        as (sampled & self1 & ->).
      rewrite !bind_Ok. cbn beta iota zeta.
      destruct (IH (Datatypes.S i) (predictions ++
                  [MarginalImputer.model_function self1 (dict_merge x_i sampled)]) self1)
        as (predictions' & self' & Hrun & Hlen).
      exists predictions', self'. split; [exact Hrun|]. rewrite Hlen, length_app. cbn. lia. }
  destruct (Hloop (Z.to_nat n_samples) 0 [] self) as (predictions & self' & Hrun & Hlen).
  by exists predictions, self'.
Qed.

Lemma impute_returns_witness :
  ∃ predictions self',
    MarginalImputer.impute Scenarios.instance_reservoir ["salary"; "age"]
      Scenarios.explained_instance 2 (Scenarios.salary_imputer "joint")
      = Ok (predictions, self') ∧
    length predictions = Z.to_nat 2.
Proof.
  apply (impute_returns (H := Examples.lcg)
           Scenarios.instance_reservoir ["salary"; "age"] Scenarios.explained_instance 2
           (Scenarios.salary_imputer "joint")).
  - exact lcg_randint_in_range.
  - discriminate.
  - intros instance k Hinst Hk. cbn in Hinst.
    repeat (apply elem_of_cons in Hinst as [->|Hinst]);
      [| | |by apply elem_of_nil in Hinst];
      (repeat (apply elem_of_cons in Hk as [->|Hk]); [| |by apply elem_of_nil in Hk]);
      by eexists.
Defined.

(** X18. Imputing from an empty reservoir. While the reservoir holds no
    instance, [randint(0)] raises: [impute] with a positive [n_samples]
    raises a [ValueError] when the strategy is 'joint' or the feature
    subset is not empty. For another strategy and an empty feature subset
    no index is drawn, and [impute] returns [n_samples] times the
    prediction for [x_i] itself. *)
Theorem impute_empty_reservoir `{NumpyRandom} {V P S Y : Type}
    `{BaseStorage S (list (string * V)) Y}
    (storage_object : S) (feature_subset : list string) (x_i : list (string * V))
    (n_samples : Z) (self : MarginalImputer.t V P) :
  randint_rejects →
  (get_data storage_object).1 = [] →
  (0 < n_samples)%Z →
  (MarginalImputer.sampling_strategy self = "joint" ∨ feature_subset ≠ [] →
     ∃ msg, MarginalImputer.impute storage_object feature_subset x_i n_samples self
            = Raise (ValueError msg)) ∧
  (MarginalImputer.sampling_strategy self ≠ "joint" → feature_subset = [] →
     MarginalImputer.impute storage_object feature_subset x_i n_samples self
     = Ok (replicate (Z.to_nat n_samples) (MarginalImputer.model_function self x_i), self)).
Proof.
  intros Hrej Hempty Hn. unfold MarginalImputer.impute.
  destruct (_sample_empty storage_object feature_subset self Hrej Hempty) as [Hraise Hok].
  split.
  - intros Hcase. destruct (Hraise Hcase) as [msg Hmsg]. exists msg.
    destruct (Z.to_nat n_samples) as [|n] eqn:Hnat; [lia|].
    rewrite for_range_S. by rewrite Hmsg.
  - intros Hj Hsub. specialize (Hok Hj Hsub).
    assert (Hloop : ∀ n i predictions,
      for_range (λ (_ : nat) '(predictions, self),
          '(sampled_values, self) ←
            MarginalImputer._sample storage_object feature_subset self;
          let prediction :=
            MarginalImputer.model_function self (dict_merge x_i sampled_values) in
          Ok (predictions ++ [prediction], self)) i n (predictions, self)
        = Ok (predictions ++ replicate n (MarginalImputer.model_function self x_i), self)).
    { induction n as [|n IH]; intros i predictions.
      - cbn. by rewrite app_nil_r.
      - rewrite for_range_S, Hok, !bind_Ok. cbn beta iota zeta.
        rewrite IH. cbn. by rewrite <- app_assoc. }
    apply (Hloop (Z.to_nat n_samples) 0 []).
Qed.

Lemma impute_empty_reservoir_witness :
  (MarginalImputer.sampling_strategy (Scenarios.salary_imputer "joint") = "joint"
   ∨ ["salary"] ≠ [] →
     ∃ msg, MarginalImputer.impute Scenarios.empty_reservoir ["salary"]
              Scenarios.explained_instance 1 (Scenarios.salary_imputer "joint")
            = Raise (ValueError msg)) ∧
  (MarginalImputer.sampling_strategy (Scenarios.salary_imputer "joint") ≠ "joint" →
   ["salary"] = [] →
     MarginalImputer.impute Scenarios.empty_reservoir ["salary"]
       Scenarios.explained_instance 1 (Scenarios.salary_imputer "joint")
     = Ok (replicate (Z.to_nat 1)
             (MarginalImputer.model_function (Scenarios.salary_imputer "joint")
                Scenarios.explained_instance),
           Scenarios.salary_imputer "joint")).
Proof.
  apply (impute_empty_reservoir (H := Examples.lcg)
           Scenarios.empty_reservoir ["salary"] Scenarios.explained_instance 1
           (Scenarios.salary_imputer "joint")).
  - exact lcg_randint_rejects.
  - reflexivity.
  - lia.
Defined.

(** X19. Imputing a feature that the reservoir has not seen. When no
    stored instance has the feature [k] of [feature_subset], [impute] with
    a positive [n_samples] raises a [KeyError] for a feature of
    [feature_subset]. *)
Theorem impute_missing_feature `{NumpyRandom} {V P S Y : Type}
    `{BaseStorage S (list (string * V)) Y}
    (storage_object : S) (feature_subset : list string) (x_i : list (string * V))
    (n_samples : Z) (self : MarginalImputer.t V P) (k : string) :
  randint_in_range →
  (get_data storage_object).1 ≠ [] →
  (0 < n_samples)%Z →
  k ∈ feature_subset →
  (∀ instance, instance ∈ (get_data storage_object).1 → dict_get instance k = None) →
  ∃ k', k' ∈ feature_subset ∧
        MarginalImputer.impute storage_object feature_subset x_i n_samples self
        = Raise (KeyError k').
Proof.
  intros Hrandint Hne Hn Hk Hnone. unfold MarginalImputer.impute.
  destruct (_sample_missing storage_object feature_subset k self Hrandint Hne Hk Hnone)
    as (k' & Hk' & Hraise).
  exists k'. split; [done|].
  destruct (Z.to_nat n_samples) as [|n] eqn:Hnat; [lia|].
  rewrite for_range_S. by rewrite Hraise.
Qed.

Lemma impute_missing_feature_witness :
  ∃ k', k' ∈ ["salary"; "loan"] ∧
        MarginalImputer.impute Scenarios.instance_reservoir ["salary"; "loan"]
          Scenarios.explained_instance 1 (Scenarios.salary_imputer "joint")
        = Raise (KeyError k').
Proof.
  apply (impute_missing_feature (H := Examples.lcg)
           Scenarios.instance_reservoir ["salary"; "loan"] Scenarios.explained_instance 1
           (Scenarios.salary_imputer "joint") "loan").
  - exact lcg_randint_in_range.
  - discriminate.
  - lia.
  - right. left.
  - intros instance Hinst. cbn in Hinst.
    repeat (apply elem_of_cons in Hinst as [->|Hinst]); try reflexivity.
    by apply elem_of_nil in Hinst.
Defined.

(** ** The salary drift of the Agrawal stream *)

Lemma py_int_quarter (n : Z) : py_int (inject_Z n / 4) = (n ÷ 4)%Z.
Proof. unfold py_int. cbn. by rewrite Z.mul_1_r. Qed.

(** The value [40000 * instance_idx / num_instances - 10000] as one
    fraction. *)
Lemma drift_value_eq (p : positive) (idx : Z) :
  (inject_Z (40000 * idx) / inject_Z (Z.pos p) - 10000
   == (40000 * idx - 10000 * Z.pos p) # p)%Q.
Proof.
  unfold Qeq, Qminus, Qplus, Qopp, Qdiv, Qmult, Qinv, inject_Z.
  cbn -[Z.mul]. lia.
Qed.

Lemma py_min_le_l (a b : Q) : (a <= b)%Q → py_min a b = a.
Proof.
  intros Hab. unfold py_min. destruct (Qlt_bool b a) eqn:Hlt; [|done].
  apply Qlt_bool_true in Hlt. by apply Qlt_not_le in Hlt.
Qed.

Lemma py_min_ge_r (a b : Q) : (b <= a)%Q → (py_min a b == b)%Q.
Proof.
  intros Hba. unfold py_min. destruct (Qlt_bool b a) eqn:Hlt; [done|].
  apply Qlt_bool_false in Hlt. by apply Qle_antisym.
Qed.

Lemma py_min_mono (a a' b : Q) : (a <= a')%Q → (py_min a b <= py_min a' b)%Q.
Proof.
  intros Ha. unfold py_min.
  destruct (Qlt_bool b a) eqn:Hlt, (Qlt_bool b a') eqn:Hlt';
    rewrite ?Qlt_bool_true, ?Qlt_bool_false in *.
  - apply Qle_refl.
  - apply Qle_trans with a; [by apply Qlt_le_weak|done].
  - done.
  - done.
Qed.

Section salary_drift_facts.
Context `{NumpyRandom}.

(** The inflation of the drift phase. *)
Local Abbreviation inflation num_instances instance_idx :=
  (py_min (inject_Z (40000 * instance_idx) / inject_Z num_instances - 10000) 20000).

Lemma salary_drift_before (num_instances instance_idx : Z) rng :
  (40000 ≤ num_instances)%Z → (instance_idx < num_instances ÷ 4)%Z →
  salary_drift num_instances instance_idx rng
    = Ok (20000 + 130000 * (rng_random rng).1, (rng_random rng).2)%Q.
Proof.
  intros Hn Hidx. unfold salary_drift.
  rewrite decide_False by lia. rewrite py_int_quarter, decide_False by lia.
  by destruct (rng_random rng).
Qed.

Lemma salary_drift_after (num_instances instance_idx : Z) rng :
  (40000 ≤ num_instances)%Z → (num_instances ÷ 4 ≤ instance_idx)%Z →
  salary_drift num_instances instance_idx rng
    = Ok (inflation num_instances instance_idx + 20000 + 130000 * (rng_random rng).1,
          (rng_random rng).2)%Q.
Proof.
  intros Hn Hidx. unfold salary_drift.
  rewrite decide_False by lia. rewrite py_int_quarter, decide_True by lia.
  by destruct (rng_random rng).
Qed.

Lemma inflation_ramp (num_instances instance_idx : Z) :
  (0 < num_instances)%Z → (4 * instance_idx ≤ 3 * num_instances)%Z →
  inflation num_instances instance_idx
    = (inject_Z (40000 * instance_idx) / inject_Z num_instances - 10000)%Q.
Proof.
  intros Hn Hidx. destruct num_instances as [|p|p]; [lia| |lia].
  apply py_min_le_l. rewrite drift_value_eq. unfold Qle. cbn -[Z.mul]. lia.
Qed.

Lemma inflation_cap (num_instances instance_idx : Z) :
  (0 < num_instances)%Z → (3 * num_instances ≤ 4 * instance_idx)%Z →
  (inflation num_instances instance_idx == 20000)%Q.
Proof.
  intros Hn Hidx. destruct num_instances as [|p|p]; [lia| |lia].
  apply py_min_ge_r. rewrite drift_value_eq. unfold Qle. cbn -[Z.mul]. lia.
Qed.

Lemma inflation_le (num_instances instance_idx : Z) :
  (inflation num_instances instance_idx <= 20000)%Q.
Proof.
  unfold py_min. destruct (Qlt_bool _ _) eqn:Hlt; [apply Qle_refl|].
  by apply Qlt_bool_false in Hlt.
Qed.

Lemma inflation_ge (num_instances instance_idx : Z) :
  (40000 ≤ num_instances)%Z → (num_instances ÷ 4 ≤ instance_idx)%Z →
  (- (3 # 4) <= inflation num_instances instance_idx)%Q.
Proof.
  intros Hn Hidx. pose proof (Z.quot_rem' num_instances 4) as Hq.
  pose proof (Z.rem_bound_pos num_instances 4 ltac:(lia) ltac:(lia)) as Hr.
  destruct num_instances as [|p|p]; [lia| |lia].
  unfold py_min. destruct (Qlt_bool _ _); [done|].
  rewrite drift_value_eq. unfold Qle. cbn -[Z.mul Z.quot Z.rem]. lia.
Qed.

Lemma inflation_nonneg (num_instances instance_idx : Z) :
  (0 < num_instances)%Z → (num_instances ≤ 4 * instance_idx)%Z →
  (0 <= inflation num_instances instance_idx)%Q.
Proof.
  intros Hn Hidx. destruct num_instances as [|p|p]; [lia| |lia].
  unfold py_min. destruct (Qlt_bool _ _); [done|].
  rewrite drift_value_eq. unfold Qle. cbn -[Z.mul]. lia.
Qed.

Lemma inflation_mono (num_instances i j : Z) :
  (0 < num_instances)%Z → (i ≤ j)%Z →
  (inflation num_instances i <= inflation num_instances j)%Q.
Proof.
  intros Hn Hij. destruct num_instances as [|p|p]; [lia| |lia].
  apply py_min_mono. rewrite !drift_value_eq. unfold Qle. cbn -[Z.mul]. nia.
Qed.


End salary_drift_facts.

(** X20. What [salary_drift] returns. With fewer than 40000 instances it
    raises the ValueError that names the number.
    Otherwise it returns a salary and has drawn exactly one number [r] in
    [0, 1) from the generator: before a quarter of the stream the salary is
    [20000 + 130000 * r], between 20000 and 150000; from then on it is that
    plus an inflation of at most 20000 and of at least -3/4, so the salary
    lies between 19999.25 and 170000. The bounds are not strict: they are
    the ones that the rounding of floating-point arithmetic keeps, and the
    upper ones are reached by a draw next to 1. *)
Theorem salary_drift_range `{NumpyRandom}
    (num_instances instance_idx : Z) (rng : RandomState) :
  random_in_unit_interval →
  match salary_drift num_instances instance_idx rng with
  | Raise e =>
      (num_instances < 40000)%Z ∧
      e = ValueError ("Got " +:+ pretty num_instances
                      +:+ " num_instances for salary_drift, but at least 40000 are needed.")
  | Ok (salary, g) =>
      (40000 ≤ num_instances)%Z ∧
      g = (rng_random rng).2 ∧
      (20000 - (3 # 4) <= salary)%Q ∧ (salary <= 170000)%Q ∧
      ((instance_idx < num_instances ÷ 4)%Z →
         salary = (20000 + 130000 * (rng_random rng).1)%Q ∧
         (20000 <= salary)%Q ∧ (salary <= 150000)%Q) ∧
      ((num_instances ≤ 4 * instance_idx)%Z →
         (20000 + 130000 * (rng_random rng).1 <= salary)%Q)
  end.
Proof.
  intros Hunit. destruct (Hunit rng) as [Hr0 Hr1].
  destruct (decide (num_instances < 40000)%Z) as [Hn|Hn].
  { unfold salary_drift. by rewrite decide_True. }
  destruct (decide (num_instances ÷ 4 ≤ instance_idx)%Z) as [Hidx|Hidx].
  - rewrite salary_drift_after by lia.
    pose proof (inflation_le num_instances instance_idx) as Hle.
    pose proof (inflation_ge num_instances instance_idx ltac:(lia) Hidx) as Hge.
    set (v := py_min _ _) in *. set (r := (rng_random rng).1) in *.
    split_and!; [lia|done| | |lia|].
    + apply Qle_trans with (- (3 # 4) + 20000 + 130000 * 0)%Q; [done|].
      apply Qplus_le_compat; [by apply Qplus_le_compat; [|apply Qle_refl]|].
      apply Qmult_le_l; done.
    + apply Qle_trans with (20000 + 20000 + 130000 * r)%Q.
      * apply Qplus_le_compat; [|apply Qle_refl].
        by apply Qplus_le_compat; [|apply Qle_refl].
      * apply Qle_trans with (20000 + 20000 + 130000 * 1)%Q; [|done].
        apply Qplus_le_compat; [apply Qle_refl|].
        apply Qmult_le_l; [done|]. by apply Qlt_le_weak.
    + intros H4. pose proof (inflation_nonneg num_instances instance_idx ltac:(lia) H4) as H0.
      fold v in H0. rewrite <- Qplus_assoc.
      rewrite <- (Qplus_0_l (20000 + 130000 * r)) at 1.
      by apply Qplus_le_compat; [|apply Qle_refl].
  - rewrite salary_drift_before by lia. set (r := (rng_random rng).1) in *.
    assert (Hlo : (20000 <= 20000 + 130000 * r)%Q).
    { apply Qle_trans with (20000 + 130000 * 0)%Q; [done|].
      apply Qplus_le_compat; [apply Qle_refl|]. by apply Qmult_le_l. }
    assert (Hhi : (20000 + 130000 * r <= 150000)%Q).
    { apply Qle_trans with (20000 + 130000 * 1)%Q; [|done].
      apply Qplus_le_compat; [apply Qle_refl|].
      apply Qmult_le_l; [done|]. by apply Qlt_le_weak. }
    split_and!; [lia|done| | |done|intros _; apply Qle_refl].
    + by apply Qle_trans with 20000%Q.
    + by apply Qle_trans with 150000%Q.
Qed.

Lemma salary_drift_range_witness :
  match @salary_drift Examples.lcg 40000 10000 1%Z with
  | Raise e =>
      (40000 < 40000)%Z ∧
      e = ValueError ("Got " +:+ pretty 40000%Z
                      +:+ " num_instances for salary_drift, but at least 40000 are needed.")
  | Ok (salary, g) =>
      (40000 ≤ 40000)%Z ∧
      g = (@rng_random Examples.lcg 1%Z).2 ∧
      (20000 - (3 # 4) <= salary)%Q ∧ (salary <= 170000)%Q ∧
      ((10000 < 40000 ÷ 4)%Z →
         salary = (20000 + 130000 * (@rng_random Examples.lcg 1%Z).1)%Q ∧
         (20000 <= salary)%Q ∧ (salary <= 150000)%Q) ∧
      ((40000 ≤ 4 * 10000)%Z →
         (20000 + 130000 * (@rng_random Examples.lcg 1%Z).1 <= salary)%Q)
  end.
Proof.
  apply (salary_drift_range (H := Examples.lcg) 40000 10000 1%Z).
  exact lcg_random_in_unit_interval.
Defined.

(** X21. The inflation of the drift phase. From a quarter of the stream on
    (with at least 40000 instances) the salary is
    [inflation + 20000 + 130000 * r]; up to three quarters of the stream the
    inflation is [40000 * instance_idx / num_instances - 10000], from three
    quarters on it equals 20000; and for the same draw the salary of a
    later instance of the drift phase is at least that of an earlier one. *)
Theorem salary_drift_inflation `{NumpyRandom}
    (num_instances i j : Z) (rng : RandomState) :
  (40000 ≤ num_instances)%Z →
  (num_instances ÷ 4 ≤ i)%Z →
  (i ≤ j)%Z →
  ∃ inflation_i inflation_j,
    salary_drift num_instances i rng
      = Ok (inflation_i + 20000 + 130000 * (rng_random rng).1, (rng_random rng).2)%Q ∧
    salary_drift num_instances j rng
      = Ok (inflation_j + 20000 + 130000 * (rng_random rng).1, (rng_random rng).2)%Q ∧
    (inflation_i <= inflation_j)%Q ∧
    ((4 * i ≤ 3 * num_instances)%Z →
       inflation_i = (inject_Z (40000 * i) / inject_Z num_instances - 10000)%Q) ∧
    ((3 * num_instances ≤ 4 * i)%Z → (inflation_i == 20000)%Q ∧ (inflation_j == 20000)%Q).
Proof.
  intros Hn Hi Hij. eexists _, _. split_and!.
  - by apply salary_drift_after.
  - apply salary_drift_after; lia.
  - apply inflation_mono; lia.
  - intros H3. apply inflation_ramp; lia.
  - intros H3. split; apply inflation_cap; lia.
Qed.

Lemma salary_drift_inflation_witness :
  ∃ inflation_i inflation_j,
    @salary_drift Examples.lcg 40000 20000 1%Z
      = Ok (inflation_i + 20000 + 130000 * (@rng_random Examples.lcg 1%Z).1,
            (@rng_random Examples.lcg 1%Z).2)%Q ∧
    @salary_drift Examples.lcg 40000 35000 1%Z
      = Ok (inflation_j + 20000 + 130000 * (@rng_random Examples.lcg 1%Z).1,
            (@rng_random Examples.lcg 1%Z).2)%Q ∧
    (inflation_i <= inflation_j)%Q ∧
    ((4 * 20000 ≤ 3 * 40000)%Z →
       inflation_i = (inject_Z (40000 * 20000) / inject_Z 40000 - 10000)%Q) ∧
    ((3 * 40000 ≤ 4 * 20000)%Z → (inflation_i == 20000)%Q ∧ (inflation_j == 20000)%Q).
Proof.
  apply (salary_drift_inflation (H := Examples.lcg) 40000 20000 35000 1%Z).
  - lia.
  - vm_compute. discriminate.
  - lia.
Defined.


